(** * redipy: the symbolic sequence builder and the in-memory builtins

    A shallow embedding of [redipy/symbolic/seq.py] and
    [redipy/memory/gfun.py].

    Python objects that are mutated through several handles (every
    [Sequence], and the [FnContext] they all point back to) live in an
    explicit heap indexed by addresses; a builder method is a function
    from heaps to an outcome and the heap it leaves behind, so that the
    heap survives a raised exception exactly as the Python objects do.
    Objects that are never mutated after their constructor returns
    ([Branch], [ForLoop], [WhileLoop], the variables, [CmdHelper]) are
    plain values that mention their child sequences by address. *)

From Stdlib Require Import ZArith Lia Ascii String List.
From Stdlib Require Floats.PrimFloat Floats.SpecFloat Floats.FloatOps.
From stdpp Require Import base tactics option list strings gmap pretty sorting.
From stdpp Require Import finite relations.

Set Warnings "-register-all,-clear-no-such-hyp".

(** ** Exceptions and the two effect layers *)

(** The Python exceptions the modelled code can raise.  [DanglingRef]
    has no Python counterpart: it is what a lookup of an address outside
    the heap yields, and the builder never produces such an address. *)
Inductive exn : Type :=
| ValueError (msg : string)
| RuntimeError (msg : string)
| TypeError
| IndexError
| OverflowError
| AttributeError
| NotImplementedError
| RecursionError
| DanglingRef.

Inductive result (A : Type) : Type :=
| Ok (a : A)
| Raise (e : exn).
Arguments Ok {A} a.
Arguments Raise {A} e.

Definition rbind {A B} (c : result A) (k : A → result B) : result B :=
  match c with
  | Ok a => k a
  | Raise e => Raise e
  end.

Notation "'let*' x := c 'in' k" := (rbind c (fun x => k))
  (at level 10, x name, c at level 100, k at level 200).

(** A list comprehension whose body can raise: the first exception ends
    the comprehension. *)
Fixpoint comprehension {A B} (f : A → result B) (l : list A) : result (list B) :=
  match l with
  | [] => Ok []
  | x :: l' => let* y := f x in let* ys := comprehension f l' in Ok (y :: ys)
  end.

(** ** What the builder imports from the rest of the package

    [redipy.symbolic.expr] and [redipy.symbolic.core] are outside the
    modelled files.  Expressions, their compiled form, [lit_helper] and
    the declaration commands of the three declared-variable classes of
    [core] are taken as parameters. *)
Class Extern : Type := {
  (** [Expr], and what [Expr.compile] returns *)
  Expr : Type;
  ExprObj : Type;
  Expr_compile : Expr → ExprObj;
  (** [MixedType] is [option MixedVal]: [None] is Python's [None] *)
  MixedVal : Type;
  lit_helper : option MixedVal → Expr;
  (** the IR node [Variable.get_declare] of [core] builds for a
      [JSONArg] or [KeyVariable] of a given name and index, and for a
      [LocalVariable] of a given initial value and index *)
  CoreObj : Type;
  arg_declare : string → nat → CoreObj;
  key_declare : string → nat → CoreObj;
  local_declare : option MixedVal → nat → CoreObj;
}.

Section Symbolic.
Context {E : Extern}.

Definition MixedType : Type := option MixedVal.

(** ** The compiled IR, as the dictionaries [seq.py] builds

    [DeclareObj] holds the node of a declaration, which [core] builds. *)

Record IndexObj : Type := { index_name : string }.
Record VarObj : Type := { var_name : string }.

Inductive CommandObj : Type :=
| StmtObj (expr : ExprObj)
| ReturnObj (value : option ExprObj)
| BranchObj (condition : ExprObj) (then_ else_ : SequenceObj)
| ForObj (array : ExprObj) (index : IndexObj) (value : VarObj) (body : SequenceObj)
| WhileObj (condition : ExprObj) (body : SequenceObj)
| DeclareObj (decl : CoreObj)
with SequenceObj : Type :=
| SeqObj (cmds : list CommandObj)
| ScriptObj (cmds : list CommandObj) (argv keyv : list string).

(** ** Variables *)

(** Modelled from the spec: the classes [JSONArg], [KeyVariable] and
    [LocalVariable] of [redipy.symbolic.core], which is not among the
    sources.  A declared variable has a kind and an index that is
    assigned once, at creation; [seq.py] makes one from a name (or an
    initial value) and gives it its index with [set_index] at once, so a
    variable is the value of both. *)
Record JSONArg : Type := { arg_name : string; arg_index : nat }.
Record KeyVariable : Type := { key_name : string; key_index : nat }.
Record LocalVariable : Type := { local_init : MixedType; local_index : nat }.

(** The two variable classes of [seq.py], with the index [ForLoop] sets. *)
Record IndexVariable : Type := { ix_index : nat }.
Record ValueVariable : Type := { val_index : nat }.

(** [IndexVariable] *)
Definition IndexVariable_get_declare_rhs (self : IndexVariable) : result Expr :=
  Raise (RuntimeError "must be used in for loop").

Definition IndexVariable_prefix (self : IndexVariable) : string := "ix".

Definition IndexVariable_get_index_ref (self : IndexVariable) : IndexObj :=
  {| index_name := IndexVariable_prefix self +:+ "_" +:+ pretty (ix_index self) |}.

(** [ValueVariable] *)
Definition ValueVariable_get_declare_rhs (self : ValueVariable) : result Expr :=
  Raise (RuntimeError "must be used in for loop").

Definition ValueVariable_prefix (self : ValueVariable) : string := "val".

Definition ValueVariable_get_var_ref (self : ValueVariable) : VarObj :=
  {| var_name := ValueVariable_prefix self +:+ "_" +:+ pretty (val_index self) |}.

(** ** Compilables and the heap of sequences *)

Abbreviation addr := nat.

(** The control-flow nodes hold their expression and the addresses of
    their child sequences. *)
Record Branch : Type := {
  branch_condition : Expr;
  _success : addr;
  _failure : addr;
}.

Record ForLoop : Type := {
  _ix : IndexVariable;
  _val : ValueVariable;
  for_loop : addr;
  _array : Expr;
}.

Record WhileLoop : Type := {
  while_condition : Expr;
  while_loop : addr;
}.

(** The subclasses of [Compilable].  Modelled from the spec for
    [CmdHelper], a class of [redipy.symbolic.core]: a compilable
    produces one IR node on demand, and [CmdHelper] does so by calling
    the function it was made from. *)
Inductive Compilable : Type :=
| CmdHelper (fun_ : unit → result CommandObj)
| IsBranch (b : Branch)
| IsForLoop (l : ForLoop)
| IsWhileLoop (w : WhileLoop).

(** The fields [FnContext.__init__] adds to a sequence. *)
Record FnFields : Type := {
  _args : list (string * JSONArg);
  _keys : list (string * KeyVariable);
  _anames : gset string;
  _knames : gset string;
  _locals : list LocalVariable;
  _loops : nat;
}.

(** The class of a sequence object: the abstract base, [Seq], or
    [FnContext] with its fields. *)
Inductive Class : Type :=
| Sequence_cls
| Seq_cls
| FnContext_cls (f : FnFields).

Record Object : Type := {
  _ctx : addr;
  _seq : list Compilable;
  cls : Class;
}.

Abbreviation heap := (list Object).

Definition deref (h : heap) (a : addr) : result Object :=
  match h !! a with
  | Some o => Ok o
  | None => Raise DanglingRef
  end.

(** ** Compilation: [get_cmds] and the [compile] methods

    The methods call each other through the heap, so the recursion is
    bounded by an explicit depth; running out of depth is Python's
    [RecursionError]. *)

Definition get_cmds_with (rec : Compilable → result CommandObj)
    (h : heap) (self : addr) : result (list CommandObj) :=
  let* o := deref h self in
  comprehension rec (_seq o).

Definition Sequence_compile_with (rec : Compilable → result CommandObj)
    (h : heap) (self : addr) : result SequenceObj :=
  let* o := deref h self in
  match cls o with
  | Sequence_cls => Raise NotImplementedError
  | Seq_cls =>
      let* cmds := get_cmds_with rec h self in
      Ok (SeqObj cmds)
  | FnContext_cls f =>
      let* cmds := get_cmds_with rec h self in
      Ok (ScriptObj cmds (map fst (_args f)) (map fst (_keys f)))
  end.

Fixpoint Compilable_compile (depth : nat) (h : heap) (c : Compilable)
    {struct depth} : result CommandObj :=
  match depth with
  | 0 => Raise RecursionError
  | S d =>
      match c with
      | CmdHelper fun_ => fun_ tt
      | IsBranch b =>
          let condition := Expr_compile (branch_condition b) in
          let* then_ := Sequence_compile_with (Compilable_compile d h) h (_success b) in
          let* else_ := Sequence_compile_with (Compilable_compile d h) h (_failure b) in
          Ok (BranchObj condition then_ else_)
      | IsForLoop l =>
          let array := Expr_compile (_array l) in
          let index := IndexVariable_get_index_ref (_ix l) in
          let value := ValueVariable_get_var_ref (_val l) in
          let* body := Sequence_compile_with (Compilable_compile d h) h (for_loop l) in
          Ok (ForObj array index value body)
      | IsWhileLoop w =>
          let condition := Expr_compile (while_condition w) in
          let* body := Sequence_compile_with (Compilable_compile d h) h (while_loop w) in
          Ok (WhileObj condition body)
      end
  end.

Definition get_cmds (depth : nat) (h : heap) (self : addr) : result (list CommandObj) :=
  get_cmds_with (Compilable_compile depth h) h self.

Definition Sequence_compile (depth : nat) (h : heap) (self : addr) : result SequenceObj :=
  Sequence_compile_with (Compilable_compile depth h) h self.

(** ** Builder methods

    A method takes the heap and returns its outcome together with the
    heap it leaves: what was mutated before an exception stays mutated. *)

Definition M (A : Type) : Type := heap → result A * heap.

Definition ret {A} (a : A) : M A := λ h, (Ok a, h).

Definition raise {A} (e : exn) : M A := λ h, (Raise e, h).

Definition bind {A B} (c : M A) (k : A → M B) : M B :=
  λ h, match c h with
       | (Ok a, h') => k a h'
       | (Raise e, h') => (Raise e, h')
       end.

Notation "'do' x <~ c ; k" := (bind c (fun x => k))
  (at level 10, x name, c at level 100, k at level 200).

Definition load (a : addr) : M Object := λ h, (deref h a, h).

Definition store (a : addr) (o : Object) : M unit := λ h, (Ok tt, <[a := o]> h).

(** A new object gets the next free address. *)
Definition alloc (o : Object) : M addr := λ h, (Ok (length h), h ++ [o]).

Definition set_seq (o : Object) (l : list Compilable) : Object :=
  {| _ctx := _ctx o; _seq := l; cls := cls o |}.

Definition set_cls (o : Object) (c : Class) : Object :=
  {| _ctx := _ctx o; _seq := _seq o; cls := c |}.

(** [self._seq.append(c)] *)
Definition seq_append (self : addr) (c : Compilable) : M unit :=
  do o <~ load self;
  store self (set_seq o (_seq o ++ [c])).

(** [Seq(ctx)] *)
Definition Seq_init (ctx : addr) : M addr :=
  alloc {| _ctx := ctx; _seq := []; cls := Seq_cls |}.

(** [Sequence.add]: [inl] is the [isinstance(term, Compilable)] case. *)
Definition Sequence_add (self : addr) (term : Compilable + Expr) : M unit :=
  match term with
  | inl c => seq_append self c
  | inr e =>
      let stmt := StmtObj (Expr_compile e) in
      seq_append self (CmdHelper (λ _, Ok stmt))
  end.

Definition Sequence_is_empty (self : addr) : M bool :=
  do o <~ load self;
  ret (match _seq o with [] => true | _ => false end).

(** *** [FnContext] *)

Definition FnContext_fields0 : FnFields :=
  {| _args := []; _keys := []; _anames := ∅; _knames := ∅;
     _locals := []; _loops := 0 |}.

(** [FnContext()]: the new object is its own context. *)
Definition FnContext_init : M addr :=
  λ h, alloc {| _ctx := length h; _seq := []; cls := FnContext_cls FnContext_fields0 |} h.

(** Reading an attribute of [FnContext] on [self]; an object of another
    class does not have it. *)
Definition fields (self : addr) : M FnFields :=
  do o <~ load self;
  match cls o with
  | FnContext_cls f => ret f
  | _ => raise AttributeError
  end.

Definition update_fields (self : addr) (upd : FnFields → FnFields) : M unit :=
  do o <~ load self;
  match cls o with
  | FnContext_cls f => store self (set_cls o (FnContext_cls (upd f)))
  | _ => raise AttributeError
  end.

Definition args_append (x : string * JSONArg) (f : FnFields) : FnFields :=
  {| _args := _args f ++ [x]; _keys := _keys f; _anames := _anames f;
     _knames := _knames f; _locals := _locals f; _loops := _loops f |}.

Definition keys_append (x : string * KeyVariable) (f : FnFields) : FnFields :=
  {| _args := _args f; _keys := _keys f ++ [x]; _anames := _anames f;
     _knames := _knames f; _locals := _locals f; _loops := _loops f |}.

Definition anames_add (name : string) (f : FnFields) : FnFields :=
  {| _args := _args f; _keys := _keys f; _anames := _anames f ∪ {[name]};
     _knames := _knames f; _locals := _locals f; _loops := _loops f |}.

Definition knames_add (name : string) (f : FnFields) : FnFields :=
  {| _args := _args f; _keys := _keys f; _anames := _anames f;
     _knames := _knames f ∪ {[name]}; _locals := _locals f; _loops := _loops f |}.

Definition locals_append (x : LocalVariable) (f : FnFields) : FnFields :=
  {| _args := _args f; _keys := _keys f; _anames := _anames f;
     _knames := _knames f; _locals := _locals f ++ [x]; _loops := _loops f |}.

Definition loops_incr (f : FnFields) : FnFields :=
  {| _args := _args f; _keys := _keys f; _anames := _anames f;
     _knames := _knames f; _locals := _locals f; _loops := _loops f + 1 |}.

(** Modelled from the spec: the bound methods [arg.get_declare],
    [key.get_declare] and [local.get_declare] of [redipy.symbolic.core]
    handed to [CmdHelper].  A declaration appends "an explicit declare
    statement": the method yields one declaration node, which is a
    parameter. *)
Definition JSONArg_get_declare (arg : JSONArg) : unit → result CommandObj :=
  λ _, Ok (DeclareObj (arg_declare (arg_name arg) (arg_index arg))).

Definition KeyVariable_get_declare (key : KeyVariable) : unit → result CommandObj :=
  λ _, Ok (DeclareObj (key_declare (key_name key) (key_index key))).

Definition LocalVariable_get_declare (local : LocalVariable) : unit → result CommandObj :=
  λ _, Ok (DeclareObj (local_declare (local_init local) (local_index local))).

Definition FnContext_add_arg (self : addr) (name : string) : M JSONArg :=
  do f <~ fields self;
  if decide (name ∈ _anames f) then
    raise (ValueError ("ambiguous arg name: " +:+ name))
  else
    let arg := {| arg_name := name; arg_index := length (_args f) |} in
    do _ <~ update_fields self (args_append (name, arg));
    do _ <~ update_fields self (anames_add name);
    do _ <~ Sequence_add self (inl (CmdHelper (JSONArg_get_declare arg)));
    ret arg.

Definition FnContext_add_key (self : addr) (name : string) : M KeyVariable :=
  do f <~ fields self;
  if decide (name ∈ _knames f) then
    raise (ValueError ("ambiguous key name: " +:+ name))
  else
    let key := {| key_name := name; key_index := length (_keys f) |} in
    do _ <~ update_fields self (keys_append (name, key));
    do _ <~ update_fields self (knames_add name);
    do _ <~ Sequence_add self (inl (CmdHelper (KeyVariable_get_declare key)));
    ret key.

Definition FnContext_add_local (self : addr) (init : MixedType) : M LocalVariable :=
  do f <~ fields self;
  let local := {| local_init := init; local_index := length (_locals f) |} in
  do _ <~ update_fields self (locals_append local);
  do _ <~ Sequence_add self (inl (CmdHelper (LocalVariable_get_declare local)));
  ret local.

Definition FnContext_add_loop (self : addr) : M nat :=
  do f <~ fields self;
  let loop := _loops f in
  do _ <~ update_fields self loops_incr;
  ret loop.

Definition FnContext_set_return_value (self : addr) (value : MixedType) : M unit :=
  match value with
  | None => Sequence_add self (inl (CmdHelper (λ _, Ok (ReturnObj None))))
  | Some _ =>
      let expr := lit_helper value in
      Sequence_add self (inl (CmdHelper (λ _, Ok (ReturnObj (Some (Expr_compile expr))))))
  end.

(** *** The control-flow nodes *)

Definition Branch_init (ctx : addr) (condition : MixedType) : M Branch :=
  let cond := lit_helper condition in
  do s <~ Seq_init ctx;
  do f <~ Seq_init ctx;
  ret {| branch_condition := cond; _success := s; _failure := f |}.

Definition ForLoop_init (ctx : addr) (array : Expr) : M ForLoop :=
  do loop_ix <~ FnContext_add_loop ctx;
  let ix := {| ix_index := loop_ix |} in
  let val := {| val_index := loop_ix |} in
  do l <~ Seq_init ctx;
  ret {| _ix := ix; _val := val; for_loop := l; _array := array |}.

Definition WhileLoop_init (ctx : addr) (condition : MixedType) : M WhileLoop :=
  let cond := lit_helper condition in
  do l <~ Seq_init ctx;
  ret {| while_condition := cond; while_loop := l |}.

Definition Sequence_for_ (self : addr) (array : Expr)
    : M (addr * IndexVariable * ValueVariable) :=
  do o <~ load self;
  do loop <~ ForLoop_init (_ctx o) array;
  do _ <~ Sequence_add self (inl (IsForLoop loop));
  ret (for_loop loop, _ix loop, _val loop).

Definition Sequence_if_ (self : addr) (condition : MixedType) : M (addr * addr) :=
  do o <~ load self;
  do branch <~ Branch_init (_ctx o) condition;
  do _ <~ Sequence_add self (inl (IsBranch branch));
  ret (_success branch, _failure branch).

Definition Sequence_while_ (self : addr) (condition : MixedType) : M addr :=
  do o <~ load self;
  do loop <~ WhileLoop_init (_ctx o) condition;
  do _ <~ Sequence_add self (inl (IsWhileLoop loop));
  ret (while_loop loop).

(** *** Client code: a run of [add] calls on one sequence *)

Fixpoint add_all (self : addr) (terms : list (Compilable + Expr)) : M unit :=
  match terms with
  | [] => ret tt
  | t :: ts => do _ <~ Sequence_add self t; add_all self ts
  end.

(** The entry [add] stores for a term. *)
Definition entry_of (term : Compilable + Expr) : Compilable :=
  match term with
  | inl c => c
  | inr e => CmdHelper (λ _, Ok (StmtObj (Expr_compile e)))
  end.

(** *** Client code: declaring several names, catching an exception *)

Fixpoint add_args (self : addr) (names : list string) : M (list JSONArg) :=
  match names with
  | [] => ret []
  | n :: ns =>
      do a <~ FnContext_add_arg self n;
      do rest <~ add_args self ns;
      ret (a :: rest)
  end.

Fixpoint add_keys (self : addr) (names : list string) : M (list KeyVariable) :=
  match names with
  | [] => ret []
  | n :: ns =>
      do k <~ FnContext_add_key self n;
      do rest <~ add_keys self ns;
      ret (k :: rest)
  end.

(** [try: c except Exception: pass]: the caller goes on with the heap
    the failed call left. *)
Definition attempt {A} (c : M A) : M (result A) :=
  λ h, (Ok (c h).1, (c h).2).

(** *** Client code: an arbitrary run of builder calls

    A program that builds a script is a list of calls on the addresses
    it holds; a call that raises is caught and the program goes on. *)
Inductive Call : Type :=
| NewFnContext
| Add (self : addr) (term : Compilable + Expr)
| For_ (self : addr) (array : Expr)
| If_ (self : addr) (condition : MixedType)
| While_ (self : addr) (condition : MixedType)
| AddArg (self : addr) (name : string)
| AddKey (self : addr) (name : string)
| AddLocal (self : addr) (init : MixedType)
| SetReturnValue (self : addr) (value : MixedType)
| AddLoop (self : addr)
| NewForLoop (ctx : addr) (array : Expr).

(** What the log of a run records about loop ids: a for loop, with the
    script scope it was constructed in and its two variables, or an id
    that [add_loop] returned to the program itself. *)
Inductive Event : Type :=
| Loop (scope : addr) (ix : IndexVariable) (val : ValueVariable)
| Allocated (scope : addr) (id : nat).

Definition event_scope (e : Event) : addr :=
  match e with
  | Loop scope _ _ => scope
  | Allocated scope _ => scope
  end.

(** The id an event shows: that of the index variable of a loop, or the
    one [add_loop] returned. *)
Definition event_id (e : Event) : nat :=
  match e with
  | Loop _ ix _ => ix_index ix
  | Allocated _ id => id
  end.

Definition scope_of (h : heap) (self : addr) : addr :=
  match h !! self with
  | Some o => _ctx o
  | None => 0
  end.

(** One call: the event it adds to the log, if any, and the heap it
    leaves. *)
Definition exec (c : Call) (h : heap) : list Event * heap :=
  match c with
  | NewFnContext => ([], (FnContext_init h).2)
  | Add self term => ([], (Sequence_add self term h).2)
  | For_ self array =>
      match Sequence_for_ self array h with
      | (Ok (_, ix, val), h') =>
          ([Loop (scope_of h self) ix val], h')
      | (Raise _, h') => ([], h')
      end
  | If_ self condition => ([], (Sequence_if_ self condition h).2)
  | While_ self condition => ([], (Sequence_while_ self condition h).2)
  | AddArg self name => ([], (FnContext_add_arg self name h).2)
  | AddKey self name => ([], (FnContext_add_key self name h).2)
  | AddLocal self init => ([], (FnContext_add_local self init h).2)
  | SetReturnValue self value => ([], (FnContext_set_return_value self value h).2)
  | AddLoop self =>
      match FnContext_add_loop self h with
      | (Ok id, h') => ([Allocated self id], h')
      | (Raise _, h') => ([], h')
      end
  | NewForLoop ctx array =>
      match ForLoop_init ctx array h with
      | (Ok l, h') =>
          ([Loop ctx (_ix l) (_val l)], h')
      | (Raise _, h') => ([], h')
      end
  end.

(** A call of [add_loop] by the program itself, not by the constructor
    of [ForLoop]. *)
Definition direct_add_loop (c : Call) : Prop :=
  match c with
  | AddLoop _ => True
  | _ => False
  end.

Fixpoint run (calls : list Call) (h : heap) : list Event * heap :=
  match calls with
  | [] => ([], h)
  | c :: cs =>
      let '(log, h') := exec c h in
      let '(logs, h'') := run cs h' in
      (log ++ logs, h'')
  end.

(** The events of a log that belong to the scope [c]. *)
Definition events_in (c : addr) (log : list Event) : list Event :=
  filter (λ e, event_scope e = c) log.

(** The for loops among some events, each as its two variables. *)
Definition loops_of (events : list Event) :
    list (IndexVariable * ValueVariable) :=
  omap (λ e, match e with
             | Loop _ ix val => Some (ix, val)
             | Allocated _ _ => None
             end) events.

Definition is_loop (e : Event) : Prop :=
  match e with
  | Loop _ _ _ => True
  | Allocated _ _ => False
  end.

(** The two variables of a loop carry one id. *)
Definition one_id (e : Event) : Prop :=
  match e with
  | Loop _ ix val => val_index val = ix_index ix
  | Allocated _ _ => True
  end.

(** The loop counter of the script scope at [c]; an address that does
    not hold a script scope has handed out no loop id. *)
Definition loop_counter (h : heap) (c : addr) : nat :=
  match h !! c with
  | Some o =>
      match cls o with
      | FnContext_cls f => _loops f
      | _ => 0
      end
  | None => 0
  end.

(** A method that leaves every loop counter as it found it. *)
Definition keeps_counters {A} (m : M A) : Prop :=
  ∀ h c, loop_counter (m h).2 c = loop_counter h c.

(** ** Invariants of the heaps the builder produces *)

(** The names declared in each namespace are exactly the registered
    ones, and a registered variable carries its name and its position. *)
Definition scope_inv (f : FnFields) : Prop :=
  _anames f = list_to_set (map fst (_args f)) ∧
  _knames f = list_to_set (map fst (_keys f)) ∧
  (∀ i n a, _args f !! i = Some (n, a) → a = {| arg_name := n; arg_index := i |}) ∧
  (∀ i n k, _keys f !! i = Some (n, k) → k = {| key_name := n; key_index := i |}).

(** The child sequences a node points to. *)
Definition children (c : Compilable) : list addr :=
  match c with
  | CmdHelper _ => []
  | IsBranch b => [_success b; _failure b]
  | IsForLoop l => [for_loop l]
  | IsWhileLoop w => [while_loop w]
  end.

(** A sequence was created after its context, and the child sequences of
    its nodes after the sequence itself; every address is live. *)
Definition well_formed (h : heap) : Prop :=
  ∀ a o, h !! a = Some o →
    _ctx o ≤ a ∧
    ∀ c r, c ∈ _seq o → r ∈ children c → a < r < length h.

(** Every script scope of the heap satisfies [scope_inv], and the
    context of every sequence is a script scope. *)
Definition scopes_ok (h : heap) : Prop :=
  ∀ a o, h !! a = Some o →
    (∀ f, cls o = FnContext_cls f → scope_inv f) ∧
    (∃ c f, h !! _ctx o = Some c ∧ cls c = FnContext_cls f).

(** A call that goes through the builder methods alone: [add] is given
    an expression or a [CmdHelper], not a control-flow node made by
    hand, which [if_], [while_] and [for_] are there to make. *)
Definition api_call (c : Call) : Prop :=
  match c with
  | Add _ (inl (IsBranch _)) | Add _ (inl (IsForLoop _))
  | Add _ (inl (IsWhileLoop _)) => False
  | _ => True
  end.

(** ** What a control-flow method does to the heap *)


(** The object [Seq(ctx)] creates. *)
Definition new_seq (ctx : addr) : Object :=
  {| _ctx := ctx; _seq := []; cls := Seq_cls |}.


(** The object at [self] once the loop counter of its context was
    advanced: another object only if [self] is the context itself. *)
Definition after_add_loop (self : addr) (o : Object) (f : FnFields) : Object :=
  set_cls o (if decide (self = _ctx o) then FnContext_cls (loops_incr f) else cls o).


End Symbolic.

Notation "'do' x <~ c ; k" := (bind c (fun x => k))
  (at level 10, x name, c at level 100, k at level 200).

(** ** An instance for examples

    Expressions are their source text and compile to it; a declaration
    command records the name (or the initial value) and the index. *)
Definition text_extern : Extern := {|
  Expr := string;
  ExprObj := string;
  Expr_compile := λ e, e;
  MixedVal := string;
  lit_helper := λ v, default "nil" v;
  CoreObj := string * nat;
  arg_declare := λ name i, (name, i);
  key_declare := λ name i, (name, i);
  local_declare := λ init i, (default "nil" init, i);
|}.

(** The heap right after [FnContext()], and its only object. *)
Definition scope0 : @Object text_extern :=
  {| _ctx := 0; _seq := []; cls := FnContext_cls FnContext_fields0 |}.

Definition heap0 : list (@Object text_extern) := [scope0].

(** The same scope after [add_arg("x")]. *)
Definition fields1 : @FnFields text_extern :=
  anames_add "x"
    (args_append ("x", {| arg_name := "x"; arg_index := 0 |}) FnContext_fields0).

Definition scope1 : @Object text_extern :=
  {| _ctx := 0;
     _seq := [CmdHelper (JSONArg_get_declare {| arg_name := "x"; arg_index := 0 |})];
     cls := FnContext_cls fields1 |}.

Definition heap1 : list (@Object text_extern) := [scope1].

(** A program: a scope with an argument and a key, a branch whose
    success sequence (address 1) gets a statement and a loop, whose body
    (address 3) gets a statement, then a second loop in the scope, a
    declaration that fails, and the return. *)
Definition example_program : list (@Call text_extern) :=
  [ NewFnContext; AddArg 0 "a"; AddKey 0 "k";
    If_ (E := text_extern) 0 (Some "c");
    Add (E := text_extern) 1 (inr "x");
    For_ (E := text_extern) 1 "xs";
    Add (E := text_extern) 3 (inr "y");
    For_ (E := text_extern) 0 "zs";
    AddArg 0 "a"; SetReturnValue 0 None ].

(** * More of the builder: references, client programs and invariants *)

Section MoreSymbolic.
Context {E : Extern}.
Abbreviation addr := nat.
Abbreviation heap := (list Object).

(** [RefIdObj]: the reference to an index or to a value. *)
Definition RefIdObj : Type := IndexObj + VarObj.

Definition IndexVariable_get_ref (self : IndexVariable) : RefIdObj :=
  inl (IndexVariable_get_index_ref self).

Definition ValueVariable_get_ref (self : ValueVariable) : RefIdObj :=
  inr (ValueVariable_get_var_ref self).

(** The name a reference holds. *)
Definition ref_name (r : RefIdObj) : string :=
  match r with
  | inl i => index_name i
  | inr v => var_name v
  end.

(** *** Client code: declaring several local variables *)

Fixpoint add_locals (self : addr) (inits : list MixedType) : M (list LocalVariable) :=
  match inits with
  | [] => ret []
  | init :: inits' =>
      do l <~ FnContext_add_local self init;
      do rest <~ add_locals self inits';
      ret (l :: rest)
  end.

(** ** The steps a builder method is made of

    Every method changes the heap by a few steps of four kinds: a new
    script scope, a new empty sequence of a live scope, one entry more
    at the end of a sequence, one registration more in a scope. *)

(** The object [FnContext()] creates at the address [a]. *)
Definition new_scope (a : addr) : Object :=
  {| _ctx := a; _seq := []; cls := FnContext_cls FnContext_fields0 |}.

(** One registration: an argument or a key of a new name, a local
    variable, or a loop id. *)
Definition fields_step (f f' : FnFields) : Prop :=
  (∃ name, (name ∉ _anames f) ∧
     f' = anames_add name
            (args_append (name, {| arg_name := name; arg_index := length (_args f) |}) f)) ∨
  (∃ name, (name ∉ _knames f) ∧
     f' = knames_add name
            (keys_append (name, {| key_name := name; key_index := length (_keys f) |}) f)) ∨
  (∃ init,
     f' = locals_append {| local_init := init; local_index := length (_locals f) |} f) ∨
  f' = loops_incr f.

(** An entry a method makes itself for the sequence at [a]: a
    [CmdHelper] that returns its command, or a control-flow node whose
    child sequences were created for it, after [a] and in the scope of
    [a]. *)
Definition built_node (h : heap) (a : addr) (c : Compilable) : Prop :=
  match c with
  | CmdHelper fun_ => ∃ cmd, fun_ tt = Ok cmd
  | _ => ∀ r, r ∈ children c →
           a < r < length h ∧
           ∃ o, h !! a = Some o ∧ h !! r = Some (new_seq (_ctx o))
  end.

(** [U] holds of the entries the program hands to [add] itself. *)
Inductive edit (U : Compilable → Prop) : heap → heap → Prop :=
| edit_new_scope h :
    edit U h (h ++ [new_scope (length h)])
| edit_new_seq h ctx c f :
    h !! ctx = Some c → cls c = FnContext_cls f →
    edit U h (h ++ [new_seq ctx])
| edit_append h a o c :
    h !! a = Some o → U c ∨ built_node h a c →
    edit U h (<[a := set_seq o (_seq o ++ [c])]> h)
| edit_fields h a o f f' :
    h !! a = Some o → cls o = FnContext_cls f → fields_step f f' →
    edit U h (<[a := set_cls o (FnContext_cls f')]> h).

(** The entries a call hands to [add] satisfy [U]. *)
Definition user_nodes (U : Compilable → Prop) (c : Call) : Prop :=
  match c with
  | Add _ (inl node) => U node
  | _ => True
  end.

(** A [CmdHelper] whose function returns a command. *)
Definition returning_helper (c : Compilable) : Prop :=
  ∃ fun_ cmd, c = CmdHelper fun_ ∧ fun_ tt = Ok cmd.

(** ** What stays when the heap changes *)

Definition fields_grow (f f' : FnFields) : Prop :=
  _args f `prefix_of` _args f' ∧ _keys f `prefix_of` _keys f' ∧
  _locals f `prefix_of` _locals f' ∧ _loops f ≤ _loops f'.

Definition class_grows (k k' : Class) : Prop :=
  match k, k' with
  | Sequence_cls, Sequence_cls => True
  | Seq_cls, Seq_cls => True
  | FnContext_cls f, FnContext_cls f' => fields_grow f f'
  | _, _ => False
  end.

(** Every object of [h] is still there in [h'], in the same scope and of
    the same class, with its entries and registrations and possibly
    more after them. *)
Definition heap_grows (h h' : heap) : Prop :=
  ∀ a o, h !! a = Some o →
    ∃ o', h' !! a = Some o' ∧ _ctx o' = _ctx o ∧
          _seq o `prefix_of` _seq o' ∧ class_grows (cls o) (cls o').

(** The registered names of a scope are distinct and every registered
    variable carries its position. *)
Definition declared_ok (f : FnFields) : Prop :=
  NoDup (map fst (_args f)) ∧ NoDup (map fst (_keys f)) ∧
  (∀ i n a, _args f !! i = Some (n, a) → arg_name a = n ∧ arg_index a = i) ∧
  (∀ i n k, _keys f !! i = Some (n, k) → key_name k = n ∧ key_index k = i) ∧
  (∀ i l, _locals f !! i = Some l → local_index l = i).

Definition declared_heap (h : heap) : Prop :=
  ∀ a o f, h !! a = Some o → cls o = FnContext_cls f → declared_ok f.

(** The child sequences of the entries of a sequence are live and in
    the scope of the sequence, and a script scope is its own context. *)
Definition scoped_heap (h : heap) : Prop :=
  (∀ a o c r, h !! a = Some o → c ∈ _seq o → r ∈ children c →
     ∃ child, h !! r = Some child ∧ _ctx child = _ctx o) ∧
  (∀ a o f, h !! a = Some o → cls o = FnContext_cls f → _ctx o = a).

(** An entry without child sequences. *)
Definition leaf (c : Compilable) : Prop := children c = [].

(** No object is a plain [Sequence], and every [CmdHelper] returns. *)
Definition compilable_heap (h : heap) : Prop :=
  ∀ a o, h !! a = Some o →
    cls o ≠ Sequence_cls ∧
    ∀ fun_, CmdHelper fun_ ∈ _seq o → ∃ cmd, fun_ tt = Ok cmd.

End MoreSymbolic.

Section Structured.
Context {E : Extern}.
Abbreviation addr := nat.
Abbreviation heap := (list Object).

(** *** Client code: a structured script

    A program that builds a script as it is nested: an expression is
    added, and a branch or a loop is made with [if_], [while_] or
    [for_] and its bodies are built in the sequences the method
    returned. *)
Inductive Stmt : Type :=
| SExpr (e : Expr)
| SIf (condition : MixedType) (then_ else_ : Block)
| SWhile (condition : MixedType) (body : Block)
| SFor (array : Expr) (body : Block)
with Block : Type :=
| BNil
| BCons (s : Stmt) (b : Block).

Fixpoint build (s : Stmt) (self : addr) : M unit :=
  match s with
  | SExpr e => Sequence_add self (inr e)
  | SIf condition then_ else_ =>
      do branches <~ Sequence_if_ self condition;
      do _ <~ build_block then_ branches.1;
      build_block else_ branches.2
  | SWhile condition body =>
      do loop <~ Sequence_while_ self condition;
      build_block body loop
  | SFor array body =>
      do loop <~ Sequence_for_ self array;
      build_block body loop.1.1
  end
with build_block (b : Block) (self : addr) : M unit :=
  match b with
  | BNil => ret tt
  | BCons s b' => do _ <~ build s self; build_block b' self
  end.

(** The commands such a program stands for, read off its nesting; the
    for loops are numbered as they come, from [n] on, and the number
    that comes next is returned. *)
Fixpoint denote (s : Stmt) (n : nat) : CommandObj * nat :=
  match s with
  | SExpr e => (StmtObj (Expr_compile e), n)
  | SIf condition then_ else_ =>
      let '(t, n1) := denote_block then_ n in
      let '(e, n2) := denote_block else_ n1 in
      (BranchObj (Expr_compile (lit_helper condition)) (SeqObj t) (SeqObj e), n2)
  | SWhile condition body =>
      let '(b, n1) := denote_block body n in
      (WhileObj (Expr_compile (lit_helper condition)) (SeqObj b), n1)
  | SFor array body =>
      let '(b, n1) := denote_block body (S n) in
      (ForObj (Expr_compile array)
         {| index_name := "ix_" +:+ pretty n |} {| var_name := "val_" +:+ pretty n |}
         (SeqObj b), n1)
  end
with denote_block (b : Block) (n : nat) : list CommandObj * nat :=
  match b with
  | BNil => ([], n)
  | BCons s b' =>
      let '(cmd, n1) := denote s n in
      let '(cmds, n2) := denote_block b' n1 in
      (cmd :: cmds, n2)
  end.

(** How deep the commands are nested. *)
Fixpoint depth (s : Stmt) : nat :=
  match s with
  | SExpr _ => 1
  | SIf _ then_ else_ => S (depth_block then_ `max` depth_block else_)
  | SWhile _ body => S (depth_block body)
  | SFor _ body => S (depth_block body)
  end
with depth_block (b : Block) : nat :=
  match b with
  | BNil => 0
  | BCons s b' => depth s `max` depth_block b'
  end.

(** The sequence at [a] belongs to the scope [ctx], and is a plain
    sequence unless it is the scope. *)
Definition seq_at (h : heap) (a ctx : addr) : Prop :=
  ∃ o, h !! a = Some o ∧ _ctx o = ctx ∧ (a ≠ ctx → cls o = Seq_cls).

(** [ctx] is a script scope with these argument and key names, whose
    loop counter is [n]. *)
Definition scope_at (h : heap) (ctx : addr) (n : nat) (argv keyv : list string) : Prop :=
  ∃ c f, h !! ctx = Some c ∧ _ctx c = ctx ∧ cls c = FnContext_cls f ∧
         _loops f = n ∧ map fst (_args f) = argv ∧ map fst (_keys f) = keyv.

(** From [h] to [h'] the sequence [self] of the scope [ctx] got the
    entries [nodes], whose child sequences are new; the entries of the
    scope are the same, and so are the other objects of [h]. *)
Definition extends (h h' : heap) (self ctx : addr) (nodes : list Compilable) : Prop :=
  length h ≤ length h' ∧
  (∀ a, a < length h → a ≠ self → a ≠ ctx → h' !! a = h !! a) ∧
  (∀ o, h !! self = Some o → ∃ o', h' !! self = Some o' ∧ _seq o' = _seq o ++ nodes) ∧
  (self ≠ ctx → ∀ c, h !! ctx = Some c → ∃ c', h' !! ctx = Some c' ∧ _seq c' = _seq c) ∧
  (∀ node r, node ∈ nodes → r ∈ children node → length h ≤ r < length h').

End Structured.

Section Calls.
Context {E : Extern}.
Abbreviation addr := nat.
Abbreviation heap := (list Object).

(** The method a call stands for raises. *)
Definition raises (c : Call) (h : heap) : Prop :=
  match c with
  | NewFnContext => ∃ e, (FnContext_init h).1 = Raise e
  | Add self term => ∃ e, (Sequence_add self term h).1 = Raise e
  | For_ self array => ∃ e, (Sequence_for_ self array h).1 = Raise e
  | If_ self condition => ∃ e, (Sequence_if_ self condition h).1 = Raise e
  | While_ self condition => ∃ e, (Sequence_while_ self condition h).1 = Raise e
  | AddArg self name => ∃ e, (FnContext_add_arg self name h).1 = Raise e
  | AddKey self name => ∃ e, (FnContext_add_key self name h).1 = Raise e
  | AddLocal self init => ∃ e, (FnContext_add_local self init h).1 = Raise e
  | SetReturnValue self value => ∃ e, (FnContext_set_return_value self value h).1 = Raise e
  | AddLoop self => ∃ e, (FnContext_add_loop self h).1 = Raise e
  | NewForLoop ctx array => ∃ e, (ForLoop_init ctx array h).1 = Raise e
  end.

(** The object a call is made on. *)
Definition receiver (c : Call) : option addr :=
  match c with
  | NewFnContext => None
  | Add self _ | For_ self _ | If_ self _ | While_ self _
  | AddArg self _ | AddKey self _ | AddLocal self _ | SetReturnValue self _
  | AddLoop self | NewForLoop self _ => Some self
  end.


(** The objects a call can change: its receiver, and for [for_] the
    scope of the receiver. *)
Definition touches (c : Call) (h : heap) : list addr :=
  match c with
  | NewFnContext => []
  | For_ self _ => [self; scope_of h self]
  | Add self _ | If_ self _ | While_ self _
  | AddArg self _ | AddKey self _ | AddLocal self _ | SetReturnValue self _
  | AddLoop self | NewForLoop self _ => [self]
  end.


End Calls.

(** ** More instances for examples *)

(** A structured program: a branch on [c] whose success sequence has a
    statement and a loop with one statement, then a second loop. *)
Definition example_body : @Block text_extern :=
  BCons (SIf (E := text_extern) (Some "c")
           (BCons (SExpr (E := text_extern) "x")
              (BCons (SFor (E := text_extern) "xs"
                        (BCons (SExpr (E := text_extern) "y") BNil)) BNil))
           BNil)
    (BCons (SFor (E := text_extern) "zs" BNil) BNil).

(** A branch whose success sequence is at address 1, and a program that
    makes such a branch with [if_] and then adds the branch to its own
    success sequence. *)
Definition own_branch : @Branch text_extern :=
  {| branch_condition := ("c" : @Expr text_extern); _success := 1; _failure := 2 |}.

Definition own_branch_program : list (@Call text_extern) :=
  [ NewFnContext; If_ (E := text_extern) 0 (Some "c");
    Add (E := text_extern) 1 (inl (IsBranch own_branch)) ].

(** Two scripts in one program: the first has a branch, the second a
    statement. *)
Definition two_scripts : list (@Call text_extern) :=
  [ NewFnContext; If_ (E := text_extern) 0 (Some "c"); NewFnContext;
    Add (E := text_extern) 3 (inr "y") ].

(** * The in-memory builtins of [gfun.py] *)

(** ** What the builtins take from the Python runtime

    A Python float is a binary64 number, a primitive [float] here.  The
    decimal text the interpreter prints for a float is a parameter. *)
Class PyRuntime : Type := {
  (** [repr(x)], which is also [str(x)] and [f"{x}"], of a float *)
  float_repr : PrimFloat.float → string;
}.

Section Builtins.
Context {R : PyRuntime}.

(** [JSONType]; a dictionary keeps its items in insertion order. *)
Inductive JSONType : Type :=
| JNone
| JBool (b : bool)
| JInt (n : Z)
| JFloat (x : PrimFloat.float)
| JStr (s : string)
| JList (l : list JSONType)
| JDict (d : list (string * JSONType)).

Record ArgcSpec : Type := { count : nat; at_most : option nat }.

(** [args[i]] *)
Definition getitem (args : list JSONType) (i : nat) : result JSONType :=
  match args !! i with
  | Some v => Ok v
  | None => Raise IndexError
  end.

(** ** Strings of the runtime

    A Python string is a [string]: one [ascii] stands for one character,
    which covers the characters up to code point 255. *)

Definition quote : ascii := ascii_of_nat 34.
Definition backslash : ascii := ascii_of_nat 92.

(** [sep.join(l)] *)
Fixpoint join (sep : string) (l : list string) : string :=
  match l with
  | [] => EmptyString
  | [x] => x
  | x :: l' => x +:+ sep +:+ join sep l'
  end.

Definition hex_digit (n : nat) : ascii :=
  ascii_of_nat (if n <? 10 then 48 + n else 87 + n).

Definition hex2 (n : nat) : string :=
  String (hex_digit (n / 16)) (String (hex_digit (n mod 16)) EmptyString).

Fixpoint contains (c : ascii) (s : string) : bool :=
  match s with
  | EmptyString => false
  | String c' s' => Ascii.eqb c c' || contains c s'
  end.

(** The characters [repr] leaves as they are. *)
Definition repr_plain (c : ascii) : bool :=
  let n := nat_of_ascii c in
  (32 <=? n) && (n <=? 126) || (161 <=? n) && negb (n =? 173).

(** What [repr] writes for one character between quotes [q]. *)
Definition repr_char (q c : ascii) : string :=
  let n := nat_of_ascii c in
  if Ascii.eqb c q || Ascii.eqb c backslash then String backslash (String c EmptyString)
  else if n =? 9 then String backslash "t"
  else if n =? 10 then String backslash "n"
  else if n =? 13 then String backslash "r"
  else if repr_plain c then String c EmptyString
  else String backslash ("x" +:+ hex2 n).

Fixpoint repr_chars (q : ascii) (s : string) : string :=
  match s with
  | EmptyString => EmptyString
  | String c s' => repr_char q c +:+ repr_chars q s'
  end.

(** [repr(s)] of a string: single quotes, unless the text has one and
    no double quote. *)
Definition str_repr (s : string) : string :=
  let q := if contains "'" s && negb (contains quote s) then quote else "'"%char in
  String q (repr_chars q s +:+ String q EmptyString).

(** [repr(v)] *)
Fixpoint py_repr (v : JSONType) : string :=
  match v with
  | JNone => "None"
  | JBool true => "True"
  | JBool false => "False"
  | JInt n => pretty n
  | JFloat x => float_repr x
  | JStr s => str_repr s
  | JList l => "[" +:+ join ", " (map py_repr l) +:+ "]"
  | JDict d =>
      "{" +:+ join ", " (map (λ '(k, x), str_repr k +:+ ": " +:+ py_repr x) d) +:+ "}"
  end.

(** [f"{v}"]: a string is itself, everything else is its [repr]. *)
Definition py_str (v : JSONType) : string :=
  match v with
  | JStr s => s
  | _ => py_repr v
  end.

(** *** [str.find]

    [occurs_at sub s i]: [sub] is the slice of [s] that starts at [i]. *)
Definition occurs_at (sub s : string) (i : nat) : Prop :=
  i + String.length sub ≤ String.length s ∧
  substring i (String.length sub) s = sub.

(** The start of a slice: [None] is the beginning, a negative offset
    counts from the end and stops at the beginning. *)
Definition slice_start (len : nat) (start : option Z) : nat :=
  match start with
  | None => 0
  | Some k =>
      if (k <? 0)%Z then Z.to_nat (Z.max 0 (Z.of_nat len + k)) else Z.to_nat k
  end.

(** [s.find(sub, start)] *)
Definition str_find (s sub : string) (start : option Z) : Z :=
  match String.index (slice_start (String.length s) start) sub s with
  | Some i => Z.of_nat i
  | None => (-1)%Z
  end.

(** *** Numeric literals

    The blanks [int] and [float] skip around a literal are the six ASCII
    ones and, above ASCII, the next-line and no-break-space characters. *)
Definition is_space (c : ascii) : bool :=
  let n := nat_of_ascii c in
  (9 <=? n) && (n <=? 13) || (n =? 32) || (n =? 133) || (n =? 160).

Definition digit_of (c : ascii) : option Z :=
  let n := nat_of_ascii c in
  if (48 <=? n) && (n <=? 57) then Some (Z.of_nat (n - 48)) else None.

Fixpoint lstrip (s : string) : string :=
  match s with
  | String c s' => if is_space c then lstrip s' else s
  | EmptyString => EmptyString
  end.

(** Only blanks are left. *)
Definition blank (s : string) : bool :=
  match lstrip s with
  | EmptyString => true
  | _ => false
  end.

(** Digits with single underscores between them, read after a first
    digit: the value, the number of digits and the text that follows. *)
Fixpoint digitpart_rest (acc : Z) (n : nat) (s : string) : Z * nat * string :=
  match s with
  | String c s' =>
      match digit_of c with
      | Some v => digitpart_rest (10 * acc + v) (S n) s'
      | None =>
          if Ascii.eqb c "_" then
            match s' with
            | String c' s'' =>
                match digit_of c' with
                | Some v => digitpart_rest (10 * acc + v) (S n) s''
                | None => (acc, n, s)
                end
            | EmptyString => (acc, n, s)
            end
          else (acc, n, s)
      end
  | EmptyString => (acc, n, s)
  end.

Definition digitpart (s : string) : option (Z * nat * string) :=
  match s with
  | String c s' =>
      match digit_of c with
      | Some v => Some (digitpart_rest v 1 s')
      | None => None
      end
  | EmptyString => None
  end.

(** **** [int(s)]

    Blanks, an optional sign, digits, blanks.  The interpreter's
    configurable limit on the number of digits is not part of the
    model. *)
Definition unsigned_int (s : string) : option Z :=
  match digitpart s with
  | Some (v, _, r) => if blank r then Some v else None
  | None => None
  end.

Definition parse_int (s : string) : option Z :=
  match lstrip s with
  | String "-" s' => Z.opp <$> unsigned_int s'
  | String "+" s' => unsigned_int s'
  | s' => unsigned_int s'
  end.

Definition int_of_str (s : string) : result Z :=
  match parse_int s with
  | Some n => Ok n
  | None => Raise (ValueError ("invalid literal for int() with base 10: " +:+ str_repr s))
  end.

(** **** [float(s)] *)

Definition lower (c : ascii) : ascii :=
  let n := nat_of_ascii c in
  if (65 <=? n) && (n <=? 90) then ascii_of_nat (n + 32) else c.

Fixpoint lowercase (s : string) : string :=
  match s with
  | EmptyString => EmptyString
  | String c s' => String (lower c) (lowercase s')
  end.

Fixpoint rstrip (s : string) : string :=
  match s with
  | EmptyString => EmptyString
  | String c s' =>
      match rstrip s' with
      | EmptyString => if is_space c then EmptyString else String c EmptyString
      | r => String c r
      end
  end.

(** The float nearest to [m * 10 ^ e] for [0 <= m], ties going to the
    even one: the quotient is taken with more than the 53 bits of a
    float and one more bit that records a remainder, then rounded
    once. *)
Definition float_of_decimal (negative : bool) (m e : Z) : PrimFloat.float :=
  if (m =? 0)%Z then (if negative then PrimFloat.neg_zero else PrimFloat.zero)
  else
    let p := (if 0 <=? e then m * 10 ^ e else m)%Z in
    let q := (if 0 <=? e then 1 else 10 ^ (- e))%Z in
    let k := Z.max 0 (Z.log2 q - Z.log2 p + 64) in
    let n := (Z.shiftl p k / q)%Z in
    let sticky := (if Z.shiftl p k mod q =? 0 then 0 else 1)%Z in
    let mant := (2 * n + sticky)%Z in
    FloatOps.SF2Prim
      (SpecFloat.binary_normalize FloatOps.prec FloatOps.emax
         (if negative then - mant else mant) (- (k + 1)) negative).

(** The exponent part, which may be absent: the exponent and the text
    that follows. *)
Definition exponent (s : string) : option (Z * string) :=
  match s with
  | String c s' =>
      if Ascii.eqb (lower c) "e" then
        match s' with
        | String "-" s'' =>
            match digitpart s'' with
            | Some (v, _, r) => Some ((- v)%Z, r)
            | None => None
            end
        | String "+" s'' =>
            match digitpart s'' with
            | Some (v, _, r) => Some (v, r)
            | None => None
            end
        | _ =>
            match digitpart s' with
            | Some (v, _, r) => Some (v, r)
            | None => None
            end
        end
      else Some (0%Z, s)
  | EmptyString => Some (0%Z, s)
  end.

(** A decimal number without its sign, as mantissa and power of ten, and
    the text that follows: digits with an optional fraction, or a
    fraction alone, then an optional exponent. *)
Definition decimal (s : string) : option (Z * Z * string) :=
  match s with
  | String "." s' =>
      match digitpart s' with
      | Some (f, fn, r) =>
          match exponent r with
          | Some (ex, r') => Some (f, (ex - Z.of_nat fn)%Z, r')
          | None => None
          end
      | None => None
      end
  | _ =>
      match digitpart s with
      | Some (i, _, r) =>
          let '(m, fn, r1) :=
            match r with
            | String "." r0 =>
                match digitpart r0 with
                | Some (f, fn, r1) => ((i * 10 ^ Z.of_nat fn + f)%Z, fn, r1)
                | None => (i, 0, r0)
                end
            | _ => (i, 0, r)
            end in
          match exponent r1 with
          | Some (ex, r') => Some (m, (ex - Z.of_nat fn)%Z, r')
          | None => None
          end
      | None => None
      end
  end.

Definition unsigned_float (negative : bool) (s : string) : option PrimFloat.float :=
  let w := lowercase (rstrip s) in
  if String.eqb w "inf" || String.eqb w "infinity" then
    Some (if negative then PrimFloat.neg_infinity else PrimFloat.infinity)
  else if String.eqb w "nan" then Some PrimFloat.nan
  else
    match decimal s with
    | Some (m, e, r) => if blank r then Some (float_of_decimal negative m e) else None
    | None => None
    end.

Definition parse_float (s : string) : option PrimFloat.float :=
  match lstrip s with
  | String "-" s' => unsigned_float true s'
  | String "+" s' => unsigned_float false s'
  | s' => unsigned_float false s'
  end.

Definition float_of_str (s : string) : result PrimFloat.float :=
  match parse_float s with
  | Some x => Ok x
  | None => Raise (ValueError ("could not convert string to float: " +:+ str_repr s))
  end.

(** *** Conversions between integers and floats *)

(** [int(x)] of a float cuts the fraction off; the infinities and
    not-a-number have no integer. *)
Definition int_of_float (x : PrimFloat.float) : result Z :=
  match FloatOps.Prim2SF x with
  | SpecFloat.S754_zero _ => Ok 0%Z
  | SpecFloat.S754_infinity _ => Raise OverflowError
  | SpecFloat.S754_nan => Raise (ValueError "cannot convert float NaN to integer")
  | SpecFloat.S754_finite s m e =>
      let magnitude := Z.shiftl (Z.pos m) e in
      Ok (if s then - magnitude else magnitude)%Z
  end.

(** [float(n)] of an integer is the nearest float; an integer beyond
    the floats has none. *)
Definition float_of_int (n : Z) : result PrimFloat.float :=
  match SpecFloat.binary_normalize FloatOps.prec FloatOps.emax n 0 false with
  | SpecFloat.S754_infinity _ => Raise OverflowError
  | x => Ok (FloatOps.SF2Prim x)
  end.

(** The two floats without an integer value that [int] reports as an
    overflow. *)
Definition infinite_float (v : JSONType) : Prop :=
  ∃ x s, v = JFloat x ∧ FloatOps.Prim2SF x = SpecFloat.S754_infinity s.

(** [int(v)] *)
Definition py_int (v : JSONType) : result Z :=
  match v with
  | JInt n => Ok n
  | JBool b => Ok (if b then 1 else 0)%Z
  | JStr s => int_of_str s
  | JFloat x => int_of_float x
  | JNone | JList _ | JDict _ => Raise TypeError
  end.

(** [float(v)] *)
Definition py_float (v : JSONType) : result PrimFloat.float :=
  match v with
  | JFloat x => Ok x
  | JInt n => float_of_int n
  | JBool b => float_of_int (if b then 1 else 0)
  | JStr s => float_of_str s
  | JNone | JList _ | JDict _ => Raise TypeError
  end.

(** *** [json.dumps] without indentation *)

(** The text of a float: its [repr], or the name of a special value. *)
Definition float_json (x : PrimFloat.float) : string :=
  match FloatOps.Prim2SF x with
  | SpecFloat.S754_nan => "NaN"
  | SpecFloat.S754_infinity false => "Infinity"
  | SpecFloat.S754_infinity true => "-Infinity"
  | _ => float_repr x
  end.

(** What [json.dumps] writes for one character of a string (with
    [ensure_ascii], the default).  The characters of a text are the
    code points below 256, and this is what is written for them: the
    short escapes, the character itself from the space to the tilde, and
    [\u00XX] for the others. *)
Definition escape_char (c : ascii) : string :=
  let n := nat_of_ascii c in
  if n =? 34 then String backslash (String quote EmptyString)
  else if n =? 92 then String backslash (String backslash EmptyString)
  else if n =? 8 then String backslash "b"
  else if n =? 12 then String backslash "f"
  else if n =? 10 then String backslash "n"
  else if n =? 13 then String backslash "r"
  else if n =? 9 then String backslash "t"
  else if (32 <=? n) && (n <=? 126) then String c EmptyString
  else String backslash ("u00" +:+ hex2 n).

Fixpoint escape (s : string) : string :=
  match s with
  | EmptyString => EmptyString
  | String c s' => escape_char c +:+ escape s'
  end.

Definition encode_basestring_ascii (s : string) : string :=
  String quote (escape s +:+ String quote EmptyString).

Definition key_le (x y : string * string) : Prop := String.leb x.1 y.1 = true.

Instance key_le_dec : RelDecision key_le.
Proof. intros x y. unfold key_le. apply _. Defined.

(** [json.dumps(v, sort_keys=..., indent=None, separators=...)]; the
    items of a dictionary are written first and ordered afterwards. *)
Fixpoint json_dumps (v : JSONType) (sort_keys : bool) (separators : string * string)
    : string :=
  match v with
  | JNone => "null"
  | JBool true => "true"
  | JBool false => "false"
  | JInt n => pretty n
  | JFloat x => float_json x
  | JStr s => encode_basestring_ascii s
  | JList l =>
      "[" +:+ join separators.1 (map (λ x, json_dumps x sort_keys separators) l) +:+ "]"
  | JDict d =>
      let items := map (λ '(k, x), (k, json_dumps x sort_keys separators)) d in
      let items := if sort_keys then merge_sort key_le items else items in
      "{" +:+ join separators.1
                (map (λ '(k, t), encode_basestring_ascii k +:+ separators.2 +:+ t) items)
          +:+ "}"
  end.

(** *** Properties of a text *)

Fixpoint all_chars (p : ascii → bool) (s : string) : bool :=
  match s with
  | EmptyString => true
  | String c s' => p c && all_chars p s'
  end.

Fixpoint count_char (c : ascii) (s : string) : nat :=
  match s with
  | EmptyString => 0
  | String c' s' => (if Ascii.eqb c c' then 1 else 0) + count_char c s'
  end.

(** The visible ASCII characters and the space: no control character,
    so no newline and no tabulation. *)
Definition printable (c : ascii) : bool :=
  let n := nat_of_ascii c in (32 <=? n) && (n <=? 126).

(** ** [GStringFindFn] *)

Definition GStringFindFn_name : string := "string.find".

Definition GStringFindFn_argc : ArgcSpec := {| count := 2; at_most := Some 3 |}.

Definition GStringFindFn_call (args : list JSONType) : result JSONType :=
  let* a0 := getitem args 0 in
  let* a1 := getitem args 1 in
  let* start :=
    (if 2 <? length args then
       let* a2 := getitem args 2 in
       let* k := py_int a2 in
       Ok (Some k)
     else Ok None) in
  let found_ix := str_find (py_str a0) (py_str a1) start in
  Ok (if (found_ix <? 0)%Z then JNone else JInt found_ix).

(** ** [GCJSONEncodeFn] *)

Definition GCJSONEncodeFn_name : string := "cjson.encode".

Definition GCJSONEncodeFn_argc : ArgcSpec := {| count := 1; at_most := None |}.

Definition GCJSONEncodeFn_call (args : list JSONType) : result JSONType :=
  let* a0 := getitem args 0 in
  Ok (JStr (json_dumps (JStr (py_str a0)) true (",", ":"))).

(** ** [GToNumberFn] *)

Definition GToNumberFn_name : string := "tonumber".

Definition GToNumberFn_argc : ArgcSpec := {| count := 1; at_most := None |}.

Definition GToNumberFn_call (args : list JSONType) : result JSONType :=
  let* val := getitem args 0 in
  match py_int val with
  | Ok n => Ok (JInt n)
  | Raise (ValueError _) | Raise TypeError =>
      let* x := py_float val in
      Ok (JFloat x)
  | Raise e => Raise e
  end.

End Builtins.

(** * More of the builtins *)

(** The classes of the values of [JSONType]. *)
Inductive PyType : Type :=
| bool_type | dict_type | float_type | int_type | list_type | str_type | NoneType.

#[global] Instance PyType_eq_dec : EqDecision PyType.
Proof. solve_decision. Defined.

#[global] Instance PyType_finite : Finite PyType.
Proof.
  refine {| enum := [bool_type; dict_type; float_type; int_type; list_type;
                     str_type; NoneType] |}.
  - by apply (bool_decide_unpack _).
  - intros []; set_solver.
Defined.

(** What a call of [type] does: beside the exceptions of the other
    builtins, the subscription of a dictionary raises [KeyError] for a
    key that is not there. *)
Inductive outcome : Type :=
| Returns (v : JSONType)
| Raises (e : exn)
| RaisesKeyError.

Section MoreBuiltins.
Context {R : PyRuntime}.

(** [c.lower()] of a character up to code point 255: the ASCII capitals
    and the accented capitals, which are the letters from 192 to 222
    without the multiplication sign. *)
Definition lower_char (c : ascii) : ascii :=
  let n := nat_of_ascii c in
  if (65 <=? n) && (n <=? 90) || (192 <=? n) && (n <=? 222) && negb (n =? 215)
  then ascii_of_nat (n + 32) else c.

(** [s.lower()] *)
Fixpoint str_lower (s : string) : string :=
  match s with
  | EmptyString => EmptyString
  | String c s' => String (lower_char c) (str_lower s')
  end.

(** ** [GToStringFn] *)

Definition GToStringFn_name : string := "tostring".

Definition GToStringFn_argc : ArgcSpec := {| count := 1; at_most := None |}.

Definition GToStringFn_call (args : list JSONType) : result JSONType :=
  let* oval := getitem args 0 in
  match oval with
  | JBool _ => Ok (JStr (str_lower (py_str oval)))
  | JNone => Ok (JStr "nil")
  | _ => Ok (JStr (py_str oval))
  end.

(** ** [GTypeFn] *)

(** [type(v)] *)
Definition type_of (v : JSONType) : PyType :=
  match v with
  | JNone => NoneType
  | JBool _ => bool_type
  | JInt _ => int_type
  | JFloat _ => float_type
  | JStr _ => str_type
  | JList _ => list_type
  | JDict _ => dict_type
  end.

(** A dictionary display: the items are stored one after the other, a
    later one replacing an earlier one of the same key. *)
Definition dict_display (items : list (PyType * string)) : gmap PyType string :=
  foldl (λ d item, <[item.1 := item.2]> d) ∅ items.

Definition tmap : gmap PyType string :=
  dict_display
    [ (bool_type, "boolean"); (dict_type, "table"); (float_type, "number");
      (int_type, "number"); (list_type, "table"); (str_type, "string");
      (NoneType, "nil") ].

Definition GTypeFn_name : string := "type".

Definition GTypeFn_argc : ArgcSpec := {| count := 1; at_most := None |}.

Definition GTypeFn_call (args : list JSONType) : outcome :=
  match getitem args 0 with
  | Ok v =>
      match tmap !! type_of v with
      | Some name => Returns (JStr name)
      | None => RaisesKeyError
      end
  | Raise e => Raises e
  end.

(** ** [GRedisLogFn]

    [print] writes its text and a newline at the end of the standard
    output, which the call takes and gives back. *)

Definition newline : string := String (ascii_of_nat 10) EmptyString.

Definition GRedisLogFn_name : string := "redis.log".

Definition GRedisLogFn_argc : ArgcSpec := {| count := 2; at_most := None |}.

Definition GRedisLogFn_call (args : list JSONType) (stdout : string)
    : result JSONType * string :=
  match (let* a0 := getitem args 0 in
         let* a1 := getitem args 1 in
         Ok (py_str a0 +:+ ": " +:+ py_str a1)) with
  | Ok text => (Ok JNone, stdout +:+ text +:+ newline)
  | Raise e => (Raise e, stdout)
  end.

End MoreBuiltins.


(** * Proofs about the builder *)

Section SymbolicFacts.
Context {E : Extern}.
Abbreviation addr := nat.
Abbreviation heap := (list Object).

(** ** Basic facts about the effect layers *)

Lemma bind_Ok {A B} (c : M A) (k : A → M B) h a h' :
  c h = (Ok a, h') → bind c k h = k a h'.
Proof. intros Hc. unfold bind. by rewrite Hc. Qed.

Lemma bind_Raise {A B} (c : M A) (k : A → M B) h e h' :
  c h = (Raise e, h') → bind c k h = (Raise e, h').
Proof. intros Hc. unfold bind. by rewrite Hc. Qed.

Lemma deref_Some h a o : h !! a = Some o → deref h a = Ok o.
Proof. intros Ha. unfold deref. by rewrite Ha. Qed.

Lemma load_Some h a o : h !! a = Some o → load a h = (Ok o, h).
Proof. intros Ha. unfold load. by rewrite (deref_Some _ _ _ Ha). Qed.

Lemma seq_append_Some h a o c :
  h !! a = Some o →
  seq_append a c h = (Ok tt, <[a := set_seq o (_seq o ++ [c])]> h).
Proof. intros Ha. unfold seq_append. by rewrite (bind_Ok _ _ _ _ _ (load_Some _ _ _ Ha)). Qed.

Lemma Sequence_add_Some h a o t :
  h !! a = Some o →
  Sequence_add a t h = (Ok tt, <[a := set_seq o (_seq o ++ [entry_of t])]> h).
Proof. intros Ha. destruct t; simpl; by apply seq_append_Some. Qed.

Lemma lookup_insert_self (h : heap) a (o o' : Object) :
  h !! a = Some o → <[a := o']> h !! a = Some o'.
Proof. intros Ha. apply list_lookup_insert_eq. by eapply lookup_lt_Some. Qed.

Lemma add_all_Some h a o ts :
  h !! a = Some o →
  add_all a ts h = (Ok tt, <[a := set_seq o (_seq o ++ map entry_of ts)]> h).
Proof.
  revert h o. induction ts as [|t ts IH]; intros h o Ha; simpl.
  - unfold ret. rewrite app_nil_r. destruct o. unfold set_seq; simpl.
    by rewrite list_insert_id.
  - rewrite (bind_Ok _ _ _ _ _ (Sequence_add_Some _ _ _ t Ha)).
    rewrite (IH _ _ (lookup_insert_self _ _ _ _ Ha)).
    simpl. rewrite list_insert_insert_eq. by rewrite <- app_assoc.
Qed.

Lemma comprehension_Forall2 {A B} (f : A → result B) l ys :
  comprehension f l = Ok ys ↔ Forall2 (λ x y, f x = Ok y) l ys.
Proof.
  revert ys. induction l as [|x l IH]; intros ys; simpl.
  - split; [intros [= <-]; constructor | by inversion 1].
  - split.
    + destruct (f x) as [y|] eqn:Hx; simpl; [|done].
      destruct (comprehension f l) as [ys'|] eqn:Hl; simpl; [|done].
      intros [= <-]. constructor; [done | by apply IH].
    + inversion 1 as [|? y ? ys' Hx Hl]; subst. rewrite Hx. simpl.
      apply IH in Hl. by rewrite Hl.
Qed.

Lemma comprehension_app {A B} (f : A → result B) l1 l2 ys1 ys2 :
  comprehension f l1 = Ok ys1 → comprehension f l2 = Ok ys2 →
  comprehension f (l1 ++ l2) = Ok (ys1 ++ ys2).
Proof.
  rewrite !comprehension_Forall2. apply Forall2_app.
Qed.

Lemma comprehension_ext {A B} (f g : A → result B) l :
  (∀ x, x ∈ l → f x = g x) → comprehension f l = comprehension g l.
Proof.
  induction l as [|x l IH]; intros Hfg; simpl; [done|].
  rewrite (Hfg x) by left. rewrite IH; [done|].
  intros y Hy. apply Hfg. by right.
Qed.

Lemma get_cmds_Some d h a o :
  h !! a = Some o →
  get_cmds d h a = comprehension (Compilable_compile d h) (_seq o).
Proof. intros Ha. unfold get_cmds, get_cmds_with. by rewrite (deref_Some _ _ _ Ha). Qed.

(** ** Declaring arguments and keys *)

Lemma fields_Some h a o f :
  h !! a = Some o → cls o = FnContext_cls f → fields a h = (Ok f, h).
Proof.
  intros Ha Hc. unfold fields.
  rewrite (bind_Ok _ _ _ _ _ (load_Some _ _ _ Ha)). by rewrite Hc.
Qed.

Lemma update_fields_Some h a o f upd :
  h !! a = Some o → cls o = FnContext_cls f →
  update_fields a upd h = (Ok tt, <[a := set_cls o (FnContext_cls (upd f))]> h).
Proof.
  intros Ha Hc. unfold update_fields.
  rewrite (bind_Ok _ _ _ _ _ (load_Some _ _ _ Ha)). by rewrite Hc.
Qed.

Lemma add_arg_fresh h self o f name :
  h !! self = Some o → cls o = FnContext_cls f → name ∉ _anames f →
  let arg := {| arg_name := name; arg_index := length (_args f) |} in
  FnContext_add_arg self name h =
    (Ok arg,
     <[self := {| _ctx := _ctx o;
                  _seq := _seq o ++ [CmdHelper (JSONArg_get_declare arg)];
                  cls := FnContext_cls (anames_add name (args_append (name, arg) f)) |}]> h).
Proof.
  intros Ha Hc Hfresh arg. unfold FnContext_add_arg.
  rewrite (bind_Ok _ _ _ _ _ (fields_Some _ _ _ _ Ha Hc)).
  rewrite decide_False by done.
  pose proof (lookup_insert_self h self o) as Hins.
  erewrite bind_Ok by (eapply update_fields_Some; [exact Ha | exact Hc]).
  erewrite bind_Ok by
    (eapply update_fields_Some; [by apply Hins | reflexivity]).
  rewrite list_insert_insert_eq.
  erewrite bind_Ok by (eapply Sequence_add_Some; by apply Hins).
  rewrite list_insert_insert_eq. done.
Qed.

Lemma add_arg_taken h self o f name :
  h !! self = Some o → cls o = FnContext_cls f → name ∈ _anames f →
  FnContext_add_arg self name h =
    (Raise (ValueError ("ambiguous arg name: " +:+ name)), h).
Proof.
  intros Ha Hc Hin. unfold FnContext_add_arg.
  rewrite (bind_Ok _ _ _ _ _ (fields_Some _ _ _ _ Ha Hc)).
  by rewrite decide_True by done.
Qed.

Lemma add_key_fresh h self o f name :
  h !! self = Some o → cls o = FnContext_cls f → name ∉ _knames f →
  let key := {| key_name := name; key_index := length (_keys f) |} in
  FnContext_add_key self name h =
    (Ok key,
     <[self := {| _ctx := _ctx o;
                  _seq := _seq o ++ [CmdHelper (KeyVariable_get_declare key)];
                  cls := FnContext_cls (knames_add name (keys_append (name, key) f)) |}]> h).
Proof.
  intros Ha Hc Hfresh key. unfold FnContext_add_key.
  rewrite (bind_Ok _ _ _ _ _ (fields_Some _ _ _ _ Ha Hc)).
  rewrite decide_False by done.
  pose proof (lookup_insert_self h self o) as Hins.
  erewrite bind_Ok by (eapply update_fields_Some; [exact Ha | exact Hc]).
  erewrite bind_Ok by
    (eapply update_fields_Some; [by apply Hins | reflexivity]).
  rewrite list_insert_insert_eq.
  erewrite bind_Ok by (eapply Sequence_add_Some; by apply Hins).
  rewrite list_insert_insert_eq. done.
Qed.

Lemma add_key_taken h self o f name :
  h !! self = Some o → cls o = FnContext_cls f → name ∈ _knames f →
  FnContext_add_key self name h =
    (Raise (ValueError ("ambiguous key name: " +:+ name)), h).
Proof.
  intros Ha Hc Hin. unfold FnContext_add_key.
  rewrite (bind_Ok _ _ _ _ _ (fields_Some _ _ _ _ Ha Hc)).
  by rewrite decide_True by done.
Qed.

Lemma scope_inv_init : scope_inv FnContext_fields0.
Proof. repeat split; intros; simpl in *; done. Qed.

Lemma scope_inv_anames f name :
  scope_inv f → name ∈ _anames f ↔ name ∈ map fst (_args f).
Proof. intros (-> & _). by rewrite elem_of_list_to_set. Qed.

Lemma scope_inv_knames f name :
  scope_inv f → name ∈ _knames f ↔ name ∈ map fst (_keys f).
Proof. intros (_ & -> & _). by rewrite elem_of_list_to_set. Qed.

Lemma lookup_snoc_inv {A} (l : list A) (x y : A) i :
  (l ++ [x]) !! i = Some y → l !! i = Some y ∨ (i = length l ∧ y = x).
Proof.
  intros Hi. destruct (decide (i < length l)) as [Hlt|Hge].
  - left. by rewrite lookup_app_l in Hi.
  - rewrite lookup_app_r in Hi by lia.
    destruct (i - length l) as [|k] eqn:Hk; simpl in Hi; [|done].
    right. split; [lia | congruence].
Qed.

Lemma scope_inv_add_arg f name :
  scope_inv f →
  scope_inv (anames_add name
    (args_append (name, {| arg_name := name; arg_index := length (_args f) |}) f)).
Proof.
  intros (Ha & Hk & Hai & Hki). repeat split; simpl; [|done| |done].
  - rewrite Ha, map_app, list_to_set_app_L. simpl. set_solver.
  - intros i n a [Hi|[-> Hi]]%lookup_snoc_inv; [by apply Hai | congruence].
Qed.

Lemma scope_inv_add_key f name :
  scope_inv f →
  scope_inv (knames_add name
    (keys_append (name, {| key_name := name; key_index := length (_keys f) |}) f)).
Proof.
  intros (Ha & Hk & Hai & Hki). repeat split; simpl; [done| |done|].
  - rewrite Hk, map_app, list_to_set_app_L. simpl. set_solver.
  - intros i n a [Hi|[-> Hi]]%lookup_snoc_inv; [by apply Hki | congruence].
Qed.

Lemma add_args_fresh names : ∀ h self o f,
  h !! self = Some o → cls o = FnContext_cls f → scope_inv f →
  NoDup names → (∀ n, n ∈ names → n ∉ map fst (_args f)) →
  ∃ h' o' f',
    add_args self names h =
      (Ok (zip_with (λ n i, {| arg_name := n; arg_index := i |}) names
             (seq (length (_args f)) (length names))), h') ∧
    h' !! self = Some o' ∧ cls o' = FnContext_cls f' ∧ scope_inv f' ∧
    _keys f' = _keys f ∧ map fst (_args f') = map fst (_args f) ++ names.
Proof.
  induction names as [|n ns IH]; intros h self o f Ha Hc Hinv Hnd Hfresh.
  - exists h, o, f. simpl. rewrite app_nil_r. done.
  - apply NoDup_cons in Hnd as [Hn Hnd].
    assert (n ∉ _anames f) as Hn'.
    { rewrite scope_inv_anames by done. apply Hfresh. by left. }
    pose proof (add_arg_fresh h self o f n Ha Hc Hn') as Hadd. simpl in Hadd.
    set (arg := {| arg_name := n; arg_index := length (_args f) |}) in *.
    set (f1 := anames_add n (args_append (n, arg) f)) in *.
    set (o1 := {| _ctx := _ctx o;
                  _seq := _seq o ++ [CmdHelper (JSONArg_get_declare arg)];
                  cls := FnContext_cls f1 |}) in *.
    destruct (IH (<[self := o1]> h) self o1 f1)
      as (h' & o' & f' & Hrun & Ha' & Hc' & Hinv' & Hk' & Hnames);
      [by eapply lookup_insert_self | done | by apply scope_inv_add_arg | done | |].
    { intros m Hm. simpl. rewrite map_app, elem_of_app. simpl.
      intros [Hin|Hin%list_elem_of_singleton].
      - by apply (Hfresh m); [right|].
      - congruence. }
    exists h', o', f'. split; [|split; [done|split; [done|split; [done|split]]]].
    + cbn [add_args]. rewrite (bind_Ok _ _ _ _ _ Hadd).
      rewrite (bind_Ok _ _ _ _ _ Hrun). unfold ret, f1. simpl.
      rewrite length_app. simpl. by rewrite Nat.add_1_r.
    + by rewrite Hk'.
    + rewrite Hnames. simpl. rewrite map_app. simpl. by rewrite <- app_assoc.
Qed.

Lemma add_keys_fresh names : ∀ h self o f,
  h !! self = Some o → cls o = FnContext_cls f → scope_inv f →
  NoDup names → (∀ n, n ∈ names → n ∉ map fst (_keys f)) →
  ∃ h' o' f',
    add_keys self names h =
      (Ok (zip_with (λ n i, {| key_name := n; key_index := i |}) names
             (seq (length (_keys f)) (length names))), h') ∧
    h' !! self = Some o' ∧ cls o' = FnContext_cls f' ∧ scope_inv f' ∧
    _args f' = _args f ∧ map fst (_keys f') = map fst (_keys f) ++ names.
Proof.
  induction names as [|n ns IH]; intros h self o f Ha Hc Hinv Hnd Hfresh.
  - exists h, o, f. simpl. rewrite app_nil_r. done.
  - apply NoDup_cons in Hnd as [Hn Hnd].
    assert (n ∉ _knames f) as Hn'.
    { rewrite scope_inv_knames by done. apply Hfresh. by left. }
    pose proof (add_key_fresh h self o f n Ha Hc Hn') as Hadd. simpl in Hadd.
    set (key := {| key_name := n; key_index := length (_keys f) |}) in *.
    set (f1 := knames_add n (keys_append (n, key) f)) in *.
    set (o1 := {| _ctx := _ctx o;
                  _seq := _seq o ++ [CmdHelper (KeyVariable_get_declare key)];
                  cls := FnContext_cls f1 |}) in *.
    destruct (IH (<[self := o1]> h) self o1 f1)
      as (h' & o' & f' & Hrun & Ha' & Hc' & Hinv' & Hk' & Hnames);
      [by eapply lookup_insert_self | done | by apply scope_inv_add_key | done | |].
    { intros m Hm. simpl. rewrite map_app, elem_of_app. simpl.
      intros [Hin|Hin%list_elem_of_singleton].
      - by apply (Hfresh m); [right|].
      - congruence. }
    exists h', o', f'. split; [|split; [done|split; [done|split; [done|split]]]].
    + cbn [add_keys]. rewrite (bind_Ok _ _ _ _ _ Hadd).
      rewrite (bind_Ok _ _ _ _ _ Hrun). unfold ret, f1. simpl.
      rewrite length_app. simpl. by rewrite Nat.add_1_r.
    + by rewrite Hk'.
    + rewrite Hnames. simpl. rewrite map_app. simpl. by rewrite <- app_assoc.
Qed.

(** C2. In a script scope whose declared names are the registered ones
    ([scope_inv], which holds for a new scope and after every
    declaration): [add_arg] with a name that is already an argument
    raises the naming-conflict [ValueError]; with a new name it returns
    the argument of that name whose index is the number of arguments
    declared so far, registers it and appends its declare command to the
    scope's own sequence, leaving the keys alone.  The same holds for
    [add_key] and the keys.  Declaring distinct new names one after the
    other therefore numbers them consecutively, from 0 in a new scope,
    in each namespace on its own, and a name that is new in both
    namespaces can be declared as an argument and then as a key. *)
Theorem add_arg_add_key_indices (h : heap) (self : addr) (o : Object)
    (f : FnFields) (name : string) :
  h !! self = Some o → cls o = FnContext_cls f → scope_inv f →
  (name ∈ map fst (_args f) →
     FnContext_add_arg self name h =
       (Raise (ValueError ("ambiguous arg name: " +:+ name)), h)) ∧
  (name ∉ map fst (_args f) →
     let arg := {| arg_name := name; arg_index := length (_args f) |} in
     let f' := anames_add name (args_append (name, arg) f) in
     FnContext_add_arg self name h =
       (Ok arg,
        <[self := {| _ctx := _ctx o;
                     _seq := _seq o ++ [CmdHelper (JSONArg_get_declare arg)];
                     cls := FnContext_cls f' |}]> h) ∧
     _args f' = _args f ++ [(name, arg)] ∧ _keys f' = _keys f ∧
     _knames f' = _knames f ∧ scope_inv f') ∧
  (name ∈ map fst (_keys f) →
     FnContext_add_key self name h =
       (Raise (ValueError ("ambiguous key name: " +:+ name)), h)) ∧
  (name ∉ map fst (_keys f) →
     let key := {| key_name := name; key_index := length (_keys f) |} in
     let f' := knames_add name (keys_append (name, key) f) in
     FnContext_add_key self name h =
       (Ok key,
        <[self := {| _ctx := _ctx o;
                     _seq := _seq o ++ [CmdHelper (KeyVariable_get_declare key)];
                     cls := FnContext_cls f' |}]> h) ∧
     _keys f' = _keys f ++ [(name, key)] ∧ _args f' = _args f ∧
     _anames f' = _anames f ∧ scope_inv f') ∧
  (∀ names, NoDup names → (∀ n, n ∈ names → n ∉ map fst (_args f)) →
     ∃ h', add_args self names h =
       (Ok (zip_with (λ n i, {| arg_name := n; arg_index := i |}) names
              (seq (length (_args f)) (length names))), h')) ∧
  (∀ names, NoDup names → (∀ n, n ∈ names → n ∉ map fst (_keys f)) →
     ∃ h', add_keys self names h =
       (Ok (zip_with (λ n i, {| key_name := n; key_index := i |}) names
              (seq (length (_keys f)) (length names))), h')) ∧
  (name ∉ map fst (_args f) → name ∉ map fst (_keys f) →
     ∃ h', (do a <~ FnContext_add_arg self name;
            do k <~ FnContext_add_key self name;
            ret (a, k)) h =
       (Ok ({| arg_name := name; arg_index := length (_args f) |},
            {| key_name := name; key_index := length (_keys f) |}), h')).
Proof.
  intros Ha Hc Hinv.
  split; [|split; [|split; [|split; [|split; [|split]]]]].
  - intros Hin. apply (add_arg_taken _ _ _ _ _ Ha Hc).
    by apply scope_inv_anames.
  - intros Hnew arg f'. split; [|split; [done|split; [done|split; [done|]]]].
    + apply (add_arg_fresh _ _ _ _ _ Ha Hc). by rewrite scope_inv_anames.
    + by apply scope_inv_add_arg.
  - intros Hin. apply (add_key_taken _ _ _ _ _ Ha Hc).
    by apply scope_inv_knames.
  - intros Hnew key f'. split; [|split; [done|split; [done|split; [done|]]]].
    + apply (add_key_fresh _ _ _ _ _ Ha Hc). by rewrite scope_inv_knames.
    + by apply scope_inv_add_key.
  - intros names Hnd Hnew.
    destruct (add_args_fresh names h self o f Ha Hc Hinv Hnd Hnew)
      as (h' & _ & _ & Hrun & _). by exists h'.
  - intros names Hnd Hnew.
    destruct (add_keys_fresh names h self o f Ha Hc Hinv Hnd Hnew)
      as (h' & _ & _ & Hrun & _). by exists h'.
  - intros Hna Hnk. eexists.
    erewrite bind_Ok; last first.
    { apply (add_arg_fresh _ _ _ _ _ Ha Hc). by rewrite scope_inv_anames. }
    erewrite bind_Ok; last first.
    { eapply add_key_fresh; [by eapply lookup_insert_self|reflexivity|].
      simpl. by rewrite scope_inv_knames. }
    reflexivity.
Qed.

(** C10. A declaration that fails changes nothing: whenever [add_arg]
    or [add_key] raises, the heap it leaves is the heap it was given, so
    the registrations, the declared names and every sequence are as
    before.  With a name that is already declared in the namespace the
    call does raise the naming-conflict [ValueError], and a declaration
    made after the failed call was caught behaves exactly as it would
    have without it, hence returns the same index. *)
Theorem failed_declaration_changes_nothing (h : heap) (self : addr) (name : string) :
  (∀ e h', FnContext_add_arg self name h = (Raise e, h') → h' = h) ∧
  (∀ e h', FnContext_add_key self name h = (Raise e, h') → h' = h) ∧
  (∀ o f, h !! self = Some o → cls o = FnContext_cls f → scope_inv f →
     (name ∈ map fst (_args f) →
        FnContext_add_arg self name h =
          (Raise (ValueError ("ambiguous arg name: " +:+ name)), h) ∧
        ∀ name',
          (do _ <~ attempt (FnContext_add_arg self name);
           FnContext_add_arg self name') h = FnContext_add_arg self name' h) ∧
     (name ∈ map fst (_keys f) →
        FnContext_add_key self name h =
          (Raise (ValueError ("ambiguous key name: " +:+ name)), h) ∧
        ∀ name',
          (do _ <~ attempt (FnContext_add_key self name);
           FnContext_add_key self name') h = FnContext_add_key self name' h)).
Proof.
  split; [|split].
  - intros e h'. unfold FnContext_add_arg, fields, bind at 1 2, load, deref.
    destruct (h !! self) as [o|] eqn:Ha; [|by intros [= _ <-]].
    destruct (cls o) as [| |f] eqn:Hc; try by intros [= _ <-].
    unfold ret at 1. destruct (decide (name ∈ _anames f)); [by intros [= _ <-]|].
    pose proof (lookup_insert_self h self o) as Hins.
    erewrite bind_Ok by (eapply update_fields_Some; [exact Ha | exact Hc]).
    erewrite bind_Ok by
      (eapply update_fields_Some; [by apply Hins | reflexivity]).
    rewrite list_insert_insert_eq.
    erewrite bind_Ok by (eapply Sequence_add_Some; by apply Hins).
    done.
  - intros e h'. unfold FnContext_add_key, fields, bind at 1 2, load, deref.
    destruct (h !! self) as [o|] eqn:Ha; [|by intros [= _ <-]].
    destruct (cls o) as [| |f] eqn:Hc; try by intros [= _ <-].
    unfold ret at 1. destruct (decide (name ∈ _knames f)); [by intros [= _ <-]|].
    pose proof (lookup_insert_self h self o) as Hins.
    erewrite bind_Ok by (eapply update_fields_Some; [exact Ha | exact Hc]).
    erewrite bind_Ok by
      (eapply update_fields_Some; [by apply Hins | reflexivity]).
    rewrite list_insert_insert_eq.
    erewrite bind_Ok by (eapply Sequence_add_Some; by apply Hins).
    done.
  - intros o f Ha Hc Hinv. split.
    + intros Hin.
      assert (FnContext_add_arg self name h =
                (Raise (ValueError ("ambiguous arg name: " +:+ name)), h)) as Hfail.
      { apply (add_arg_taken _ _ _ _ _ Ha Hc). by apply scope_inv_anames. }
      split; [done|]. intros name'.
      unfold bind at 1, attempt. by rewrite Hfail.
    + intros Hin.
      assert (FnContext_add_key self name h =
                (Raise (ValueError ("ambiguous key name: " +:+ name)), h)) as Hfail.
      { apply (add_key_taken _ _ _ _ _ Ha Hc). by apply scope_inv_knames. }
      split; [done|]. intros name'.
      unfold bind at 1, attempt. by rewrite Hfail.
Qed.

(** ** Sequences compile entry by entry, in insertion order *)

(** C1. A sequence without entries has the empty statement list at every
    depth, and compiles to a ["seq"] node (a ["script"] node for the
    script scope) with no commands.  After [add] has been called with the terms [ts], in this
    order, on a sequence that was empty, [get_cmds] returns a list
    [cmds] exactly when [cmds] has one node per term, in the order of
    the calls: the node of a compilable term is what its own [compile]
    returns at that time, and the node of a bare expression [e] is the
    ["stmt"] node around [e.compile()].  In particular [cmds] has as many
    nodes as there were calls.  [compile] of the sequence then returns
    exactly the ["seq"] node (for the script scope the ["script"] node,
    with its argument and key names) around such a list: one node per
    call, in the order of the calls; and after calls with the bare
    expressions [es] alone both do return, [compile] the node around
    the ["stmt"] nodes of [es] in this order. *)
Theorem get_cmds_insertion_order (h : heap) (self : addr) (o : Object)
    (ts : list (Compilable + Expr)) (d : nat) :
  h !! self = Some o →
  _seq o = [] →
  get_cmds d h self = Ok [] ∧
  (cls o = Seq_cls → Sequence_compile d h self = Ok (SeqObj [])) ∧
  (∀ f, cls o = FnContext_cls f →
     Sequence_compile d h self =
       Ok (ScriptObj [] (map fst (_args f)) (map fst (_keys f)))) ∧
  ∃ h', add_all self ts h = (Ok tt, h') ∧
    (∀ cmds,
       get_cmds (S d) h' self = Ok cmds ↔
       Forall2 (λ t cmd,
                  match t with
                  | inl c => Compilable_compile (S d) h' c = Ok cmd
                  | inr e => cmd = StmtObj (Expr_compile e)
                  end) ts cmds) ∧
    (∀ cmds, get_cmds (S d) h' self = Ok cmds → length cmds = length ts) ∧
    (cls o = Seq_cls → ∀ r,
       Sequence_compile (S d) h' self = Ok r ↔
       ∃ cmds, r = SeqObj cmds ∧ length cmds = length ts ∧
         Forall2 (λ t cmd,
                    match t with
                    | inl c => Compilable_compile (S d) h' c = Ok cmd
                    | inr e => cmd = StmtObj (Expr_compile e)
                    end) ts cmds) ∧
    (∀ f, cls o = FnContext_cls f → ∀ r,
       Sequence_compile (S d) h' self = Ok r ↔
       ∃ cmds, r = ScriptObj cmds (map fst (_args f)) (map fst (_keys f)) ∧
         length cmds = length ts ∧
         Forall2 (λ t cmd,
                    match t with
                    | inl c => Compilable_compile (S d) h' c = Ok cmd
                    | inr e => cmd = StmtObj (Expr_compile e)
                    end) ts cmds) ∧
    (∀ es, ts = map inr es →
       get_cmds (S d) h' self = Ok (map (λ e, StmtObj (Expr_compile e)) es) ∧
       (cls o = Seq_cls →
          Sequence_compile (S d) h' self =
            Ok (SeqObj (map (λ e, StmtObj (Expr_compile e)) es))) ∧
       (∀ f, cls o = FnContext_cls f →
          Sequence_compile (S d) h' self =
            Ok (ScriptObj (map (λ e, StmtObj (Expr_compile e)) es)
                  (map fst (_args f)) (map fst (_keys f))))).
Proof.
  intros Ha Hempty.
  assert (Hnone : get_cmds d h self = Ok []).
  { rewrite (get_cmds_Some _ _ _ _ Ha), Hempty. done. }
  split; [done|]. split; [|split].
  { intros Hc. unfold Sequence_compile, Sequence_compile_with.
    rewrite (deref_Some _ _ _ Ha). cbn [rbind]. rewrite Hc.
    fold (get_cmds d h self). by rewrite Hnone. }
  { intros f Hc. unfold Sequence_compile, Sequence_compile_with.
    rewrite (deref_Some _ _ _ Ha). cbn [rbind]. rewrite Hc.
    fold (get_cmds d h self). by rewrite Hnone. }
  eexists. split; [by apply add_all_Some|].
  assert (Hget : ∀ cmds,
    get_cmds (S d) (<[self := set_seq o (_seq o ++ map entry_of ts)]> h) self = Ok cmds ↔
    Forall2 (λ t cmd,
               match t with
               | inl c => Compilable_compile (S d)
                            (<[self := set_seq o (_seq o ++ map entry_of ts)]> h) c = Ok cmd
               | inr e => cmd = StmtObj (Expr_compile e)
               end) ts cmds).
  { intros cmds.
    rewrite (get_cmds_Some _ _ _ _ (lookup_insert_self _ _ _ _ Ha)).
    cbn [set_seq _seq]. rewrite Hempty, app_nil_l, comprehension_Forall2.
    rewrite Forall2_fmap_l.
    split; intros HF; (eapply Forall2_impl; [exact HF|]);
      intros [c|e] cmd; cbn [entry_of]; [done| |done|]; simpl; congruence. }
  split; [exact Hget|].
  assert (Hlen : ∀ cmds,
    get_cmds (S d) (<[self := set_seq o (_seq o ++ map entry_of ts)]> h) self = Ok cmds →
    length cmds = length ts).
  { intros cmds Hc. apply Hget in Hc. symmetry. by eapply Forall2_length. }
  split; [exact Hlen|].
  assert (Hcompile : Sequence_compile (S d)
            (<[self := set_seq o (_seq o ++ map entry_of ts)]> h) self =
          match cls o with
          | Sequence_cls => Raise NotImplementedError
          | Seq_cls =>
              let* cmds := get_cmds (S d)
                (<[self := set_seq o (_seq o ++ map entry_of ts)]> h) self in
              Ok (SeqObj cmds)
          | FnContext_cls f =>
              let* cmds := get_cmds (S d)
                (<[self := set_seq o (_seq o ++ map entry_of ts)]> h) self in
              Ok (ScriptObj cmds (map fst (_args f)) (map fst (_keys f)))
          end).
  { unfold Sequence_compile, Sequence_compile_with.
    by rewrite (deref_Some _ _ _ (lookup_insert_self _ _ _ _ Ha)). }
  split; [|split].
  - intros Hc r. rewrite Hcompile, Hc. cbv beta iota zeta. split.
    + destruct (get_cmds (S d) _ self) as [cmds|e] eqn:Hcmds; cbn [rbind]; [|done].
      intros Hr. injection Hr as <-. exists cmds. split; [done|].
      split; [by apply Hlen|by apply Hget].
    + intros (cmds & -> & _ & HF). apply Hget in HF. by rewrite HF.
  - intros f Hc r. rewrite Hcompile, Hc. cbv beta iota zeta. split.
    + destruct (get_cmds (S d) _ self) as [cmds|e] eqn:Hcmds; cbn [rbind]; [|done].
      intros Hr. injection Hr as <-. exists cmds. split; [done|].
      split; [by apply Hlen|by apply Hget].
    + intros (cmds & -> & _ & HF). apply Hget in HF. by rewrite HF.
  - intros es Hts. subst ts.
    assert (Hes : get_cmds (S d)
              (<[self := set_seq o (_seq o ++ map entry_of (map inr es))]> h) self =
            Ok (map (λ e, StmtObj (Expr_compile e)) es)).
    { apply Hget. apply Forall2_fmap_l, Forall2_fmap_r.
      by apply Forall_Forall2_diag, Forall_forall. }
    split; [exact Hes|].
    split; [intros Hc|intros f Hc]; by rewrite Hcompile, Hc, Hes.
Qed.

(** ** Compilation: depth and framing *)

Lemma Sequence_compile_with_ext (f g : Compilable → result CommandObj) h a :
  (∀ o c, h !! a = Some o → c ∈ _seq o → f c = g c) →
  Sequence_compile_with f h a = Sequence_compile_with g h a.
Proof.
  intros Hfg. unfold Sequence_compile_with, get_cmds_with, deref.
  destruct (h !! a) as [o|] eqn:Ha; simpl; [|done].
  rewrite (comprehension_ext f g); [done|]. intros c Hc. by eapply Hfg.
Qed.

Lemma Sequence_compile_with_heap (f : Compilable → result CommandObj) h h' a :
  h' !! a = h !! a →
  Sequence_compile_with f h' a = Sequence_compile_with f h a.
Proof.
  intros Ha. unfold Sequence_compile_with, get_cmds_with, deref. by rewrite Ha.
Qed.

Lemma comprehension_mono {A B} (f g : A → result B) l ys :
  (∀ x y, x ∈ l → f x = Ok y → g x = Ok y) →
  comprehension f l = Ok ys → comprehension g l = Ok ys.
Proof.
  revert ys. induction l as [|x l IH]; intros ys Hfg; simpl; [done|].
  destruct (f x) as [y|] eqn:Hx; simpl; [|done].
  rewrite (Hfg x y) by (done || left). simpl.
  destruct (comprehension f l) as [ys'|] eqn:Hl; simpl; [|done].
  intros [= <-]. rewrite (IH ys'); [done| |done].
  intros z y' Hz. apply Hfg. by right.
Qed.

Lemma Sequence_compile_with_mono (f g : Compilable → result CommandObj) h a r :
  (∀ c y, f c = Ok y → g c = Ok y) →
  Sequence_compile_with f h a = Ok r → Sequence_compile_with g h a = Ok r.
Proof.
  intros Hfg. unfold Sequence_compile_with, get_cmds_with, deref.
  destruct (h !! a) as [o|]; simpl; [|done].
  destruct (cls o); [done| |];
    (destruct (comprehension f (_seq o)) as [ys|] eqn:Hl; simpl; [|done]);
    by rewrite (comprehension_mono f g _ ys) by eauto.
Qed.

Lemma compile_Branch d h b :
  Compilable_compile (S d) h (IsBranch b) =
    let* then_ := Sequence_compile d h (_success b) in
    let* else_ := Sequence_compile d h (_failure b) in
    Ok (BranchObj (Expr_compile (branch_condition b)) then_ else_).
Proof. done. Qed.

Lemma compile_ForLoop d h l :
  Compilable_compile (S d) h (IsForLoop l) =
    let* body := Sequence_compile d h (for_loop l) in
    Ok (ForObj (Expr_compile (_array l)) (IndexVariable_get_index_ref (_ix l))
          (ValueVariable_get_var_ref (_val l)) body).
Proof. done. Qed.

Lemma compile_WhileLoop d h w :
  Compilable_compile (S d) h (IsWhileLoop w) =
    let* body := Sequence_compile d h (while_loop w) in
    Ok (WhileObj (Expr_compile (while_condition w)) body).
Proof. done. Qed.

(** A deeper recursion limit does not change a result. *)
Lemma compile_depth_S d h c r :
  Compilable_compile d h c = Ok r → Compilable_compile (S d) h c = Ok r.
Proof.
  revert c r. induction d as [|d IH]; intros c r; [done|].
  destruct c as [fn|b|l|w]; [done| | |];
    rewrite ?compile_Branch, ?compile_ForLoop, ?compile_WhileLoop;
    unfold Sequence_compile.
  - destruct (Sequence_compile_with (Compilable_compile d h) h (_success b))
      as [t|] eqn:Ht; cbn [rbind]; [|done].
    destruct (Sequence_compile_with (Compilable_compile d h) h (_failure b))
      as [e|] eqn:He; cbn [rbind]; [|done].
    rewrite (Sequence_compile_with_mono _ _ _ _ _ IH Ht).
    by rewrite (Sequence_compile_with_mono _ _ _ _ _ IH He).
  - destruct (Sequence_compile_with (Compilable_compile d h) h (for_loop l))
      as [t|] eqn:Ht; cbn [rbind]; [|done].
    by rewrite (Sequence_compile_with_mono _ _ _ _ _ IH Ht).
  - destruct (Sequence_compile_with (Compilable_compile d h) h (while_loop w))
      as [t|] eqn:Ht; cbn [rbind]; [|done].
    by rewrite (Sequence_compile_with_mono _ _ _ _ _ IH Ht).
Qed.

(** In a well-formed heap a node only reads sequences created after the
    sequence that holds it: its result is the same in every heap with
    the same objects at those addresses. *)
Lemma compile_frame d h h' : well_formed h →
  ∀ lo c,
    (∀ a, lo < a < length h → h' !! a = h !! a) →
    (∀ r, r ∈ children c → lo < r < length h) →
    Compilable_compile d h' c = Compilable_compile d h c.
Proof.
  intros Hwf. induction d as [|d IH]; intros lo c Hsame Hch; [done|].
  assert (Hseq : ∀ r, r ∈ children c →
    Sequence_compile_with (Compilable_compile d h') h' r =
    Sequence_compile_with (Compilable_compile d h) h r).
  { intros r Hr. specialize (Hch r Hr).
    rewrite (Sequence_compile_with_heap _ h h') by (apply Hsame; lia).
    apply Sequence_compile_with_ext. intros o c' Ho Hc'.
    apply (IH r).
    - intros a Ha. apply Hsame. lia.
    - intros r' Hr'. by eapply (proj2 (Hwf r o Ho)). }
  destruct c as [fn|b|l|w]; [done| | |];
    rewrite ?compile_Branch, ?compile_ForLoop, ?compile_WhileLoop;
    unfold Sequence_compile.
  - rewrite !Hseq; [done|simpl; set_solver..].
  - rewrite !Hseq; [done|simpl; set_solver..].
  - rewrite !Hseq; [done|simpl; set_solver..].
Qed.


(** ** The control-flow methods *)

Lemma Sequence_compile_Seq d h a o cmds :
  h !! a = Some o → cls o = Seq_cls →
  comprehension (Compilable_compile d h) (_seq o) = Ok cmds →
  Sequence_compile d h a = Ok (SeqObj cmds).
Proof.
  intros Ha Hc Hl. unfold Sequence_compile, Sequence_compile_with, get_cmds_with.
  rewrite (deref_Some _ _ _ Ha). cbn [rbind]. by rewrite Hc, Hl.
Qed.


Lemma Branch_init_eq ctx cond h :
  Branch_init ctx cond h =
    (Ok {| branch_condition := lit_helper cond;
           _success := length h; _failure := S (length h) |},
     (h ++ [new_seq ctx]) ++ [new_seq ctx]).
Proof.
  unfold Branch_init, Seq_init, alloc, bind, ret.
  by rewrite length_app, Nat.add_1_r.
Qed.

Lemma WhileLoop_init_eq ctx cond h :
  WhileLoop_init ctx cond h =
    (Ok {| while_condition := lit_helper cond; while_loop := length h |},
     h ++ [new_seq ctx]).
Proof. done. Qed.

Lemma Sequence_if__Some h self o cond :
  h !! self = Some o →
  let b := {| branch_condition := lit_helper cond;
              _success := length h; _failure := S (length h) |} in
  Sequence_if_ self cond h =
    (Ok (length h, S (length h)),
     <[self := set_seq o (_seq o ++ [IsBranch b])]>
       ((h ++ [new_seq (_ctx o)]) ++ [new_seq (_ctx o)])).
Proof.
  intros Ha b. unfold Sequence_if_.
  rewrite (bind_Ok _ _ _ _ _ (load_Some _ _ _ Ha)).
  rewrite (bind_Ok _ _ _ _ _ (Branch_init_eq _ _ _)).
  erewrite bind_Ok; [done|]. apply Sequence_add_Some.
  rewrite !lookup_app_l; [done|by eapply lookup_lt_Some|].
  rewrite length_app. apply lookup_lt_Some in Ha. lia.
Qed.

Lemma Sequence_while__Some h self o cond :
  h !! self = Some o →
  let w := {| while_condition := lit_helper cond; while_loop := length h |} in
  Sequence_while_ self cond h =
    (Ok (length h),
     <[self := set_seq o (_seq o ++ [IsWhileLoop w])]> (h ++ [new_seq (_ctx o)])).
Proof.
  intros Ha w. unfold Sequence_while_.
  rewrite (bind_Ok _ _ _ _ _ (load_Some _ _ _ Ha)).
  rewrite (bind_Ok _ _ _ _ _ (WhileLoop_init_eq _ _ _)).
  erewrite bind_Ok; [done|]. apply Sequence_add_Some.
  rewrite lookup_app_l; [done|by eapply lookup_lt_Some].
Qed.

Lemma FnContext_add_loop_Some h ctx c f :
  h !! ctx = Some c → cls c = FnContext_cls f →
  FnContext_add_loop ctx h =
    (Ok (_loops f), <[ctx := set_cls c (FnContext_cls (loops_incr f))]> h).
Proof.
  intros Hc Hf. unfold FnContext_add_loop.
  rewrite (bind_Ok _ _ _ _ _ (fields_Some _ _ _ _ Hc Hf)).
  by erewrite bind_Ok by (by eapply update_fields_Some).
Qed.

Lemma ForLoop_init_Some h ctx c f array :
  h !! ctx = Some c → cls c = FnContext_cls f →
  ForLoop_init ctx array h =
    (Ok {| _ix := {| ix_index := _loops f |};
           _val := {| val_index := _loops f |};
           for_loop := length h; _array := array |},
     <[ctx := set_cls c (FnContext_cls (loops_incr f))]> h ++ [new_seq ctx]).
Proof.
  intros Hc Hf. unfold ForLoop_init.
  rewrite (bind_Ok _ _ _ _ _ (FnContext_add_loop_Some _ _ _ _ Hc Hf)).
  unfold Seq_init, alloc, bind, ret. by rewrite length_insert.
Qed.

Lemma after_add_loop_lookup h self o c f :
  h !! self = Some o → h !! _ctx o = Some c → cls c = FnContext_cls f →
  (<[_ctx o := set_cls c (FnContext_cls (loops_incr f))]> h ++ [new_seq (_ctx o)])
    !! self = Some (after_add_loop self o f).
Proof.
  intros Ha Hc Hf.
  rewrite lookup_app_l by (rewrite length_insert; by eapply lookup_lt_Some).
  unfold after_add_loop. destruct (decide (self = _ctx o)) as [Heq|Hne].
  - rewrite <- Heq in *. rewrite (lookup_insert_self _ _ _ _ Ha).
    by simplify_eq.
  - rewrite list_lookup_insert_ne by done. rewrite Ha. by destruct o.
Qed.

Lemma Sequence_for__Some h self o c f array :
  h !! self = Some o → h !! _ctx o = Some c → cls c = FnContext_cls f →
  let l := {| _ix := {| ix_index := _loops f |};
              _val := {| val_index := _loops f |};
              for_loop := length h; _array := array |} in
  Sequence_for_ self array h =
    (Ok (length h, {| ix_index := _loops f |}, {| val_index := _loops f |}),
     <[self := set_seq (after_add_loop self o f)
                 (_seq o ++ [IsForLoop l])]>
       (<[_ctx o := set_cls c (FnContext_cls (loops_incr f))]> h
          ++ [new_seq (_ctx o)])).
Proof.
  intros Ha Hc Hf l. unfold Sequence_for_.
  rewrite (bind_Ok _ _ _ _ _ (load_Some _ _ _ Ha)).
  rewrite (bind_Ok _ _ _ _ _ (ForLoop_init_Some _ _ _ _ _ Hc Hf)).
  erewrite bind_Ok; [done|].
  apply (Sequence_add_Some _ _ (after_add_loop self o f)).
  by apply after_add_loop_lookup.
Qed.

(** Lookups in a heap that was extended at its end and updated at
    known addresses. *)
Ltac heap_lookup :=
  repeat first
    [ rewrite list_lookup_insert_ne by lia
    | rewrite list_lookup_insert_eq by
        (rewrite ?length_insert, ?length_app, ?length_insert; simpl; lia)
    | rewrite lookup_app_l by (rewrite ?length_insert; lia)
    | rewrite lookup_app_r by (rewrite ?length_insert; lia) ];
  rewrite ?length_insert.





(** ** Branches *)

(** C5. Compiling a branch succeeds exactly when both child sequences
    compile, and the node then carries the compiled condition and both
    compiled children; an empty child sequence compiles to the sequence
    node with the empty statement list.  In particular the branch that
    [Branch.__init__] has just built compiles to a node with two empty
    statement lists. *)
Theorem Branch_compile_both_children (d : nat) (h : heap) (b : Branch) :
  (∀ cmd,
     Compilable_compile (S d) h (IsBranch b) = Ok cmd ↔
     ∃ then_ else_,
       Sequence_compile d h (_success b) = Ok then_ ∧
       Sequence_compile d h (_failure b) = Ok else_ ∧
       cmd = BranchObj (Expr_compile (branch_condition b)) then_ else_) ∧
  (∀ a o, h !! a = Some o → cls o = Seq_cls → _seq o = [] →
     Sequence_compile d h a = Ok (SeqObj [])) ∧
  (∀ ctx cond h0, ∃ b0 h1,
     Branch_init ctx cond h0 = (Ok b0, h1) ∧
     Compilable_compile (S d) h1 (IsBranch b0) =
       Ok (BranchObj (Expr_compile (lit_helper cond)) (SeqObj []) (SeqObj []))).
Proof.
  split; [|split].
  - intros cmd. rewrite compile_Branch. split.
    + destruct (Sequence_compile d h (_success b)) as [t|]; [|done].
      destruct (Sequence_compile d h (_failure b)) as [e|]; [|done].
      intros [= <-]. by exists t, e.
    + intros (t & e & -> & -> & ->). done.
  - intros a o Ha Hc Hempty. eapply Sequence_compile_Seq; [done..|].
    by rewrite Hempty.
  - intros ctx cond h0. eexists _, _. split; [apply Branch_init_eq|].
    rewrite compile_Branch. cbn [_success _failure branch_condition].
    rewrite (Sequence_compile_Seq d _ (length h0) (new_seq ctx) []);
      [|rewrite <- app_assoc; heap_lookup; by rewrite Nat.sub_diag|done..].
    rewrite (Sequence_compile_Seq d _ (S (length h0)) (new_seq ctx) []);
      [done| |done..].
    rewrite <- app_assoc. heap_lookup.
    by replace (S (length h0) - length h0) with 1 by lia.
Qed.

(** ** Loop variables *)

(** C9. The declaration right-hand side of an index variable and of a
    value variable does not exist: asking for it raises the
    [RuntimeError] "must be used in for loop", for every such variable,
    wherever the call is made; it never returns an expression, and the
    error is not the [ValueError] of a naming conflict. *)
Theorem loop_variable_declare_rhs_raises (ix : IndexVariable) (val : ValueVariable) :
  IndexVariable_get_declare_rhs ix = Raise (RuntimeError "must be used in for loop") ∧
  ValueVariable_get_declare_rhs val = Raise (RuntimeError "must be used in for loop") ∧
  (∀ e, IndexVariable_get_declare_rhs ix ≠ Ok e) ∧
  (∀ e, ValueVariable_get_declare_rhs val ≠ Ok e) ∧
  (∀ msg, IndexVariable_get_declare_rhs ix ≠ Raise (ValueError msg)) ∧
  (∀ msg, ValueVariable_get_declare_rhs val ≠ Raise (ValueError msg)).
Proof. repeat split; done. Qed.

(** ** Loop ids *)

Lemma keeps_ret {A} (a : A) : keeps_counters (ret a).
Proof. done. Qed.

Lemma keeps_raise {A} e : keeps_counters (@raise _ A e).
Proof. done. Qed.

Lemma keeps_load a : keeps_counters (load a).
Proof. done. Qed.

Lemma keeps_bind {A B} (m : M A) (k : A → M B) :
  keeps_counters m → (∀ x, keeps_counters (k x)) → keeps_counters (bind m k).
Proof.
  intros Hm Hk h c. unfold bind. specialize (Hm h c).
  destruct (m h) as [[x|e] h'] eqn:Hmh; simpl in *; [|done].
  by rewrite Hk.
Qed.

Lemma loop_counter_insert h a o o' c :
  h !! a = Some o → cls o' = cls o →
  loop_counter (<[a := o']> h) c = loop_counter h c.
Proof.
  intros Ha Hc. unfold loop_counter. destruct (decide (c = a)) as [->|Hne].
  - by rewrite (lookup_insert_self _ _ _ _ Ha), Ha, Hc.
  - by rewrite list_lookup_insert_ne.
Qed.

Lemma loop_counter_snoc h o c :
  (∀ f, cls o = FnContext_cls f → _loops f = 0) →
  loop_counter (h ++ [o]) c = loop_counter h c.
Proof.
  intros Ho. unfold loop_counter.
  destruct (decide (c < length h)) as [Hlt|Hge].
  - by rewrite lookup_app_l.
  - rewrite (lookup_ge_None_2 h c) by lia. rewrite lookup_app_r by lia.
    destruct (c - length h) as [|k]; simpl; [|done].
    destruct (cls o) as [| |f] eqn:Hc; [done..|]. by apply Ho.
Qed.

Lemma keeps_seq_append a c : keeps_counters (seq_append a c).
Proof.
  intros h x. unfold seq_append, bind, load, deref, store.
  destruct (h !! a) as [o|] eqn:Ha; simpl; [|done].
  by apply (loop_counter_insert _ _ o).
Qed.

Lemma keeps_Sequence_add a t : keeps_counters (Sequence_add a t).
Proof. destruct t; apply keeps_seq_append. Qed.

Lemma keeps_fields a : keeps_counters (fields a).
Proof.
  apply keeps_bind; [apply keeps_load|]. intros o.
  destruct (cls o); done.
Qed.

Lemma keeps_update_fields a upd :
  (∀ f, _loops (upd f) = _loops f) → keeps_counters (update_fields a upd).
Proof.
  intros Hupd h x. unfold update_fields, bind, load, deref, store.
  destruct (h !! a) as [o|] eqn:Ha; simpl; [|done].
  destruct (cls o) as [| |f] eqn:Hc; simpl; [done..|].
  unfold loop_counter. destruct (decide (x = a)) as [->|Hne].
  - rewrite (lookup_insert_self _ _ _ _ Ha), Ha, Hc. simpl. apply Hupd.
  - by rewrite list_lookup_insert_ne.
Qed.

Lemma keeps_Seq_init ctx : keeps_counters (Seq_init ctx).
Proof. intros h x. by apply loop_counter_snoc. Qed.

Lemma keeps_FnContext_init : keeps_counters FnContext_init.
Proof.
  intros h x. apply loop_counter_snoc. simpl. by intros f [= <-].
Qed.

Ltac keeps :=
  repeat first
    [ apply keeps_ret | apply keeps_raise | apply keeps_load
    | apply keeps_fields | apply keeps_Seq_init | apply keeps_Sequence_add
    | apply keeps_update_fields; done
    | apply keeps_bind; [|intros ?] ].

Lemma keeps_add_arg a name : keeps_counters (FnContext_add_arg a name).
Proof.
  apply keeps_bind; [apply keeps_fields|]. intros f.
  destruct (decide _); keeps.
Qed.

Lemma keeps_add_key a name : keeps_counters (FnContext_add_key a name).
Proof.
  apply keeps_bind; [apply keeps_fields|]. intros f.
  destruct (decide _); keeps.
Qed.

Lemma keeps_add_local a init : keeps_counters (FnContext_add_local a init).
Proof. unfold FnContext_add_local. keeps. Qed.

Lemma keeps_set_return_value a v :
  keeps_counters (FnContext_set_return_value a v).
Proof. destruct v; apply keeps_Sequence_add. Qed.

Lemma keeps_if_ a cond : keeps_counters (Sequence_if_ a cond).
Proof. unfold Sequence_if_, Branch_init. keeps. Qed.

Lemma keeps_while_ a cond : keeps_counters (Sequence_while_ a cond).
Proof. unfold Sequence_while_, WhileLoop_init. keeps. Qed.

Lemma for__counters self array h :
  match Sequence_for_ self array h with
  | (Ok (_, ix, val), h') =>
      ix_index ix = loop_counter h (scope_of h self) ∧
      val_index val = loop_counter h (scope_of h self) ∧
      ∀ c, loop_counter h' c =
             if decide (c = scope_of h self) then S (loop_counter h c)
             else loop_counter h c
  | (Raise _, h') => ∀ c, loop_counter h' c = loop_counter h c
  end.
Proof.
  destruct (h !! self) as [o|] eqn:Ha; last first.
  { unfold Sequence_for_, bind, load, deref. by rewrite Ha. }
  destruct (h !! _ctx o) as [c|] eqn:Hc; last first.
  { unfold Sequence_for_, ForLoop_init, FnContext_add_loop, fields.
    rewrite (bind_Ok _ _ _ _ _ (load_Some _ _ _ Ha)).
    unfold bind, load, deref. by rewrite Hc. }
  destruct (cls c) as [| |f] eqn:Hf.
  1,2: unfold Sequence_for_, ForLoop_init, FnContext_add_loop, fields;
       rewrite (bind_Ok _ _ _ _ _ (load_Some _ _ _ Ha));
       unfold bind, load, deref; by rewrite Hc, Hf.
  rewrite (Sequence_for__Some _ _ _ _ _ array Ha Hc Hf).
  assert (Hscope : scope_of h self = _ctx o) by (unfold scope_of; by rewrite Ha).
  assert (Hcount : loop_counter h (_ctx o) = _loops f).
  { unfold loop_counter. by rewrite Hc, Hf. }
  rewrite Hscope, Hcount. split; [done|]. split; [done|]. intros x.
  erewrite loop_counter_insert;
    [|by apply (after_add_loop_lookup _ _ _ _ _ Ha Hc Hf)|done].
  rewrite loop_counter_snoc by done.
  destruct (decide (x = _ctx o)) as [->|Hne].
  - rewrite Hcount. unfold loop_counter.
    rewrite (lookup_insert_self _ _ _ _ Hc). simpl. lia.
  - unfold loop_counter. by rewrite list_lookup_insert_ne.
Qed.

Lemma ForLoop_init_counters ctx array h :
  match ForLoop_init ctx array h with
  | (Ok l, h') =>
      ix_index (_ix l) = loop_counter h ctx ∧
      val_index (_val l) = loop_counter h ctx ∧
      ∀ c, loop_counter h' c =
             if decide (c = ctx) then S (loop_counter h c) else loop_counter h c
  | (Raise _, h') => ∀ c, loop_counter h' c = loop_counter h c
  end.
Proof.
  destruct (h !! ctx) as [o|] eqn:Hc; last first.
  { unfold ForLoop_init, FnContext_add_loop, fields, bind, load, deref.
    by rewrite Hc. }
  destruct (cls o) as [| |f] eqn:Hf.
  1,2: unfold ForLoop_init, FnContext_add_loop, fields, bind, load, deref;
       by rewrite Hc, Hf.
  rewrite (ForLoop_init_Some _ _ _ _ array Hc Hf).
  assert (Hcount : loop_counter h ctx = _loops f).
  { unfold loop_counter. by rewrite Hc, Hf. }
  rewrite Hcount. split; [done|]. split; [done|]. intros x.
  rewrite loop_counter_snoc by done.
  destruct (decide (x = ctx)) as [->|Hne].
  - rewrite Hcount. unfold loop_counter.
    rewrite (lookup_insert_self _ _ _ _ Hc). simpl. lia.
  - unfold loop_counter. by rewrite list_lookup_insert_ne.
Qed.

Lemma add_loop_counters self h :
  match FnContext_add_loop self h with
  | (Ok id, h') =>
      id = loop_counter h self ∧
      ∀ c, loop_counter h' c =
             if decide (c = self) then S (loop_counter h c) else loop_counter h c
  | (Raise _, h') => ∀ c, loop_counter h' c = loop_counter h c
  end.
Proof.
  destruct (h !! self) as [o|] eqn:Ha; last first.
  { unfold FnContext_add_loop, fields, bind, load, deref. by rewrite Ha. }
  destruct (cls o) as [| |f] eqn:Hf.
  1,2: unfold FnContext_add_loop, fields, bind, load, deref; by rewrite Ha, Hf.
  rewrite (FnContext_add_loop_Some _ _ _ _ Ha Hf).
  assert (Hcount : loop_counter h self = _loops f).
  { unfold loop_counter. by rewrite Ha, Hf. }
  split; [done|]. intros c. destruct (decide (c = self)) as [->|Hne].
  - rewrite Hcount. unfold loop_counter.
    rewrite (lookup_insert_self _ _ _ _ Ha). simpl. lia.
  - unfold loop_counter. by rewrite list_lookup_insert_ne.
Qed.

(** One call either adds no event and keeps every counter, or adds one
    event that shows the counter of its scope, which the call advances
    by one; the event is a loop unless the call is a direct [add_loop]. *)
Lemma exec_counters call h :
  (∃ h', exec call h = ([], h') ∧
     ∀ c, loop_counter h' c = loop_counter h c) ∨
  (∃ e h', exec call h = ([e], h') ∧
     event_id e = loop_counter h (event_scope e) ∧
     one_id e ∧
     (¬ direct_add_loop call → is_loop e) ∧
     ∀ c, loop_counter h' c =
            if decide (c = event_scope e) then S (loop_counter h c)
            else loop_counter h c).
Proof.
  destruct call as [|a t|a arr|a cond|a cond|a name|a name|a init|a v|a|a arr].
  - left. eexists. split; [reflexivity|]. apply keeps_FnContext_init.
  - left. eexists. split; [reflexivity|]. apply keeps_Sequence_add.
  - pose proof (for__counters a arr h) as Hfor. unfold exec.
    destruct (Sequence_for_ a arr h) as [[[[l ix] val]|e] h'].
    + right. eexists _, h'. split; [reflexivity|].
      destruct Hfor as (Hix & Hval & Hstep). cbn [event_id event_scope one_id].
      split; [done|]. split; [congruence|]. done.
    + left. by exists h'.
  - left. eexists. split; [reflexivity|]. apply keeps_if_.
  - left. eexists. split; [reflexivity|]. apply keeps_while_.
  - left. eexists. split; [reflexivity|]. apply keeps_add_arg.
  - left. eexists. split; [reflexivity|]. apply keeps_add_key.
  - left. eexists. split; [reflexivity|]. apply keeps_add_local.
  - left. eexists. split; [reflexivity|]. apply keeps_set_return_value.
  - pose proof (add_loop_counters a h) as Hadd. unfold exec.
    destruct (FnContext_add_loop a h) as [[id|e] h'].
    + right. eexists _, h'. split; [reflexivity|].
      destruct Hadd as [Hid Hstep]. cbn [event_id event_scope one_id].
      split; [done|]. split; [done|]. split; [|done].
      intros Hdirect. by destruct Hdirect.
    + left. by exists h'.
  - pose proof (ForLoop_init_counters a arr h) as Hfor. unfold exec.
    destruct (ForLoop_init a arr h) as [[l|e] h'].
    + right. eexists _, h'. split; [reflexivity|].
      destruct Hfor as (Hix & Hval & Hstep). cbn [event_id event_scope one_id].
      split; [done|]. split; [congruence|]. done.
    + left. by exists h'.
Qed.

(** The events of one scope, in the order of the calls: the ids they
    show count up from the counter of the scope. *)
Lemma run_event_ids calls : ∀ h c,
  let events := events_in c (run calls h).1 in
  map event_id events = seq (loop_counter h c) (length events) ∧
  Forall one_id events ∧
  (Forall (λ call, ¬ direct_add_loop call) calls → Forall is_loop events).
Proof.
  induction calls as [|call calls IH]; intros h c.
  { simpl. repeat split; by constructor. }
  cbn [run].
  destruct (exec_counters call h) as
    [(h' & -> & Hkeep)|(e & h' & -> & Hid & Hone & Hloop & Hstep)];
    specialize (IH h' c); destruct (run calls h') as [logs h''];
    cbn [fst app] in *; destruct IH as (Hseq & Hones & Hloops).
  - rewrite <- (Hkeep c). split; [done|]. split; [done|].
    intros [_ Hcalls]%Forall_cons. by apply Hloops.
  - unfold events_in in *. rewrite filter_cons. rewrite Hstep in Hseq.
    destruct (decide (event_scope e = c)) as [<-|Hne].
    + rewrite decide_True in Hseq by done. cbn [map length seq].
      split; [by rewrite Hid, Hseq|]. split; [by constructor|].
      intros [Hcall Hcalls]%Forall_cons. constructor; [by apply Hloop|].
      by apply Hloops.
    + rewrite decide_False in Hseq by done. split; [done|]. split; [done|].
      intros [_ Hcalls]%Forall_cons. by apply Hloops.
Qed.

(** Loops picked out of events whose ids count up have ids that
    strictly increase. *)
Lemma loop_ids_sorted (events : list Event) : ∀ k,
  map event_id events = seq k (length events) →
  let ids := map (λ l, ix_index l.1) (loops_of events) in
  Forall (le k) ids ∧ StronglySorted lt ids.
Proof.
  induction events as [|e events IH]; intros k Hseq; cbn zeta.
  { split; constructor. }
  cbn [map length seq] in Hseq. injection Hseq as Hid Hseq.
  destruct (IH (S k) Hseq) as [Hge Hsorted].
  assert (Hge' : Forall (le k) (map (λ l, ix_index l.1) (loops_of events))).
  { eapply Forall_impl; [exact Hge|]. intros i Hi. simpl in Hi. lia. }
  destruct e as [s ix val|s id]; [|done].
  change (loops_of (Loop s ix val :: events)) with ((ix, val) :: loops_of events).
  cbn [map fst]. cbn [event_id] in Hid.
  split.
  - constructor; [lia|done].
  - constructor; [done|]. eapply Forall_impl; [exact Hge|].
    intros i Hi. simpl in Hi. lia.
Qed.

Lemma loops_of_all (events : list Event) :
  Forall is_loop events →
  map (λ l, ix_index l.1) (loops_of events) = map event_id events ∧
  length (loops_of events) = length events.
Proof.
  induction 1 as [|e events He _ [IHids IHlen]]; [done|].
  destruct e as [s ix val|s id]; [|done].
  change (loops_of (Loop s ix val :: events)) with ((ix, val) :: loops_of events).
  cbn [map fst length event_id]. by rewrite IHids, IHlen.
Qed.

Lemma loops_of_one_id (events : list Event) :
  Forall one_id events →
  Forall (λ l, val_index l.2 = ix_index l.1) (loops_of events).
Proof.
  induction 1 as [|e events He _ IH]; [constructor|].
  destruct e as [s ix val|s id]; [|done].
  change (loops_of (Loop s ix val :: events)) with ((ix, val) :: loops_of events).
  by constructor.
Qed.

Lemma StronglySorted_lt_NoDup (l : list nat) : StronglySorted lt l → NoDup l.
Proof.
  induction 1 as [|x l Hl IH Hx]; constructor; [|done].
  intros Hin. rewrite Forall_forall in Hx. specialize (Hx x Hin). lia.
Qed.

(** C4. Run any program of builder calls from the empty heap and take
    one script scope.  The ids handed out in it, to the for loops
    constructed in the scope (in any of its sequences, at any depth)
    and to the program's own calls of [add_loop], are 0, 1, 2, ... in
    the order of the calls.  So the ids of the loops strictly increase
    in construction order and no two loops of the scope share one, and
    they are themselves 0, 1, 2, ... when the program never calls
    [add_loop] itself.  Within a loop the value variable has the id of
    the index variable; the compiled reference of the index variable is
    ["ix_"] and that of the value variable ["val_"], each followed by
    this id, so the two differ in the prefix alone. *)
Theorem loop_ids_distinct_per_scope (calls : list Call) (c : addr) :
  let events := events_in c (run calls []).1 in
  let loops := loops_of events in
  let ids := map (λ l, ix_index l.1) loops in
  map event_id events = seq 0 (length events) ∧
  StronglySorted lt ids ∧
  NoDup ids ∧
  (Forall (λ call, ¬ direct_add_loop call) calls → ids = seq 0 (length loops)) ∧
  Forall (λ l,
    val_index l.2 = ix_index l.1 ∧
    index_name (IndexVariable_get_index_ref l.1) =
      "ix_" +:+ pretty (ix_index l.1) ∧
    var_name (ValueVariable_get_var_ref l.2) =
      "val_" +:+ pretty (ix_index l.1)) loops.
Proof.
  intros events loops ids.
  destruct (run_event_ids calls [] c) as (Hseq & Hones & Hloops).
  fold events in Hseq, Hones, Hloops.
  destruct (loop_ids_sorted events 0 Hseq) as [_ Hsorted].
  split; [done|]. split; [done|].
  split; [by apply StronglySorted_lt_NoDup|]. split.
  - intros Hcalls. destruct (loops_of_all events (Hloops Hcalls)) as [Hids Hlen].
    unfold ids, loops. by rewrite Hids, Hlen.
  - eapply Forall_impl; [exact (loops_of_one_id events Hones)|].
    intros [ix val] Heq. simpl in *. split; [done|]. split; [done|].
    unfold ValueVariable_get_var_ref. simpl. by rewrite Heq.
Qed.

End SymbolicFacts.

(** ** The invariants hold in every heap the builder methods produce *)

Section Reachable.
Context {E : Extern}.
Abbreviation addr := nat.
Abbreviation heap := (list Object).

Lemma well_formed_snoc (h : heap) o :
  well_formed h → _ctx o ≤ length h → _seq o = [] → well_formed (h ++ [o]).
Proof.
  intros Hwf Hctx Hempty a oa Ha. rewrite length_app. simpl.
  apply lookup_snoc_inv in Ha as [Ha|[-> ->]].
  - destruct (Hwf a oa Ha) as [Hc Hch]. split; [done|].
    intros c r Hin Hr. specialize (Hch c r Hin Hr). lia.
  - split; [done|]. rewrite Hempty. intros c r Hin. by apply elem_of_nil in Hin.
Qed.

Lemma well_formed_insert (h : heap) a o o' :
  well_formed h → h !! a = Some o → _ctx o' = _ctx o →
  (∀ c r, c ∈ _seq o' → r ∈ children c → a < r < length h) →
  well_formed (<[a := o']> h).
Proof.
  intros Hwf Ha Hctx Hch b ob Hb. rewrite length_insert.
  destruct (decide (b = a)) as [->|Hne].
  - rewrite (lookup_insert_self _ _ _ _ Ha) in Hb. injection Hb as <-.
    split; [|done]. rewrite Hctx. by apply (Hwf a o).
  - rewrite list_lookup_insert_ne in Hb by done. by apply Hwf.
Qed.

Lemma well_formed_append (h : heap) a o c :
  well_formed h → h !! a = Some o →
  (∀ r, r ∈ children c → a < r < length h) →
  well_formed (<[a := set_seq o (_seq o ++ [c])]> h).
Proof.
  intros Hwf Ha Hc. apply (well_formed_insert _ _ o); [done..|].
  intros c' r [Hin|Hin%list_elem_of_singleton]%elem_of_app Hr.
  - by eapply (proj2 (Hwf a o Ha)).
  - subst c'. by apply Hc.
Qed.

Lemma well_formed_set_cls (h : heap) a o k :
  well_formed h → h !! a = Some o → well_formed (<[a := set_cls o k]> h).
Proof.
  intros Hwf Ha. apply (well_formed_insert _ _ o); [done..|].
  intros c r Hin Hr. by eapply (proj2 (Hwf a o Ha)).
Qed.

Lemma scopes_ok_snoc_seq (h : heap) ctx c f :
  scopes_ok h → h !! ctx = Some c → cls c = FnContext_cls f →
  scopes_ok (h ++ [new_seq ctx]).
Proof.
  intros Hok Hc Hf a o Ha.
  apply lookup_snoc_inv in Ha as [Ha|[-> ->]].
  - destruct (Hok a o Ha) as [Hinv (c' & f' & Hc' & Hf')]. split; [done|].
    exists c', f'. split; [|done]. by apply lookup_app_l_Some.
  - split; [done|]. exists c, f. split; [|done]. by apply lookup_app_l_Some.
Qed.

Lemma scopes_ok_snoc_scope (h : heap) :
  scopes_ok h →
  scopes_ok (h ++ [{| _ctx := length h; _seq := [];
                      cls := FnContext_cls FnContext_fields0 |}]).
Proof.
  intros Hok a o Ha.
  apply lookup_snoc_inv in Ha as [Ha|[-> ->]].
  - destruct (Hok a o Ha) as [Hinv (c' & f' & Hc' & Hf')]. split; [done|].
    exists c', f'. split; [|done]. by apply lookup_app_l_Some.
  - split.
    + intros f [= <-]. apply scope_inv_init.
    + eexists _, FnContext_fields0. split; [by apply list_lookup_middle|done].
Qed.

(** Replacing an object by one of the same context that is a script
    scope, with a sound set of names, exactly when the old one was. *)
Lemma scopes_ok_insert (h : heap) a o o' :
  scopes_ok h → h !! a = Some o → _ctx o' = _ctx o →
  (cls o' = cls o ∨
   ∃ f f', cls o = FnContext_cls f ∧ cls o' = FnContext_cls f' ∧ scope_inv f') →
  scopes_ok (<[a := o']> h).
Proof.
  intros Hok Ha Hctx Hcls.
  assert (Hscope : ∀ b ob, h !! b = Some ob →
            ∃ c f, <[a := o']> h !! _ctx ob = Some c ∧ cls c = FnContext_cls f).
  { intros b ob Hb. destruct (Hok b ob Hb) as [_ (c & f & Hc & Hf)].
    destruct (decide (_ctx ob = a)) as [Heq|Hne].
    - rewrite Heq in *. rewrite (lookup_insert_self _ _ _ _ Ha).
      assert (c = o) as -> by congruence.
      destruct Hcls as [Hsame|(f1 & f2 & _ & Hf2 & _)].
      + exists o', f. split; [done|]. by rewrite Hsame.
      + by exists o', f2.
    - exists c, f. by rewrite list_lookup_insert_ne. }
  intros b ob Hb. destruct (decide (b = a)) as [->|Hne].
  - rewrite (lookup_insert_self _ _ _ _ Ha) in Hb. injection Hb as <-. split.
    + intros f' Hf'. destruct Hcls as [Hsame|(f1 & f2 & _ & Hf2 & Hinv)].
      * apply (Hok a o Ha). by rewrite <- Hsame.
      * congruence.
    + rewrite Hctx. by apply (Hscope a o).
  - rewrite list_lookup_insert_ne in Hb by done. split.
    + by apply (Hok b ob).
    + by apply (Hscope b ob).
Qed.

Lemma scopes_ok_append (h : heap) a o c :
  scopes_ok h → h !! a = Some o →
  scopes_ok (<[a := set_seq o (_seq o ++ [c])]> h).
Proof. intros Hok Ha. apply (scopes_ok_insert _ _ o); auto. Qed.

Lemma load_cases (h : heap) a :
  (∃ o, h !! a = Some o ∧ load a h = (Ok o, h)) ∨
  (h !! a = None ∧ load a h = (Raise DanglingRef, h)).
Proof.
  unfold load, deref. destruct (h !! a) as [o|]; [left; by exists o | by right].
Qed.

Lemma fields_cases (h : heap) a :
  (∃ o f, h !! a = Some o ∧ cls o = FnContext_cls f ∧ fields a h = (Ok f, h)) ∨
  (∃ e, fields a h = (Raise e, h)).
Proof.
  unfold fields, bind, load, deref. destruct (h !! a) as [o|]; [|right; by eexists].
  destruct (cls o) as [| |f] eqn:Hc; [right; by eexists..|].
  left. by exists o, f.
Qed.

Lemma exec_For_heap a arr (h : heap) :
  (exec (For_ a arr) h).2 = (Sequence_for_ a arr h).2.
Proof.
  unfold exec. by destruct (Sequence_for_ a arr h) as [[[[l ix] val]|e] h'].
Qed.

Lemma exec_AddLoop_heap a (h : heap) :
  (exec (AddLoop a) h).2 = (FnContext_add_loop a h).2.
Proof.
  unfold exec. by destruct (FnContext_add_loop a h) as [[id|e] h'].
Qed.

Lemma exec_NewForLoop_heap a arr (h : heap) :
  (exec (NewForLoop a arr) h).2 = (ForLoop_init a arr h).2.
Proof.
  unfold exec. by destruct (ForLoop_init a arr h) as [[l|e] h'].
Qed.

Lemma add_local_Some (h : heap) self o f init :
  h !! self = Some o → cls o = FnContext_cls f →
  let local := {| local_init := init; local_index := length (_locals f) |} in
  FnContext_add_local self init h =
    (Ok local,
     <[self := {| _ctx := _ctx o;
                  _seq := _seq o ++ [CmdHelper (LocalVariable_get_declare local)];
                  cls := FnContext_cls (locals_append local f) |}]> h).
Proof.
  intros Ha Hc local. unfold FnContext_add_local.
  rewrite (bind_Ok _ _ _ _ _ (fields_Some _ _ _ _ Ha Hc)).
  erewrite bind_Ok by (eapply update_fields_Some; [exact Ha | exact Hc]).
  erewrite bind_Ok by (eapply Sequence_add_Some; by eapply lookup_insert_self).
  rewrite list_insert_insert_eq. done.
Qed.

Lemma scope_inv_same_names (f f' : FnFields) :
  _args f' = _args f → _keys f' = _keys f →
  _anames f' = _anames f → _knames f' = _knames f →
  scope_inv f → scope_inv f'.
Proof. unfold scope_inv. by intros -> -> -> ->. Qed.

(** Every call keeps the scopes sound. *)
Lemma exec_scopes_ok call (h : heap) :
  scopes_ok h → scopes_ok (exec call h).2.
Proof.
  intros Hok.
  destruct call as [|a t|a arr|a cond|a cond|a name|a name|a init|a v|a|a arr].
  - apply scopes_ok_snoc_scope, Hok.
  - cbn [exec snd]. destruct (h !! a) as [o|] eqn:Ha.
    + rewrite (Sequence_add_Some _ _ _ t Ha). by apply scopes_ok_append.
    + destruct t; simpl; unfold seq_append, bind, load, deref; by rewrite Ha.
  - rewrite exec_For_heap. destruct (h !! a) as [o|] eqn:Ha; last first.
    { unfold Sequence_for_, bind, load, deref. by rewrite Ha. }
    destruct (Hok a o Ha) as [_ (c & f & Hc & Hf)].
    rewrite (Sequence_for__Some _ _ _ _ _ arr Ha Hc Hf). cbn [snd].
    assert (Hinv : scope_inv (loops_incr f)).
    { apply (scope_inv_same_names f); [done..|]. by apply (Hok _ c Hc). }
    eapply scopes_ok_insert.
    + eapply scopes_ok_snoc_seq.
      * apply (scopes_ok_insert _ _ c (set_cls c (FnContext_cls (loops_incr f))));
          [done..|]. right. by exists f, (loops_incr f).
      * by eapply lookup_insert_self.
      * done.
    + by apply (after_add_loop_lookup _ _ _ _ _ Ha Hc Hf).
    + done.
    + by left.
  - cbn [exec snd]. destruct (h !! a) as [o|] eqn:Ha; last first.
    { unfold Sequence_if_, bind, load, deref. by rewrite Ha. }
    destruct (Hok a o Ha) as [_ (c & f & Hc & Hf)].
    rewrite (Sequence_if__Some _ _ _ cond Ha). cbn [snd].
    apply scopes_ok_append.
    + eapply scopes_ok_snoc_seq; [|by apply lookup_app_l_Some|done].
      by eapply scopes_ok_snoc_seq.
    + by do 2 apply lookup_app_l_Some.
  - cbn [exec snd]. destruct (h !! a) as [o|] eqn:Ha; last first.
    { unfold Sequence_while_, bind, load, deref. by rewrite Ha. }
    destruct (Hok a o Ha) as [_ (c & f & Hc & Hf)].
    rewrite (Sequence_while__Some _ _ _ cond Ha). cbn [snd].
    apply scopes_ok_append; [by eapply scopes_ok_snoc_seq|].
    by apply lookup_app_l_Some.
  - cbn [exec snd].
    destruct (fields_cases h a) as [(o & f & Ha & Hc & Hf)|[e He]]; last first.
    { unfold FnContext_add_arg. by rewrite (bind_Raise _ _ _ _ _ He). }
    destruct (decide (name ∈ _anames f)) as [Hin|Hnew].
    { by rewrite (add_arg_taken _ _ _ _ _ Ha Hc Hin). }
    rewrite (add_arg_fresh _ _ _ _ _ Ha Hc Hnew). cbn [snd].
    apply (scopes_ok_insert _ _ o); [done..|]. right. eexists f, _.
    split; [done|]. split; [done|]. apply scope_inv_add_arg. by apply (Hok a o).
  - cbn [exec snd].
    destruct (fields_cases h a) as [(o & f & Ha & Hc & Hf)|[e He]]; last first.
    { unfold FnContext_add_key. by rewrite (bind_Raise _ _ _ _ _ He). }
    destruct (decide (name ∈ _knames f)) as [Hin|Hnew].
    { by rewrite (add_key_taken _ _ _ _ _ Ha Hc Hin). }
    rewrite (add_key_fresh _ _ _ _ _ Ha Hc Hnew). cbn [snd].
    apply (scopes_ok_insert _ _ o); [done..|]. right. eexists f, _.
    split; [done|]. split; [done|]. apply scope_inv_add_key. by apply (Hok a o).
  - cbn [exec snd].
    destruct (fields_cases h a) as [(o & f & Ha & Hc & Hf)|[e He]]; last first.
    { unfold FnContext_add_local. by rewrite (bind_Raise _ _ _ _ _ He). }
    rewrite (add_local_Some _ _ _ _ init Ha Hc). cbn [snd].
    apply (scopes_ok_insert _ _ o); [done..|]. right. eexists f, _.
    split; [done|]. split; [done|].
    apply (scope_inv_same_names f); [done..|]. by apply (Hok a o).
  - cbn [exec snd]. destruct (h !! a) as [o|] eqn:Ha.
    + destruct v; cbn [FnContext_set_return_value];
        rewrite (Sequence_add_Some _ _ _ _ Ha); by apply scopes_ok_append.
    + destruct v; simpl; unfold seq_append, bind, load, deref; by rewrite Ha.
  - rewrite exec_AddLoop_heap.
    destruct (fields_cases h a) as [(o & f & Ha & Hc & Hf)|[e He]]; last first.
    { unfold FnContext_add_loop. by rewrite (bind_Raise _ _ _ _ _ He). }
    rewrite (FnContext_add_loop_Some _ _ _ _ Ha Hc). cbn [snd].
    apply (scopes_ok_insert _ _ o); [done..|]. right. eexists f, _.
    split; [done|]. split; [done|].
    apply (scope_inv_same_names f); [done..|]. by apply (Hok a o).
  - rewrite exec_NewForLoop_heap.
    destruct (fields_cases h a) as [(o & f & Ha & Hc & Hf)|[e He]]; last first.
    { unfold ForLoop_init, FnContext_add_loop, bind. by rewrite He. }
    rewrite (ForLoop_init_Some _ _ _ _ arr Ha Hc). cbn [snd].
    eapply scopes_ok_snoc_seq.
    + apply (scopes_ok_insert _ _ o (set_cls o (FnContext_cls (loops_incr f))));
        [done..|]. right. exists f, (loops_incr f).
      split; [done|]. split; [done|].
      apply (scope_inv_same_names f); [done..|]. by apply (Hok a o).
    + by eapply lookup_insert_self.
    + done.
Qed.

(** Every call of the builder methods keeps the heap well formed. *)
Lemma exec_well_formed call (h : heap) :
  api_call call → well_formed h → well_formed (exec call h).2.
Proof.
  intros Hapi Hwf.
  destruct call as [|a t|a arr|a cond|a cond|a name|a name|a init|a v|a|a arr].
  - by apply well_formed_snoc.
  - cbn [exec snd]. destruct (h !! a) as [o|] eqn:Ha.
    + rewrite (Sequence_add_Some _ _ _ t Ha). apply well_formed_append; [done..|].
      intros r Hr. destruct t as [[fn|b|l|w]|e]; simpl in *;
        solve [done | by apply elem_of_nil in Hr].
    + destruct t; simpl; unfold seq_append, bind, load, deref; by rewrite Ha.
  - rewrite exec_For_heap. destruct (h !! a) as [o|] eqn:Ha; last first.
    { unfold Sequence_for_, bind, load, deref. by rewrite Ha. }
    destruct (fields_cases h (_ctx o)) as [(c & f & Hc & Hf & _)|[e He]]; last first.
    { unfold Sequence_for_, ForLoop_init, FnContext_add_loop, bind.
      by rewrite (load_Some _ _ _ Ha), He. }
    pose proof (lookup_lt_Some _ _ _ Ha) as Hlt.
    pose proof (proj1 (Hwf a o Ha)) as Hctx.
    rewrite (Sequence_for__Some _ _ _ _ _ arr Ha Hc Hf). cbn [snd].
    eapply well_formed_insert.
    + apply well_formed_snoc; [by apply well_formed_set_cls| |done].
      rewrite length_insert. simpl. lia.
    + by apply (after_add_loop_lookup _ _ _ _ _ Ha Hc Hf).
    + done.
    + rewrite length_app, length_insert. simpl.
      intros c' r [Hin|Hin%list_elem_of_singleton]%elem_of_app Hr.
      * pose proof (proj2 (Hwf a o Ha) c' r Hin Hr). lia.
      * subst c'. simpl in Hr. apply list_elem_of_singleton in Hr. lia.
  - cbn [exec snd]. destruct (h !! a) as [o|] eqn:Ha; last first.
    { unfold Sequence_if_, bind, load, deref. by rewrite Ha. }
    pose proof (lookup_lt_Some _ _ _ Ha) as Hlt.
    pose proof (proj1 (Hwf a o Ha)) as Hctx.
    rewrite (Sequence_if__Some _ _ _ cond Ha). cbn [snd].
    apply well_formed_append.
    + apply well_formed_snoc; [apply well_formed_snoc; [done| |done]| |done].
      * simpl. lia.
      * rewrite length_app. simpl. lia.
    + by do 2 apply lookup_app_l_Some.
    + rewrite !length_app. simpl. intros r Hr.
      apply elem_of_cons in Hr as [->|Hr%list_elem_of_singleton]; lia.
  - cbn [exec snd]. destruct (h !! a) as [o|] eqn:Ha; last first.
    { unfold Sequence_while_, bind, load, deref. by rewrite Ha. }
    pose proof (lookup_lt_Some _ _ _ Ha) as Hlt.
    pose proof (proj1 (Hwf a o Ha)) as Hctx.
    rewrite (Sequence_while__Some _ _ _ cond Ha). cbn [snd].
    apply well_formed_append.
    + apply well_formed_snoc; [done| |done]. simpl. lia.
    + by apply lookup_app_l_Some.
    + rewrite !length_app. simpl. intros r Hr.
      apply list_elem_of_singleton in Hr. lia.
  - cbn [exec snd].
    destruct (fields_cases h a) as [(o & f & Ha & Hc & Hf)|[e He]]; last first.
    { unfold FnContext_add_arg. by rewrite (bind_Raise _ _ _ _ _ He). }
    destruct (decide (name ∈ _anames f)) as [Hin|Hnew].
    { by rewrite (add_arg_taken _ _ _ _ _ Ha Hc Hin). }
    rewrite (add_arg_fresh _ _ _ _ _ Ha Hc Hnew). cbn [snd].
    apply (well_formed_insert _ _ o); [done..|]. simpl.
    intros c' r [Hin|Hin%list_elem_of_singleton]%elem_of_app Hr.
    + by eapply (proj2 (Hwf a o Ha)).
    + subst c'. by apply elem_of_nil in Hr.
  - cbn [exec snd].
    destruct (fields_cases h a) as [(o & f & Ha & Hc & Hf)|[e He]]; last first.
    { unfold FnContext_add_key. by rewrite (bind_Raise _ _ _ _ _ He). }
    destruct (decide (name ∈ _knames f)) as [Hin|Hnew].
    { by rewrite (add_key_taken _ _ _ _ _ Ha Hc Hin). }
    rewrite (add_key_fresh _ _ _ _ _ Ha Hc Hnew). cbn [snd].
    apply (well_formed_insert _ _ o); [done..|]. simpl.
    intros c' r [Hin|Hin%list_elem_of_singleton]%elem_of_app Hr.
    + by eapply (proj2 (Hwf a o Ha)).
    + subst c'. by apply elem_of_nil in Hr.
  - cbn [exec snd].
    destruct (fields_cases h a) as [(o & f & Ha & Hc & Hf)|[e He]]; last first.
    { unfold FnContext_add_local. by rewrite (bind_Raise _ _ _ _ _ He). }
    rewrite (add_local_Some _ _ _ _ init Ha Hc). cbn [snd].
    apply (well_formed_insert _ _ o); [done..|]. simpl.
    intros c' r [Hin|Hin%list_elem_of_singleton]%elem_of_app Hr.
    + by eapply (proj2 (Hwf a o Ha)).
    + subst c'. by apply elem_of_nil in Hr.
  - cbn [exec snd]. destruct (h !! a) as [o|] eqn:Ha.
    + destruct v; cbn [FnContext_set_return_value];
        rewrite (Sequence_add_Some _ _ _ _ Ha);
        (apply well_formed_append; [done..|]);
        intros r Hr; by apply elem_of_nil in Hr.
    + destruct v; simpl; unfold seq_append, bind, load, deref; by rewrite Ha.
  - rewrite exec_AddLoop_heap.
    destruct (fields_cases h a) as [(o & f & Ha & Hc & Hf)|[e He]]; last first.
    { unfold FnContext_add_loop. by rewrite (bind_Raise _ _ _ _ _ He). }
    rewrite (FnContext_add_loop_Some _ _ _ _ Ha Hc). cbn [snd].
    by apply well_formed_set_cls.
  - rewrite exec_NewForLoop_heap.
    destruct (fields_cases h a) as [(o & f & Ha & Hc & Hf)|[e He]]; last first.
    { unfold ForLoop_init, FnContext_add_loop, bind. by rewrite He. }
    pose proof (lookup_lt_Some _ _ _ Ha) as Hlt.
    rewrite (ForLoop_init_Some _ _ _ _ arr Ha Hc). cbn [snd].
    apply well_formed_snoc; [by apply well_formed_set_cls| |done].
    rewrite length_insert. simpl. lia.
Qed.

(** Whatever program of builder calls is run from the empty heap, the
    heap it leaves has sound scopes; it is well formed when the program
    made its control-flow nodes with [if_], [while_] and [for_]. *)
Lemma run_scopes_ok calls : ∀ h : heap, scopes_ok h → scopes_ok (run calls h).2.
Proof.
  induction calls as [|c calls IH]; intros h Hok; [done|]. cbn [run].
  pose proof (exec_scopes_ok c h Hok) as Hstep.
  destruct (exec c h) as [log h']. specialize (IH h' Hstep).
  by destruct (run calls h') as [logs h''].
Qed.

Lemma run_well_formed calls : ∀ h : heap,
  Forall api_call calls → well_formed h → well_formed (run calls h).2.
Proof.
  induction calls as [|c calls IH]; intros h Hapi Hwf; [done|]. cbn [run].
  apply Forall_cons in Hapi as [Hc Hapi].
  pose proof (exec_well_formed c h Hc Hwf) as Hstep.
  destruct (exec c h) as [log h']. specialize (IH h' Hapi Hstep).
  by destruct (run calls h') as [logs h''].
Qed.

Lemma built_heap_invariants calls :
  scopes_ok (E := E) (run calls []).2 ∧
  (Forall api_call calls → well_formed (E := E) (run calls []).2).
Proof.
  split.
  - apply run_scopes_ok. by intros a o Ha.
  - intros Hapi. apply run_well_formed; [done|]. by intros a o Ha.
Qed.

End Reachable.

(** * More proofs about the builder *)

Section MoreSymbolicFacts.
Context {E : Extern}.
Abbreviation addr := nat.
Abbreviation heap := (list Object).

Lemma edit_register (U : Compilable → Prop) (h : heap) a o f f' fun_ cmd :
  h !! a = Some o → cls o = FnContext_cls f → fields_step f f' →
  fun_ tt = Ok cmd →
  rtc (edit U) h
    (<[a := {| _ctx := _ctx o; _seq := _seq o ++ [CmdHelper fun_];
               cls := FnContext_cls f' |}]> h).
Proof.
  intros Ha Hc Hstep Hfun.
  eapply rtc_l; [by eapply (edit_fields U h a o f f')|].
  pose proof (edit_append U _ a _ (CmdHelper fun_)
    (lookup_insert_self h a o (set_cls o (FnContext_cls f')) Ha)) as Hedit.
  rewrite list_insert_insert_eq in Hedit. apply rtc_once, Hedit.
  right. simpl. by eexists.
Qed.

Lemma exec_edits (U : Compilable → Prop) call (h : heap) :
  scopes_ok h → user_nodes U call → rtc (edit U) h (exec call h).2.
Proof.
  intros Hok Huser.
  destruct call as [|a t|a arr|a cond|a cond|a name|a name|a init|a v|a|a arr].
  - apply rtc_once. apply edit_new_scope.
  - cbn [exec snd]. destruct (h !! a) as [o|] eqn:Ha; last first.
    { destruct t; simpl; unfold seq_append, bind, load, deref; by rewrite Ha. }
    rewrite (Sequence_add_Some _ _ _ t Ha). cbn [snd].
    apply rtc_once, edit_append; [done|].
    destruct t as [c|e]; [by left|]. right. simpl. by eexists.
  - rewrite exec_For_heap. destruct (h !! a) as [o|] eqn:Ha; last first.
    { unfold Sequence_for_, bind, load, deref. by rewrite Ha. }
    destruct (Hok a o Ha) as [_ (c & f & Hc & Hf)].
    pose proof (lookup_lt_Some _ _ _ Ha) as Hlt.
    rewrite (Sequence_for__Some _ _ _ _ _ arr Ha Hc Hf). cbn [snd].
    eapply rtc_l; [by eapply (edit_fields U h (_ctx o) c f); [..|do 3 right]|].
    eapply rtc_l.
    { eapply (edit_new_seq U _ (_ctx o)); [by eapply lookup_insert_self|done]. }
    apply rtc_once.
    pose proof (after_add_loop_lookup _ _ _ _ _ Ha Hc Hf) as Hafter.
    pose proof (edit_append U _ a _
      (IsForLoop {| _ix := {| ix_index := _loops f |};
                    _val := {| val_index := _loops f |};
                    for_loop := length h; _array := arr |}) Hafter) as Hedit.
    apply Hedit. right. simpl. intros r Hr%list_elem_of_singleton. subst r.
    rewrite length_app, length_insert. simpl. split; [lia|].
    eexists. split; [exact Hafter|]. simpl.
    apply list_lookup_middle. by rewrite length_insert.
  - cbn [exec snd]. destruct (h !! a) as [o|] eqn:Ha; last first.
    { unfold Sequence_if_, bind, load, deref. by rewrite Ha. }
    destruct (Hok a o Ha) as [_ (c & f & Hc & Hf)].
    pose proof (lookup_lt_Some _ _ _ Ha) as Hlt.
    rewrite (Sequence_if__Some _ _ _ cond Ha). cbn [snd].
    eapply rtc_l; [by eapply (edit_new_seq U h (_ctx o))|].
    eapply rtc_l.
    { eapply (edit_new_seq U _ (_ctx o)); [by apply lookup_app_l_Some|done]. }
    apply rtc_once, edit_append; [by do 2 apply lookup_app_l_Some|].
    right. simpl. intros r Hr. rewrite !length_app. simpl.
    apply elem_of_cons in Hr as [->|Hr%list_elem_of_singleton].
    + split; [lia|]. exists o. split; [by do 2 apply lookup_app_l_Some|].
      apply lookup_app_l_Some. by apply list_lookup_middle.
    + subst r. split; [lia|]. exists o. split; [by do 2 apply lookup_app_l_Some|].
      apply list_lookup_middle. rewrite length_app. simpl. lia.
  - cbn [exec snd]. destruct (h !! a) as [o|] eqn:Ha; last first.
    { unfold Sequence_while_, bind, load, deref. by rewrite Ha. }
    destruct (Hok a o Ha) as [_ (c & f & Hc & Hf)].
    pose proof (lookup_lt_Some _ _ _ Ha) as Hlt.
    rewrite (Sequence_while__Some _ _ _ cond Ha). cbn [snd].
    eapply rtc_l; [by eapply (edit_new_seq U h (_ctx o))|].
    apply rtc_once, edit_append; [by apply lookup_app_l_Some|].
    right. simpl. intros r Hr%list_elem_of_singleton. subst r.
    rewrite !length_app. simpl. split; [lia|].
    exists o. split; [by apply lookup_app_l_Some|]. by apply list_lookup_middle.
  - cbn [exec snd].
    destruct (fields_cases h a) as [(o & f & Ha & Hc & Hf)|[e He]]; last first.
    { unfold FnContext_add_arg. by rewrite (bind_Raise _ _ _ _ _ He). }
    destruct (decide (name ∈ _anames f)) as [Hin|Hnew].
    { by rewrite (add_arg_taken _ _ _ _ _ Ha Hc Hin). }
    rewrite (add_arg_fresh _ _ _ _ _ Ha Hc Hnew). cbn [snd].
    eapply edit_register; [done..| |done]. left. by exists name.
  - cbn [exec snd].
    destruct (fields_cases h a) as [(o & f & Ha & Hc & Hf)|[e He]]; last first.
    { unfold FnContext_add_key. by rewrite (bind_Raise _ _ _ _ _ He). }
    destruct (decide (name ∈ _knames f)) as [Hin|Hnew].
    { by rewrite (add_key_taken _ _ _ _ _ Ha Hc Hin). }
    rewrite (add_key_fresh _ _ _ _ _ Ha Hc Hnew). cbn [snd].
    eapply edit_register; [done..| |done]. right. left. by exists name.
  - cbn [exec snd].
    destruct (fields_cases h a) as [(o & f & Ha & Hc & Hf)|[e He]]; last first.
    { unfold FnContext_add_local. by rewrite (bind_Raise _ _ _ _ _ He). }
    rewrite (add_local_Some _ _ _ _ init Ha Hc). cbn [snd].
    eapply edit_register; [done..| |done]. right. right. left. by exists init.
  - cbn [exec snd]. destruct (h !! a) as [o|] eqn:Ha; last first.
    { destruct v; simpl; unfold seq_append, bind, load, deref; by rewrite Ha. }
    destruct v; cbn [FnContext_set_return_value];
      rewrite (Sequence_add_Some _ _ _ _ Ha); cbn [snd entry_of];
      (apply rtc_once, edit_append; [done|]); right; simpl; by eexists.
  - rewrite exec_AddLoop_heap.
    destruct (fields_cases h a) as [(o & f & Ha & Hc & Hf)|[e He]]; last first.
    { unfold FnContext_add_loop. by rewrite (bind_Raise _ _ _ _ _ He). }
    rewrite (FnContext_add_loop_Some _ _ _ _ Ha Hc). cbn [snd].
    apply rtc_once. eapply edit_fields; [done..|]. by do 3 right.
  - rewrite exec_NewForLoop_heap.
    destruct (fields_cases h a) as [(o & f & Ha & Hc & Hf)|[e He]]; last first.
    { unfold ForLoop_init, FnContext_add_loop, bind. by rewrite He. }
    rewrite (ForLoop_init_Some _ _ _ _ arr Ha Hc). cbn [snd].
    eapply rtc_l; [by eapply (edit_fields U h a o f); [..|do 3 right]|].
    apply rtc_once. eapply (edit_new_seq U _ a); [by eapply lookup_insert_self|done].
Qed.


(** *** The steps keep the invariants *)

Lemma fields_step_scope_inv (f f' : FnFields) :
  fields_step f f' → scope_inv f → scope_inv f'.
Proof.
  intros [(name & _ & ->)|[(name & _ & ->)|[(init & ->)| ->]]] Hinv.
  - by apply scope_inv_add_arg.
  - by apply scope_inv_add_key.
  - by apply (scope_inv_same_names f).
  - by apply (scope_inv_same_names f).
Qed.

Lemma edit_scopes_ok U (h h' : heap) : edit U h h' → scopes_ok h → scopes_ok h'.
Proof.
  intros [h0|h0 ctx c f Hc Hf|h0 a o c Ha _|h0 a o f f' Ha Hc Hstep] Hok.
  - by apply scopes_ok_snoc_scope.
  - by eapply scopes_ok_snoc_seq.
  - by apply scopes_ok_append.
  - apply (scopes_ok_insert _ _ o); [done..|]. right. exists f, f'.
    split; [done|]. split; [done|].
    apply (fields_step_scope_inv f); [done|]. by apply (Hok a o).
Qed.

Lemma rtc_edit_scopes_ok U (h h' : heap) :
  rtc (edit U) h h' → scopes_ok h → scopes_ok h'.
Proof. induction 1; eauto using edit_scopes_ok. Qed.

Lemma run_edits U calls : ∀ h : heap,
  scopes_ok h → Forall (user_nodes U) calls → rtc (edit U) h (run calls h).2.
Proof.
  induction calls as [|c calls IH]; intros h Hok Hcalls; [done|]. cbn [run].
  apply Forall_cons in Hcalls as [Hc Hcalls].
  pose proof (exec_edits U c h Hok Hc) as Hstep.
  destruct (exec c h) as [log h']. cbn [snd] in Hstep.
  specialize (IH h' (rtc_edit_scopes_ok _ _ _ Hstep Hok) Hcalls).
  destruct (run calls h') as [logs h'']. by etrans.
Qed.

(** A property of heaps that every step keeps holds after every run
    that starts where it holds. *)
Lemma run_invariant U (P : heap → Prop) calls (h : heap) :
  (∀ h1 h2 : heap, edit U h1 h2 → scopes_ok h1 → P h1 → P h2) →
  scopes_ok h → P h → Forall (user_nodes U) calls → P (run calls h).2.
Proof.
  intros Hedit Hok HP Hcalls.
  pose proof (run_edits U calls h Hok Hcalls) as Hrtc.
  induction Hrtc as [h0|h0 h1 h2 Hstep _ IH]; [done|].
  apply IH; [by eapply edit_scopes_ok|by eapply Hedit].
Qed.

Lemma user_nodes_True calls : Forall (user_nodes (E := E) (λ _, True)) calls.
Proof. apply Forall_forall. intros [] _; simpl; try done. by destruct term. Qed.

Lemma scopes_ok_nil : scopes_ok (E := E) [].
Proof. by intros a o Ha. Qed.

Lemma run_app calls1 calls2 : ∀ h : heap,
  (run (calls1 ++ calls2) h).2 = (run calls2 (run calls1 h).2).2.
Proof.
  induction calls1 as [|c calls1 IH]; intros h; [done|]. cbn [run app].
  destruct (exec c h) as [log h']. specialize (IH h').
  destruct (run (calls1 ++ calls2) h') as [logs h2].
  by destruct (run calls1 h') as [logs1 h1].
Qed.

(** *** Nothing is taken back *)

Lemma fields_grow_refl f : fields_grow f f.
Proof. by repeat split. Qed.

Lemma class_grows_refl k : class_grows k k.
Proof. destruct k; simpl; [done..|apply fields_grow_refl]. Qed.

Lemma class_grows_trans k1 k2 k3 :
  class_grows k1 k2 → class_grows k2 k3 → class_grows k1 k3.
Proof.
  destruct k1, k2, k3; simpl; try done.
  intros (Ha & Hk & Hl & Hn) (Ha' & Hk' & Hl' & Hn').
  repeat split; [by etrans..|lia].
Qed.

Lemma heap_grows_refl (h : heap) : heap_grows h h.
Proof.
  intros a o Ha. exists o. split; [done|]. split; [done|].
  split; [done|apply class_grows_refl].
Qed.

Lemma heap_grows_trans (h1 h2 h3 : heap) :
  heap_grows h1 h2 → heap_grows h2 h3 → heap_grows h1 h3.
Proof.
  intros H12 H23 a o Ha.
  destruct (H12 a o Ha) as (o2 & Ha2 & Hctx2 & Hseq2 & Hcls2).
  destruct (H23 a o2 Ha2) as (o3 & Ha3 & Hctx3 & Hseq3 & Hcls3).
  exists o3. split; [done|]. split; [congruence|].
  split; [by etrans|by eapply class_grows_trans].
Qed.

Lemma heap_grows_snoc (h : heap) o : heap_grows h (h ++ [o]).
Proof.
  intros a oa Ha. exists oa. split; [by apply lookup_app_l_Some|].
  split; [done|]. split; [done|apply class_grows_refl].
Qed.

Lemma heap_grows_insert (h : heap) a o o' :
  h !! a = Some o → _ctx o' = _ctx o → _seq o `prefix_of` _seq o' →
  class_grows (cls o) (cls o') → heap_grows h (<[a := o']> h).
Proof.
  intros Ha Hctx Hseq Hcls b ob Hb. destruct (decide (b = a)) as [->|Hne].
  - exists o'. rewrite (lookup_insert_self _ _ _ _ Ha).
    assert (ob = o) as -> by congruence. done.
  - exists ob. rewrite list_lookup_insert_ne by done.
    split; [done|]. split; [done|]. split; [done|apply class_grows_refl].
Qed.

Lemma fields_step_grow f f' : fields_step f f' → fields_grow f f'.
Proof.
  intros [(name & _ & ->)|[(name & _ & ->)|[(init & ->)| ->]]];
    repeat split; simpl; try done; try (by apply prefix_app_r); lia.
Qed.

Lemma edit_grows U (h h' : heap) : edit U h h' → heap_grows h h'.
Proof.
  intros [h0|h0 ctx c f Hc Hf|h0 a o c Ha _|h0 a o f f' Ha Hc Hstep].
  - apply heap_grows_snoc.
  - apply heap_grows_snoc.
  - apply (heap_grows_insert _ _ o); [done|done|by apply prefix_app_r|].
    apply class_grows_refl.
  - apply (heap_grows_insert _ _ o); [done|done|done|].
    simpl. rewrite Hc. by apply fields_step_grow.
Qed.

Lemma rtc_edit_grows U (h h' : heap) : rtc (edit U) h h' → heap_grows h h'.
Proof.
  induction 1 as [h0|h0 h1 h2 Hstep _ IH]; [apply heap_grows_refl|].
  eapply heap_grows_trans; [by eapply edit_grows|done].
Qed.

(** X3. Whatever a program of builder calls does after some first
    calls, every sequence and scope those calls made is still there
    afterwards, at its address, in the same scope and of the same class;
    the entries it had are the first of the entries it has, in their
    order, and so are the registered arguments, keys and local
    variables of a scope; a loop counter never goes down. *)
Theorem builder_only_adds (calls more : list Call) :
  heap_grows (run calls []).2 (run (calls ++ more) []).2 ∧
  length (run calls []).2 ≤ length (run (calls ++ more) []).2.
Proof.
  assert (Hgrows : heap_grows (run calls []).2 (run (calls ++ more) []).2).
  { rewrite run_app. eapply rtc_edit_grows, run_edits.
    - apply run_scopes_ok, scopes_ok_nil.
    - apply user_nodes_True. }
  split; [done|].
  destruct (run calls []).2 as [|o h] eqn:Hh using rev_ind; [simpl; lia|].
  destruct (Hgrows (length h) o) as (o' & Ho' & _).
  { by apply list_lookup_middle. }
  apply lookup_lt_Some in Ho'. rewrite length_app. simpl. lia.
Qed.


(** *** Registered names *)

Lemma declared_ok_init : declared_ok FnContext_fields0.
Proof. repeat split; simpl; try constructor; intros; done. Qed.

Lemma NoDup_snoc_names {A} (l : list (string * A)) name x :
  NoDup (map fst l) → name ∉ map fst l → NoDup (map fst (l ++ [(name, x)])).
Proof.
  intros Hl Hnew. rewrite map_app. apply NoDup_app. split; [done|].
  split; [|apply NoDup_singleton].
  intros n Hn [->|[]%elem_of_nil]%elem_of_cons. done.
Qed.

Lemma fields_step_declared f f' :
  fields_step f f' → scope_inv f → declared_ok f → declared_ok f'.
Proof.
  intros Hstep Hinv (Hargs & Hkeys & Hai & Hki & Hli).
  destruct Hstep as [(name & Hnew & ->)|[(name & Hnew & ->)|[(init & ->)| ->]]];
    unfold declared_ok; simpl.
  - split; [|split; [done|split; [|done]]].
    + apply NoDup_snoc_names; [done|]. intros Hin. by apply Hnew, scope_inv_anames.
    + intros i n a Hi. apply lookup_snoc_inv in Hi as [Hi|[-> [= -> ->]]];
        [by apply (Hai i n a)|done].
  - split; [done|split; [|split; [done|split; [|done]]]].
    + apply NoDup_snoc_names; [done|]. intros Hin. by apply Hnew, scope_inv_knames.
    + intros i n k Hi. apply lookup_snoc_inv in Hi as [Hi|[-> [= -> ->]]];
        [by apply (Hki i n k)|done].
  - do 4 (split; [done|]).
    intros i l Hl. apply lookup_snoc_inv in Hl as [Hl|[-> ->]]; [by apply Hli|done].
  - done.
Qed.

Lemma edit_declared U (h h' : heap) :
  edit U h h' → scopes_ok h → declared_heap h → declared_heap h'.
Proof.
  intros [h0|h0 ctx c f Hc Hf|h0 a o c Ha _|h0 a o f f' Ha Hc Hstep] Hok Hdecl b ob fb Hb Hfb.
  - apply lookup_snoc_inv in Hb as [Hb|[-> ->]]; [by eapply Hdecl|].
    injection Hfb as <-. apply declared_ok_init.
  - apply lookup_snoc_inv in Hb as [Hb|[-> ->]]; [by eapply Hdecl|done].
  - destruct (decide (b = a)) as [->|Hne].
    + rewrite (lookup_insert_self _ _ _ _ Ha) in Hb. injection Hb as <-.
      by eapply (Hdecl a o).
    + rewrite list_lookup_insert_ne in Hb by done. by eapply Hdecl.
  - destruct (decide (b = a)) as [->|Hne].
    + rewrite (lookup_insert_self _ _ _ _ Ha) in Hb. injection Hb as <-.
      simpl in Hfb. injection Hfb as <-.
      apply (fields_step_declared f); [done| |by eapply Hdecl].
      by apply (Hok a o).
    + rewrite list_lookup_insert_ne in Hb by done. by eapply Hdecl.
Qed.

Lemma Sequence_compile_script d (h : heap) a o f r :
  h !! a = Some o → cls o = FnContext_cls f →
  Sequence_compile d h a = Ok r →
  ∃ cmds, get_cmds d h a = Ok cmds ∧
          r = ScriptObj cmds (map fst (_args f)) (map fst (_keys f)).
Proof.
  intros Ha Hf. unfold Sequence_compile, Sequence_compile_with, get_cmds.
  rewrite (deref_Some _ _ _ Ha). cbn [rbind]. rewrite Hf.
  destruct (get_cmds_with _ h a) as [cmds|]; [|done]. intros [= <-]. by exists cmds.
Qed.

(** *** Compiling what the builder made *)

Lemma comprehension_total {A B} (f : A → result B) l :
  (∀ x, x ∈ l → ∃ y, f x = Ok y) →
  ∃ ys, comprehension f l = Ok ys ∧ length ys = length l.
Proof.
  induction l as [|x l IH]; intros Hf; [by exists []|].
  destruct (Hf x) as [y Hy]; [by left|].
  destruct IH as (ys & Hys & Hlen); [intros z Hz; apply Hf; by right|].
  exists (y :: ys). simpl. rewrite Hy, Hys. simpl. by rewrite Hlen.
Qed.

Lemma edit_compilable U (h h' : heap) :
  (∀ c, U c → returning_helper c) →
  edit U h h' → compilable_heap h → compilable_heap h'.
Proof.
  intros HU [h0|h0 ctx c f Hc Hf|h0 a o c Ha Hnode|h0 a o f f' Ha Hc Hstep] Hcomp b ob Hb.
  - apply lookup_snoc_inv in Hb as [Hb|[-> ->]]; [by apply (Hcomp b)|].
    split; [done|]. by intros fun_ Hin%elem_of_nil.
  - apply lookup_snoc_inv in Hb as [Hb|[-> ->]]; [by apply (Hcomp b)|].
    split; [done|]. by intros fun_ Hin%elem_of_nil.
  - destruct (decide (b = a)) as [->|Hne].
    + rewrite (lookup_insert_self _ _ _ _ Ha) in Hb. injection Hb as <-.
      destruct (Hcomp a o Ha) as [Hcls Hhelpers]. split; [done|].
      intros fun_ [Hin|Hin%list_elem_of_singleton]%elem_of_app; [by apply Hhelpers|].
      subst c. destruct Hnode as [(fun' & cmd & [= <-] & Hcmd)%HU|Hbuilt].
      * by exists cmd.
      * done.
    + rewrite list_lookup_insert_ne in Hb by done. by apply (Hcomp b).
  - destruct (decide (b = a)) as [->|Hne].
    + rewrite (lookup_insert_self _ _ _ _ Ha) in Hb. injection Hb as <-.
      split; [done|]. by apply (Hcomp a o).
    + rewrite list_lookup_insert_ne in Hb by done. by apply (Hcomp b).
Qed.

(** In a well-formed heap without a plain [Sequence] and without a
    failing [CmdHelper], a sequence compiles as soon as the depth
    covers the addresses after it. *)
Lemma compile_total (h : heap) :
  well_formed h → compilable_heap h →
  ∀ d a o, h !! a = Some o → length h - a ≤ d →
    ∃ cmds, length cmds = length (_seq o) ∧
      Sequence_compile d h a =
        Ok match cls o with
           | FnContext_cls f => ScriptObj cmds (map fst (_args f)) (map fst (_keys f))
           | _ => SeqObj cmds
           end.
Proof.
  intros Hwf Hcomp. induction d as [|d IH]; intros a o Ha Hd.
  { apply lookup_lt_Some in Ha. lia. }
  destruct (Hwf a o Ha) as [_ Hch]. destruct (Hcomp a o Ha) as [Hcls Hhelpers].
  destruct (comprehension_total (Compilable_compile (S d) h) (_seq o))
    as (cmds & Hcmds & Hlen).
  { intros c Hc.
    assert (Hsub : ∀ r, r ∈ children c → ∃ obj, Sequence_compile d h r = Ok obj).
    { intros r Hr. destruct (Hch c r Hc Hr) as [Hlo Hhi].
      destruct (lookup_lt_is_Some_2 h r Hhi) as [ob Hob].
      destruct (IH r ob Hob) as (cmds & _ & Hcompile); [lia|]. by eexists. }
    destruct c as [fun_|b|l|w].
    - by apply Hhelpers.
    - rewrite compile_Branch.
      destruct (Hsub (_success b)) as [s ->]; [simpl; set_solver|].
      destruct (Hsub (_failure b)) as [t ->]; [simpl; set_solver|]. by eexists.
    - rewrite compile_ForLoop.
      destruct (Hsub (for_loop l)) as [s ->]; [simpl; set_solver|]. by eexists.
    - rewrite compile_WhileLoop.
      destruct (Hsub (while_loop w)) as [s ->]; [simpl; set_solver|]. by eexists. }
  exists cmds. split; [done|].
  unfold Sequence_compile, Sequence_compile_with, get_cmds_with.
  rewrite (deref_Some _ _ _ Ha). cbn [rbind]. rewrite Hcmds.
  by destruct (cls o).
Qed.

Lemma returning_helper_api call : user_nodes returning_helper call → api_call call.
Proof.
  destruct call as [|a [[]|]| | | | | | | | |]; simpl; try done;
    by intros (fun' & cmd & [=] & _).
Qed.

(** X6. In the heap any program of builder calls leaves, a script scope
    has no argument name twice and no key name twice, the argument, key
    and local variable registered at a position carry that position as
    their index (and their name), so that the index of a variable is the
    place of its name among the registered names.  What the scope
    compiles to is, at every depth, the script node around its commands
    with the argument names and the key names in the order of their
    registration; and when the program made its control-flow nodes with
    [if_], [while_] and [for_] and handed helpers that return to [add],
    [compile] does return that node once the depth covers the heap. *)
Theorem registered_variables_keep_their_place (calls : list Call)
    (a : addr) (o : Object) (f : FnFields) :
  (run calls []).2 !! a = Some o → cls o = FnContext_cls f →
  NoDup (map fst (_args f)) ∧ NoDup (map fst (_keys f)) ∧
  (∀ i n v, _args f !! i = Some (n, v) → arg_name v = n ∧ arg_index v = i) ∧
  (∀ i n v, _keys f !! i = Some (n, v) → key_name v = n ∧ key_index v = i) ∧
  (∀ i v, _locals f !! i = Some v → local_index v = i) ∧
  (∀ n v, (n, v) ∈ _args f → map fst (_args f) !! arg_index v = Some n) ∧
  (∀ n v, (n, v) ∈ _keys f → map fst (_keys f) !! key_index v = Some n) ∧
  (∀ d, Sequence_compile d (run calls []).2 a =
        let* cmds := get_cmds d (run calls []).2 a in
        Ok (ScriptObj cmds (map fst (_args f)) (map fst (_keys f)))) ∧
  (Forall (user_nodes returning_helper) calls →
   ∀ d, length (run calls []).2 ≤ d →
     ∃ cmds, length cmds = length (_seq o) ∧
       Sequence_compile d (run calls []).2 a =
         Ok (ScriptObj cmds (map fst (_args f)) (map fst (_keys f)))).
Proof.
  intros Ha Hf.
  assert (Hdecl : declared_heap (run calls []).2).
  { apply (run_invariant (λ _, True)).
    - intros h1 h2. apply edit_declared.
    - apply scopes_ok_nil.
    - by intros b ob fb Hb.
    - apply user_nodes_True. }
  destruct (Hdecl a o f Ha Hf) as (Hargs & Hkeys & Hai & Hki & Hli).
  do 5 (split; [done|]). split; [|split; [|split]].
  - intros n v [i Hi]%list_elem_of_lookup. destruct (Hai i n v Hi) as [_ ->].
    by rewrite list_lookup_fmap, Hi.
  - intros n v [i Hi]%list_elem_of_lookup. destruct (Hki i n v Hi) as [_ ->].
    by rewrite list_lookup_fmap, Hi.
  - intros d. unfold Sequence_compile, Sequence_compile_with, get_cmds.
    rewrite (deref_Some _ _ _ Ha). cbn [rbind]. by rewrite Hf.
  - intros Hcalls d Hd.
    assert (Hwf : well_formed (run calls []).2).
    { apply run_well_formed; [|by intros b ob Hb].
      eapply Forall_impl; [exact Hcalls|]. apply returning_helper_api. }
    assert (Hcomp : compilable_heap (run calls []).2).
    { apply (run_invariant returning_helper).
      - intros h1 h2 Hedit _. by apply (edit_compilable returning_helper).
      - apply scopes_ok_nil.
      - by intros b ob Hb.
      - done. }
    destruct (compile_total _ Hwf Hcomp d a o Ha) as (cmds & Hlen & Hcompile); [lia|].
    exists cmds. split; [done|]. by rewrite Hcompile, Hf.
Qed.

(** X2. A program that makes its control-flow nodes with [if_],
    [while_] and [for_], and hands to [add] expressions and helpers
    that return, leaves a heap in which every sequence compiles: with a
    depth of the number of objects or more, [compile] returns a script
    with the scope's argument and key names for a script scope, a plain
    sequence for the others, with one command for each entry. *)
Theorem built_sequences_compile (calls : list Call) (a : addr) (o : Object) (d : nat) :
  Forall (user_nodes returning_helper) calls →
  (run calls []).2 !! a = Some o →
  length (run calls []).2 ≤ d →
  ∃ cmds, length cmds = length (_seq o) ∧
    get_cmds d (run calls []).2 a = Ok cmds ∧
    Sequence_compile d (run calls []).2 a =
      Ok match cls o with
         | FnContext_cls f => ScriptObj cmds (map fst (_args f)) (map fst (_keys f))
         | _ => SeqObj cmds
         end.
Proof.
  intros Hcalls Ha Hd.
  assert (Hwf : well_formed (run calls []).2).
  { apply run_well_formed; [|by intros b ob Hb].
    eapply Forall_impl; [exact Hcalls|]. apply returning_helper_api. }
  assert (Hcomp : compilable_heap (run calls []).2).
  { apply (run_invariant returning_helper).
    - intros h1 h2 Hedit _. by apply (edit_compilable returning_helper).
    - apply scopes_ok_nil.
    - by intros b ob Hb.
    - done. }
  destruct (compile_total _ Hwf Hcomp d a o Ha) as (cmds & Hlen & Hcompile); [lia|].
  exists cmds. split; [done|]. split; [|done].
  revert Hcompile. unfold Sequence_compile, Sequence_compile_with, get_cmds.
  rewrite (deref_Some _ _ _ Ha). cbn [rbind].
  destruct (Hcomp a o Ha) as [Hcls _].
  destruct (cls o); [done|..]; destruct (get_cmds_with _ _ a); simpl; congruence.
Qed.

(** *** A node inside its own child sequence *)

(** X9. A control-flow node that is the first entry of its own first
    child sequence does not compile: at every depth, [compile] ends in
    a [RecursionError]; so does the compilation of any sequence it is
    the first entry of. *)
Theorem node_in_its_own_sequence (h : heap) (c : Compilable) (r : addr)
    (o : Object) (rest : list Compilable) :
  head (children c) = Some r → h !! r = Some o →
  _seq o = c :: rest → cls o ≠ Sequence_cls →
  (∀ d, Compilable_compile d h c = Raise RecursionError) ∧
  (∀ d, Sequence_compile d h r = Raise RecursionError) ∧
  (∀ d a oa more, h !! a = Some oa → _seq oa = c :: more → cls oa ≠ Sequence_cls →
     Sequence_compile d h a = Raise RecursionError).
Proof.
  intros Hr Ho Hseq Hcls.
  assert (Hseqs : ∀ d a oa more,
            Compilable_compile d h c = Raise RecursionError →
            h !! a = Some oa → _seq oa = c :: more → cls oa ≠ Sequence_cls →
            Sequence_compile d h a = Raise RecursionError).
  { intros d a oa more Hc Ha Hoa Hk.
    unfold Sequence_compile, Sequence_compile_with, get_cmds_with.
    rewrite (deref_Some _ _ _ Ha). cbn [rbind]. rewrite Hoa. cbn [comprehension].
    rewrite Hc. by destruct (cls oa). }
  assert (Hnode : ∀ d, Compilable_compile d h c = Raise RecursionError).
  { induction d as [|d IH]; [done|].
    specialize (Hseqs d r o rest IH Ho Hseq Hcls).
    destruct c as [fun_|b|l|w]; simpl in Hr; [done|..]; injection Hr as <-.
    - by rewrite compile_Branch, Hseqs.
    - by rewrite compile_ForLoop, Hseqs.
    - by rewrite compile_WhileLoop, Hseqs. }
  split; [done|]. split; [intros d; by eapply Hseqs|].
  intros d a oa more. by apply Hseqs.
Qed.


(** *** Local variables *)

Lemma add_locals_Some inits : ∀ (h : heap) self o f,
  h !! self = Some o → cls o = FnContext_cls f →
  ∃ h' o' f',
    add_locals self inits h =
      (Ok (zip_with (λ init i, {| local_init := init; local_index := i |}) inits
             (seq (length (_locals f)) (length inits))), h') ∧
    h' !! self = Some o' ∧ cls o' = FnContext_cls f' ∧
    _locals f' = _locals f ++
      zip_with (λ init i, {| local_init := init; local_index := i |}) inits
        (seq (length (_locals f)) (length inits)) ∧
    _args f' = _args f ∧ _keys f' = _keys f ∧ _loops f' = _loops f ∧
    length (_seq o') = length (_seq o) + length inits.
Proof.
  induction inits as [|init inits IH]; intros h self o f Ha Hc.
  - exists h, o, f. simpl. rewrite app_nil_r. repeat split; try done; lia.
  - cbn [add_locals]. rewrite (bind_Ok _ _ _ _ _ (add_local_Some _ _ _ _ init Ha Hc)).
    set (local := {| local_init := init; local_index := length (_locals f) |}).
    set (o1 := {| _ctx := _ctx o;
                  _seq := _seq o ++ [CmdHelper (LocalVariable_get_declare local)];
                  cls := FnContext_cls (locals_append local f) |}).
    destruct (IH (<[self := o1]> h) self o1 (locals_append local f)
                (lookup_insert_self _ _ _ _ Ha) eq_refl) as
      (h' & o' & f' & Hrun & Ha' & Hc' & Hlocals & Hargs & Hkeys & Hloops & Hlen).
    rewrite (bind_Ok _ _ _ _ _ Hrun). simpl in *.
    rewrite length_app in *. simpl in *.
    replace (length (_locals f) + 1) with (S (length (_locals f))) in * by lia.
    exists h', o', f'. split; [done|]. split; [done|]. split; [done|].
    split; [by rewrite Hlocals, <- app_assoc|]. repeat split; try done; lia.
Qed.

(** X7. On a script scope [add_local] never fails: the variable it
    returns has the number of the local variables registered before as
    its index, whatever arguments, keys and loops the scope has, so that
    successive calls number the variables from there on; the arguments,
    the keys and the loop counter stay as they are and the scope gets
    one declaration more.  On a sequence that is not a script scope the
    call fails and changes nothing. *)
Theorem add_local_indices (h : heap) (self : addr) (o : Object) (f : FnFields) :
  h !! self = Some o → cls o = FnContext_cls f →
  (∀ init,
     let local := {| local_init := init; local_index := length (_locals f) |} in
     FnContext_add_local self init h =
       (Ok local,
        <[self := {| _ctx := _ctx o;
                     _seq := _seq o ++ [CmdHelper (LocalVariable_get_declare local)];
                     cls := FnContext_cls (locals_append local f) |}]> h) ∧
     ∀ d, Compilable_compile (S d) h (CmdHelper (LocalVariable_get_declare local)) =
            Ok (DeclareObj (local_declare init (length (_locals f))))) ∧
  (∀ inits, ∃ h' o' f',
     add_locals self inits h =
       (Ok (zip_with (λ init i, {| local_init := init; local_index := i |}) inits
              (seq (length (_locals f)) (length inits))), h') ∧
     h' !! self = Some o' ∧ cls o' = FnContext_cls f' ∧
     length (_locals f') = length (_locals f) + length inits ∧
     _args f' = _args f ∧ _keys f' = _keys f ∧ _loops f' = _loops f ∧
     length (_seq o') = length (_seq o) + length inits) ∧
  (∀ (h0 : heap) a o0 init, h0 !! a = Some o0 → cls o0 = Seq_cls →
     FnContext_add_local a init h0 = (Raise AttributeError, h0)).
Proof.
  intros Ha Hc. split; [|split].
  - intros init local. split; [by apply add_local_Some|done].
  - intros inits.
    destruct (add_locals_Some inits h self o f Ha Hc)
      as (h' & o' & f' & Hrun & Ha' & Hc' & Hlocals & Hargs & Hkeys & Hloops & Hlen).
    exists h', o', f'. repeat split; try done.
    rewrite Hlocals, length_app, length_zip_with, length_seq. lia.
  - intros h0 a o0 init Ha0 Hc0.
    unfold FnContext_add_local, fields, bind. by rewrite (load_Some _ _ _ Ha0), Hc0.
Qed.

(** *** [is_empty] *)

(** X12. [is_empty] leaves the heap as it is and answers whether the
    sequence has no entry: it is true exactly when [get_cmds] returns
    the empty list.  A sequence is not empty after an [add], nor after
    an [if_], whose two new sequences are empty. *)
Theorem is_empty_iff_no_commands (h : heap) (self : addr) (o : Object) :
  h !! self = Some o →
  Sequence_is_empty self h = (Ok (bool_decide (_seq o = [])), h) ∧
  (∀ d, Sequence_is_empty self h = (Ok true, h) ↔ get_cmds d h self = Ok []) ∧
  (∀ t, (do _ <~ Sequence_add self t; Sequence_is_empty self) h =
          (Ok false, (Sequence_add self t h).2)) ∧
  (∀ cond, ∃ s f h1,
     Sequence_if_ self cond h = (Ok (s, f), h1) ∧
     Sequence_is_empty self h1 = (Ok false, h1) ∧
     Sequence_is_empty s h1 = (Ok true, h1) ∧
     Sequence_is_empty f h1 = (Ok true, h1)).
Proof.
  intros Ha.
  assert (Hempty : ∀ (h0 : heap) a oa, h0 !! a = Some oa →
            Sequence_is_empty a h0 = (Ok (bool_decide (_seq oa = [])), h0)).
  { intros h0 a oa Hoa. unfold Sequence_is_empty.
    rewrite (bind_Ok _ _ _ _ _ (load_Some _ _ _ Hoa)). by destruct (_seq oa). }
  split; [by apply Hempty|]. split; [|split].
  - intros d. rewrite (Hempty _ _ _ Ha), (get_cmds_Some _ _ _ _ Ha).
    destruct (_seq o) as [|c l]; [done|]. split; [done|]. simpl.
    destruct (Compilable_compile d h c); [|done]. simpl.
    by destruct (comprehension _ l).
  - intros t. rewrite (bind_Ok _ _ _ _ _ (Sequence_add_Some _ _ _ t Ha)).
    erewrite Hempty by (by eapply lookup_insert_self). cbn [snd]. simpl.
    rewrite (Sequence_add_Some _ _ _ t Ha). by destruct (_seq o).
  - intros cond. pose proof (lookup_lt_Some _ _ _ Ha) as Hlt.
    eexists _, _, _. split; [by apply Sequence_if__Some|].
    split; [|split].
    + erewrite Hempty; last first.
      { eapply lookup_insert_self. by do 2 apply lookup_app_l_Some. }
      simpl. by destruct (_seq o).
    + erewrite Hempty; last first.
      { rewrite list_lookup_insert_ne by lia.
        rewrite lookup_app_l by (rewrite length_app; simpl; lia).
        by apply list_lookup_middle. }
      done.
    + erewrite Hempty; last first.
      { rewrite list_lookup_insert_ne by lia.
        apply list_lookup_middle. rewrite length_app. simpl. lia. }
      done.
Qed.

(** *** The loops compile their body *)

(** X10. A for loop compiles to its array, the references of its two
    variables and the compiled body, and a while loop to its condition
    and the compiled body, exactly when the body compiles; an error of
    the body is the error of the loop.  A loop that was just created
    compiles with an empty body. *)
Theorem loops_compile_their_body (d : nat) (h : heap) :
  (∀ l cmd,
     Compilable_compile (S d) h (IsForLoop l) = Ok cmd ↔
     ∃ body, Sequence_compile d h (for_loop l) = Ok body ∧
       cmd = ForObj (Expr_compile (_array l)) (IndexVariable_get_index_ref (_ix l))
               (ValueVariable_get_var_ref (_val l)) body) ∧
  (∀ w cmd,
     Compilable_compile (S d) h (IsWhileLoop w) = Ok cmd ↔
     ∃ body, Sequence_compile d h (while_loop w) = Ok body ∧
       cmd = WhileObj (Expr_compile (while_condition w)) body) ∧
  (∀ l e, Sequence_compile d h (for_loop l) = Raise e →
     Compilable_compile (S d) h (IsForLoop l) = Raise e) ∧
  (∀ w e, Sequence_compile d h (while_loop w) = Raise e →
     Compilable_compile (S d) h (IsWhileLoop w) = Raise e) ∧
  (∀ ctx c f array, h !! ctx = Some c → cls c = FnContext_cls f →
     ∃ l h1, ForLoop_init ctx array h = (Ok l, h1) ∧
       Compilable_compile (S d) h1 (IsForLoop l) =
         Ok (ForObj (Expr_compile array)
               {| index_name := "ix_" +:+ pretty (_loops f) |}
               {| var_name := "val_" +:+ pretty (_loops f) |} (SeqObj []))) ∧
  (∀ ctx cond, ∃ w h1, WhileLoop_init ctx cond h = (Ok w, h1) ∧
     Compilable_compile (S d) h1 (IsWhileLoop w) =
       Ok (WhileObj (Expr_compile (lit_helper cond)) (SeqObj []))).
Proof.
  assert (Hnew : ∀ (h0 : heap) ctx,
            Sequence_compile d (h0 ++ [new_seq ctx]) (length h0) = Ok (SeqObj [])).
  { intros h0 ctx. eapply Sequence_compile_Seq; [by apply list_lookup_middle|done..]. }
  split; [|split; [|split; [|split; [|split]]]].
  - intros l cmd. rewrite compile_ForLoop.
    destruct (Sequence_compile d h (for_loop l)) as [body|e]; simpl.
    + split; [intros [= <-]; by exists body | by intros (b & [= <-] & ->)].
    + split; [done | by intros (b & [=] & _)].
  - intros w cmd. rewrite compile_WhileLoop.
    destruct (Sequence_compile d h (while_loop w)) as [body|e]; simpl.
    + split; [intros [= <-]; by exists body | by intros (b & [= <-] & ->)].
    + split; [done | by intros (b & [=] & _)].
  - intros l e He. by rewrite compile_ForLoop, He.
  - intros w e He. by rewrite compile_WhileLoop, He.
  - intros ctx c f array Hc Hf. eexists _, _.
    split; [by apply (ForLoop_init_Some _ _ _ _ array Hc Hf)|].
    rewrite compile_ForLoop. cbn [for_loop].
    replace (length h) with (length (<[ctx := set_cls c (FnContext_cls (loops_incr f))]> h))
      by apply length_insert.
    by rewrite Hnew.
  - intros ctx cond. eexists _, _. split; [by apply WhileLoop_init_eq|].
    rewrite compile_WhileLoop. cbn [while_loop]. by rewrite Hnew.
Qed.

(** *** [set_return_value] *)


(** *** The references of the loop variables *)

Lemma ref_names_differ (i j : nat) :
  ("ix_" +:+ pretty i : string) ≠ "val_" +:+ pretty j.
Proof. done. Qed.

Lemma index_ref_inj (i j : nat) :
  ("ix_" +:+ pretty i : string) = "ix_" +:+ pretty j → i = j.
Proof. intros [= Heq]. by apply (inj pretty). Qed.

Lemma var_ref_inj (i j : nat) :
  ("val_" +:+ pretty i : string) = "val_" +:+ pretty j → i = j.
Proof. intros [= Heq]. by apply (inj pretty). Qed.

(** The names the two variables of a loop are referred to by. *)
Lemma loop_names_NoDup (loops : list (IndexVariable * ValueVariable)) :
  Forall (λ l, val_index l.2 = ix_index l.1) loops →
  NoDup (map (λ l, ix_index l.1) loops) →
  NoDup (loops ≫= λ l, [ref_name (IndexVariable_get_ref l.1);
                        ref_name (ValueVariable_get_ref l.2)]).
Proof.
  induction loops as [|[ix val] loops IH]; intros Hone Hids; [constructor|].
  apply Forall_cons in Hone as [Hval Hone]. apply NoDup_cons in Hids as [Hnew Hids].
  simpl in Hval, Hnew.
  assert (Hin : ∀ name,
            name ∈ (loops ≫= λ l, [ref_name (IndexVariable_get_ref l.1);
                                   ref_name (ValueVariable_get_ref l.2)]) →
            ∃ l, l ∈ loops ∧
                 (name = "ix_" +:+ pretty (ix_index l.1) ∨
                  name = "val_" +:+ pretty (ix_index l.1))).
  { intros name (l & Hname & Hl)%list_elem_of_bind. exists l. split; [done|].
    rewrite Forall_forall in Hone. pose proof (Hone l Hl) as Hl1.
    apply elem_of_cons in Hname as [->|Hname%list_elem_of_singleton]; [by left|].
    right. subst name. simpl. unfold ValueVariable_get_var_ref. simpl. by rewrite Hl1. }
  assert (Hfresh : ∀ l, l ∈ loops → ix_index l.1 ≠ ix_index ix).
  { intros l Hl Heq. apply Hnew. rewrite <- Heq.
    by apply (list_elem_of_fmap_2 (λ l, ix_index l.1)). }
  change (NoDup (ref_name (IndexVariable_get_ref ix)
                 :: ref_name (ValueVariable_get_ref val)
                 :: (loops ≫= λ l, [ref_name (IndexVariable_get_ref l.1);
                                    ref_name (ValueVariable_get_ref l.2)]))).
  apply NoDup_cons. split; [|apply NoDup_cons; split; [|by apply IH]].
  - intros [Heq|(l & Hl & [Heq|Heq])%Hin]%elem_of_cons.
    + by apply ref_names_differ in Heq.
    + apply index_ref_inj in Heq. by destruct (Hfresh l Hl).
    + by apply ref_names_differ in Heq.
  - intros (l & Hl & [Heq|Heq])%Hin.
    + symmetry in Heq. by apply ref_names_differ in Heq.
    + simpl in Heq. unfold ValueVariable_get_var_ref in Heq. simpl in Heq.
      rewrite Hval in Heq. apply var_ref_inj in Heq. by destruct (Hfresh l Hl).
Qed.

(** X8. The names by which the variables of the for loops of one script
    scope are referred to in the compiled script are all different:
    neither two loops nor the index and the value of one loop share a
    name; and the reference of an index variable is never that of a
    value variable. *)
Theorem loop_references_are_distinct (calls : list Call) (c : addr) :
  let loops := loops_of (events_in c (run calls []).1) in
  NoDup (loops ≫= λ l, [ref_name (IndexVariable_get_ref l.1);
                        ref_name (ValueVariable_get_ref l.2)]) ∧
  NoDup (loops ≫= λ l, [IndexVariable_get_ref l.1; ValueVariable_get_ref l.2]) ∧
  (∀ ix ix', IndexVariable_get_ref ix = IndexVariable_get_ref ix' → ix = ix') ∧
  (∀ val val', ValueVariable_get_ref val = ValueVariable_get_ref val' → val = val') ∧
  (∀ ix val, IndexVariable_get_ref ix ≠ ValueVariable_get_ref val ∧
             ref_name (IndexVariable_get_ref ix) ≠ ref_name (ValueVariable_get_ref val)).
Proof.
  intros loops.
  destruct (run_event_ids calls [] c) as (Hseq & Hones & _).
  destruct (loop_ids_sorted _ 0 Hseq) as [_ Hsorted].
  pose proof (loop_names_NoDup loops (loops_of_one_id _ Hones)
                (StronglySorted_lt_NoDup _ Hsorted)) as Hnames.
  split; [done|]. split; [|split; [|split]].
  - apply (NoDup_fmap_1 ref_name).
    replace (ref_name <$> (loops ≫= λ l, [IndexVariable_get_ref l.1;
                                          ValueVariable_get_ref l.2]))
      with (loops ≫= λ l, [ref_name (IndexVariable_get_ref l.1);
                           ref_name (ValueVariable_get_ref l.2)]); [done|].
    clear. induction loops as [|l loops IH]; [done|].
    change (ref_name (IndexVariable_get_ref l.1) :: ref_name (ValueVariable_get_ref l.2)
            :: (loops ≫= λ l, [ref_name (IndexVariable_get_ref l.1);
                               ref_name (ValueVariable_get_ref l.2)]) =
            ref_name (IndexVariable_get_ref l.1) :: ref_name (ValueVariable_get_ref l.2)
            :: (ref_name <$> (loops ≫= λ l, [IndexVariable_get_ref l.1;
                                             ValueVariable_get_ref l.2]))).
    by rewrite IH.
  - intros [i] [j] [= Heq]. f_equal. by apply (inj pretty).
  - intros [i] [j] [= Heq]. f_equal. by apply (inj pretty).
  - intros [i] [j]. split; [done|]. apply ref_names_differ.
Qed.

End MoreSymbolicFacts.

(** ** Structured programs *)

Section StructuredFacts.
Context {E : Extern}.
Abbreviation addr := nat.
Abbreviation heap := (list Object).

Scheme Stmt_mut := Induction for Stmt Sort Prop
with Block_mut := Induction for Block Sort Prop.
Combined Scheme Stmt_Block_ind from Stmt_mut, Block_mut.

Ltac look :=
  repeat first
    [ rewrite list_lookup_insert_ne by lia
    | rewrite list_lookup_insert_eq by
        (rewrite ?length_insert, ?length_app, ?length_insert; simpl; lia)
    | rewrite lookup_app_l by (rewrite ?length_insert, ?length_app; simpl; lia)
    | rewrite lookup_app_r by (rewrite ?length_insert, ?length_app; simpl; lia) ];
  rewrite ?length_insert, ?Nat.sub_diag.

Lemma compile_depth_le d d' (h : heap) c r :
  d ≤ d' → Compilable_compile d h c = Ok r → Compilable_compile d' h c = Ok r.
Proof. induction 1; [done|]. intros Hc. by apply compile_depth_S, IHle. Qed.

(** The four steps of [build]. *)

Lemma add_expr_built (h : heap) self ctx n argv keyv e :
  well_formed h → seq_at h self ctx → scope_at h ctx n argv keyv →
  ∃ h1 node,
    Sequence_add self (inr e) h = (Ok tt, h1) ∧
    well_formed h1 ∧ seq_at h1 self ctx ∧ scope_at h1 ctx n argv keyv ∧
    extends h h1 self ctx [node] ∧
    ∀ d, 1 ≤ d → Compilable_compile d h1 node = Ok (StmtObj (Expr_compile e)).
Proof.
  intros Hwf (o & Ha & Hctx & Hcls) (c & f & Hc & Hcc & Hf & Hn & Hargs & Hkeys).
  pose proof (lookup_lt_Some _ _ _ Ha) as Hlt.
  eexists _, _. split; [by apply (Sequence_add_Some _ _ _ (inr e) Ha)|].
  split; [|split; [|split; [|split]]].
  - pose proof (exec_well_formed (Add self (inr e)) h I Hwf) as Hwf1.
    cbn [exec snd] in Hwf1. by rewrite (Sequence_add_Some _ _ _ (inr e) Ha) in Hwf1.
  - eexists. split; [by eapply lookup_insert_self|]. done.
  - destruct (decide (ctx = self)) as [->|Hne].
    + eexists _, f. split; [by eapply lookup_insert_self|]. simpl.
      assert (c = o) as -> by congruence. done.
    + exists c, f. by rewrite list_lookup_insert_ne.
  - split; [by rewrite length_insert|]. split; [|split; [|split]].
    + intros a _ Hne _. by rewrite list_lookup_insert_ne.
    + intros o0 Ho0. assert (o0 = o) as -> by congruence.
      eexists. split; [by eapply lookup_insert_self|done].
    + intros Hne c0 Hc0. exists c0. by rewrite list_lookup_insert_ne.
    + intros node r ->%list_elem_of_singleton Hr. by apply elem_of_nil in Hr.
  - intros [|d] Hd; [lia|done].
Qed.


Lemma seq_at_new (h : heap) a ctx : h !! a = Some (new_seq ctx) → seq_at h a ctx.
Proof. intros Ha. by exists (new_seq ctx). Qed.

Lemma if__built (h : heap) self ctx n argv keyv cond :
  well_formed h → seq_at h self ctx → scope_at h ctx n argv keyv →
  let b := {| branch_condition := lit_helper cond;
              _success := length h; _failure := S (length h) |} in
  ∃ h1,
    Sequence_if_ self cond h = (Ok (length h, S (length h)), h1) ∧
    well_formed h1 ∧ length h1 = S (S (length h)) ∧
    seq_at h1 self ctx ∧ scope_at h1 ctx n argv keyv ∧
    h1 !! length h = Some (new_seq ctx) ∧ h1 !! S (length h) = Some (new_seq ctx) ∧
    extends h h1 self ctx [IsBranch b].
Proof.
  intros Hwf (o & Ha & Hctx & Hcls) (c & f & Hc & Hcc & Hf & Hn & Hargs & Hkeys) b.
  pose proof (lookup_lt_Some _ _ _ Ha) as Hlt.
  pose proof (lookup_lt_Some _ _ _ Hc) as Hltc.
  eexists. split; [by apply (Sequence_if__Some _ _ _ cond Ha)|]. rewrite Hctx.
  split; [|split; [|split; [|split; [|split; [|split]]]]].
  - pose proof (exec_well_formed (If_ self cond) h I Hwf) as Hwf1.
    cbn [exec snd] in Hwf1.
    by rewrite (Sequence_if__Some _ _ _ cond Ha), Hctx in Hwf1.
  - rewrite length_insert, !length_app. simpl. lia.
  - eexists. split; [look; done|]. done.
  - destruct (decide (ctx = self)) as [->|Hne].
    + eexists _, f. split; [look; done|]. simpl.
      assert (c = o) as -> by congruence. done.
    + exists c, f. split; [by look|done].
  - by look.
  - look. by replace (S (length h) - length (h ++ [new_seq ctx])) with 0
      by (rewrite length_app; simpl; lia).
  - split; [rewrite length_insert, !length_app; simpl; lia|].
    split; [|split; [|split]].
    + intros a Ha' Hne _. by look.
    + intros o0 Ho0. assert (o0 = o) as -> by congruence.
      eexists. split; [look; done|done].
    + intros Hne c0 Hc0. exists c0. split; [by look|done].
    + intros node r ->%list_elem_of_singleton Hr.
      rewrite length_insert, !length_app. simpl in *.
      apply elem_of_cons in Hr as [->|Hr%list_elem_of_singleton]; lia.
Qed.

Lemma while__built (h : heap) self ctx n argv keyv cond :
  well_formed h → seq_at h self ctx → scope_at h ctx n argv keyv →
  let w := {| while_condition := lit_helper cond; while_loop := length h |} in
  ∃ h1,
    Sequence_while_ self cond h = (Ok (length h), h1) ∧
    well_formed h1 ∧ length h1 = S (length h) ∧
    seq_at h1 self ctx ∧ scope_at h1 ctx n argv keyv ∧
    h1 !! length h = Some (new_seq ctx) ∧
    extends h h1 self ctx [IsWhileLoop w].
Proof.
  intros Hwf (o & Ha & Hctx & Hcls) (c & f & Hc & Hcc & Hf & Hn & Hargs & Hkeys) w.
  pose proof (lookup_lt_Some _ _ _ Ha) as Hlt.
  pose proof (lookup_lt_Some _ _ _ Hc) as Hltc.
  eexists. split; [by apply (Sequence_while__Some _ _ _ cond Ha)|]. rewrite Hctx.
  split; [|split; [|split; [|split; [|split]]]].
  - pose proof (exec_well_formed (While_ self cond) h I Hwf) as Hwf1.
    cbn [exec snd] in Hwf1.
    by rewrite (Sequence_while__Some _ _ _ cond Ha), Hctx in Hwf1.
  - rewrite length_insert, !length_app. simpl. lia.
  - eexists. split; [look; done|]. done.
  - destruct (decide (ctx = self)) as [->|Hne].
    + eexists _, f. split; [look; done|]. simpl.
      assert (c = o) as -> by congruence. done.
    + exists c, f. split; [by look|done].
  - by look.
  - split; [rewrite length_insert, !length_app; simpl; lia|].
    split; [|split; [|split]].
    + intros a Ha' Hne _. by look.
    + intros o0 Ho0. assert (o0 = o) as -> by congruence.
      eexists. split; [look; done|done].
    + intros Hne c0 Hc0. exists c0. split; [by look|done].
    + intros node r ->%list_elem_of_singleton Hr.
      rewrite length_insert, !length_app. simpl in *.
      apply list_elem_of_singleton in Hr. lia.
Qed.

Lemma for__built (h : heap) self ctx n argv keyv array :
  well_formed h → seq_at h self ctx → scope_at h ctx n argv keyv →
  let l := {| _ix := {| ix_index := n |}; _val := {| val_index := n |};
              for_loop := length h; _array := array |} in
  ∃ h1,
    Sequence_for_ self array h =
      (Ok (length h, {| ix_index := n |}, {| val_index := n |}), h1) ∧
    well_formed h1 ∧ length h1 = S (length h) ∧
    seq_at h1 self ctx ∧ scope_at h1 ctx (S n) argv keyv ∧
    h1 !! length h = Some (new_seq ctx) ∧
    extends h h1 self ctx [IsForLoop l].
Proof.
  intros Hwf (o & Ha & Hctx & Hcls) (c & f & Hc & Hcc & Hf & Hn & Hargs & Hkeys) l.
  pose proof (lookup_lt_Some _ _ _ Ha) as Hlt.
  pose proof (lookup_lt_Some _ _ _ Hc) as Hltc.
  rewrite <- Hctx in Hc.
  eexists. split.
  { rewrite (Sequence_for__Some _ _ _ _ _ array Ha Hc Hf). by rewrite Hn. }
  rewrite Hctx in *.
  split; [|split; [|split; [|split; [|split]]]].
  - pose proof (exec_well_formed (For_ self array) h I Hwf) as Hwf1.
    rewrite exec_For_heap in Hwf1. rewrite <- Hctx in Hc.
    rewrite (Sequence_for__Some _ _ _ _ _ array Ha Hc Hf) in Hwf1.
    by rewrite Hctx, Hn in Hwf1.
  - rewrite length_insert, !length_app, length_insert. simpl. lia.
  - eexists. split; [look; done|]. simpl. split; [done|].
    intros Hne. unfold after_add_loop. rewrite decide_False by congruence.
    simpl. by apply Hcls.
  - destruct (decide (ctx = self)) as [->|Hne].
    + assert (c = o) as -> by congruence.
      eexists _, (loops_incr f). split; [look; done|]. simpl.
      unfold after_add_loop. rewrite decide_True by done. simpl.
      repeat split; try done. lia.
    + eexists _, (loops_incr f). split; [look; done|]. simpl.
      repeat split; try done. lia.
  - by look.
  - split; [rewrite length_insert, !length_app, length_insert; simpl; lia|].
    split; [|split; [|split]].
    + intros a Ha' Hne Hne'. by look.
    + intros o0 Ho0. assert (o0 = o) as -> by congruence.
      eexists. split; [look; done|done].
    + intros Hne c0 Hc0. assert (c0 = c) as -> by congruence.
      eexists. split; [look; done|done].
    + intros node r ->%list_elem_of_singleton Hr.
      rewrite length_insert, !length_app, length_insert. simpl in *.
      apply list_elem_of_singleton in Hr. lia.
Qed.


(** What the steps are put together with. *)

Lemma seq_at_bounds (h : heap) a ctx :
  well_formed h → seq_at h a ctx → ctx ≤ a < length h.
Proof.
  intros Hwf (o & Ha & Hctx & _). pose proof (lookup_lt_Some _ _ _ Ha).
  destruct (Hwf a o Ha) as [Hle _]. lia.
Qed.

Lemma seq_at_frame (h h' : heap) a ctx :
  seq_at h a ctx → h' !! a = h !! a → seq_at h' a ctx.
Proof. intros (o & Ha & Ho) Heq. exists o. by rewrite Heq. Qed.

Lemma scope_at_seq_at (h : heap) ctx n argv keyv :
  scope_at h ctx n argv keyv → seq_at h ctx ctx.
Proof. intros (c & f & Hc & Hcc & _). by exists c. Qed.

Lemma seq_compiles d (h : heap) r o cmds :
  h !! r = Some o → cls o = Seq_cls →
  Forall2 (λ node cmd, Compilable_compile d h node = Ok cmd) (_seq o) cmds →
  Sequence_compile d h r = Ok (SeqObj cmds).
Proof.
  intros Hr Hcls Hcmds. eapply Sequence_compile_Seq; [done..|].
  by apply comprehension_Forall2.
Qed.

Lemma Forall2_compile_frame d (h h' : heap) lo nodes cmds :
  well_formed h →
  (∀ a, lo < a < length h → h' !! a = h !! a) →
  (∀ node r, node ∈ nodes → r ∈ children node → lo < r < length h) →
  Forall2 (λ node cmd, Compilable_compile d h node = Ok cmd) nodes cmds →
  Forall2 (λ node cmd, Compilable_compile d h' node = Ok cmd) nodes cmds.
Proof.
  intros Hwf Hsame Hch Hcmds. induction Hcmds as [|node cmd nodes cmds Hc _ IH];
    constructor.
  - rewrite (compile_frame d h h' Hwf lo); [done..|]. intros r. apply Hch. by left.
  - apply IH. intros node' r Hin. apply Hch. by right.
Qed.

(** The entries of a new child sequence, once its body is built, compile
    to the commands of the body. *)
Lemma child_compiles d (h1 h2 : heap) r ctx nodes cmds :
  h1 !! r = Some (new_seq ctx) → r ≠ ctx → seq_at h2 r ctx →
  extends h1 h2 r ctx nodes →
  Forall2 (λ node cmd, Compilable_compile d h2 node = Ok cmd) nodes cmds →
  ∃ o, h2 !! r = Some o ∧ _seq o = nodes ∧ cls o = Seq_cls ∧
       Sequence_compile d h2 r = Ok (SeqObj cmds).
Proof.
  intros Hr Hne (o & Ho & _ & Hcls) (_ & _ & Hself & _) Hcmds.
  destruct (Hself _ Hr) as (o' & Ho' & Hseq). assert (o' = o) as -> by congruence.
  exists o. split; [done|]. split; [done|]. split; [by apply Hcls|].
  eapply seq_compiles; [done|by apply Hcls|]. by rewrite Hseq.
Qed.

(** [build] and [build_block] put into the sequence what [denote] and
    [denote_block] say, and advance the loop counter as they do. *)
Lemma build_denote :
  (∀ s (h : heap) self ctx n argv keyv,
     well_formed h → seq_at h self ctx → scope_at h ctx n argv keyv →
     ∃ h' node,
       build s self h = (Ok tt, h') ∧ well_formed h' ∧ seq_at h' self ctx ∧
       scope_at h' ctx (denote s n).2 argv keyv ∧
       extends h h' self ctx [node] ∧
       ∀ d, depth s ≤ d → Compilable_compile d h' node = Ok (denote s n).1) ∧
  (∀ b (h : heap) self ctx n argv keyv,
     well_formed h → seq_at h self ctx → scope_at h ctx n argv keyv →
     ∃ h' nodes,
       build_block b self h = (Ok tt, h') ∧ well_formed h' ∧ seq_at h' self ctx ∧
       scope_at h' ctx (denote_block b n).2 argv keyv ∧
       extends h h' self ctx nodes ∧
       ∀ d, depth_block b ≤ d →
         Forall2 (λ node cmd, Compilable_compile d h' node = Ok cmd)
           nodes (denote_block b n).1).
Proof.
  apply Stmt_Block_ind.
  - (* an expression *)
    intros e h self ctx n argv keyv Hwf Hself Hscope.
    destruct (add_expr_built h self ctx n argv keyv e Hwf Hself Hscope)
      as (h1 & node & Hrun & Hwf1 & Hself1 & Hscope1 & Hext & Hcmd).
    by exists h1, node.
  - (* a branch *)
    intros cond t IHt e IHe h self ctx n argv keyv Hwf Hself Hscope.
    pose proof (seq_at_bounds _ _ _ Hwf Hself) as Hb.
    destruct (if__built h self ctx n argv keyv cond Hwf Hself Hscope)
      as (h1 & Hrun1 & Hwf1 & Hlen1 & Hself1 & Hscope1 & Hs & Hf & Hext1).
    destruct (IHt h1 (length h) ctx n argv keyv Hwf1 (seq_at_new _ _ _ Hs) Hscope1)
      as (h2 & nodes_t & Hrun2 & Hwf2 & Hs2 & Hscope2 & Hext2 & Hcmds_t).
    pose proof Hext2 as (Hlen2 & Hframe2 & Hself2 & Hctx2 & Hch2).
    assert (Hf2 : h2 !! S (length h) = Some (new_seq ctx)).
    { rewrite Hframe2; [done|lia..]. }
    destruct (IHe h2 (S (length h)) ctx (denote_block t n).2 argv keyv Hwf2
                (seq_at_new _ _ _ Hf2) Hscope2)
      as (h3 & nodes_e & Hrun3 & Hwf3 & Hf3 & Hscope3 & Hext3 & Hcmds_e).
    pose proof Hext3 as (Hlen3 & Hframe3 & Hself3 & Hctx3 & Hch3).
    pose proof Hext1 as (_ & Hframe1 & Hselfs1 & Hctx1 & Hch1).
    cbn [build denote depth].
    destruct (denote_block t n) as [ct n1] eqn:Ht. cbn [fst snd] in *.
    destruct (denote_block e n1) as [ce n2] eqn:He. cbn [fst snd] in *.
    eexists h3, _. split.
    { rewrite (bind_Ok _ _ _ _ _ Hrun1). cbn [fst snd].
      by rewrite (bind_Ok _ _ _ _ _ Hrun2). }
    split; [done|]. split; [|split; [done|split]].
    + destruct (decide (self = ctx)) as [->|Hne]; [by eapply scope_at_seq_at|].
      apply (seq_at_frame h1); [done|].
      rewrite Hframe3, Hframe2; [done|lia..].
    + split; [lia|]. split; [|split; [|split]].
      * intros a Ha Hne Hne'. rewrite Hframe3, Hframe2, Hframe1; [done|lia..].
      * intros o Ho. destruct (Hselfs1 o Ho) as (o1 & Ho1 & Hseq1).
        destruct (decide (self = ctx)) as [->|Hne].
        -- destruct (Hctx2 ltac:(lia) o1 Ho1) as (o2 & Ho2 & Hseq2).
           destruct (Hctx3 ltac:(lia) o2 Ho2) as (o3 & Ho3 & Hseq3).
           exists o3. split; [done|]. by rewrite Hseq3, Hseq2, Hseq1.
        -- exists o1. split; [|done]. rewrite Hframe3, Hframe2; [done|lia..].
      * intros Hne c Hc. destruct (Hctx1 Hne c Hc) as (c1 & Hc1 & Hseq1).
        destruct (Hctx2 ltac:(lia) c1 Hc1) as (c2 & Hc2 & Hseq2).
        destruct (Hctx3 ltac:(lia) c2 Hc2) as (c3 & Hc3 & Hseq3).
        exists c3. split; [done|]. congruence.
      * intros node r ->%list_elem_of_singleton Hr. simpl in Hr.
        apply elem_of_cons in Hr as [->|Hr%list_elem_of_singleton]; lia.
    + intros [|d] Hd; [lia|]. rewrite compile_Branch. cbn [_success _failure].
      destruct (child_compiles d h1 h2 (length h) ctx nodes_t ct)
        as (os & Hos & Hseq_s & Hcls_s & _); [done|lia|done|done| |].
      { apply Hcmds_t. lia. }
      assert (Hs3 : Sequence_compile d h3 (length h) = Ok (SeqObj ct)).
      { eapply seq_compiles; [rewrite Hframe3; [done|lia..]|done|].
        rewrite Hseq_s.
        apply (Forall2_compile_frame d h2 h3 (S (length h))); [done|..].
        - intros a Ha. apply Hframe3; lia.
        - intros node r Hnode Hr. specialize (Hch2 node r Hnode Hr). lia.
        - apply Hcmds_t. lia. }
      destruct (child_compiles d h2 h3 (S (length h)) ctx nodes_e ce)
        as (oe & _ & _ & _ & He3); [done|lia|done|done| |].
      { apply Hcmds_e. lia. }
      by rewrite Hs3, He3.
  - (* a while loop *)
    intros cond b IHb h self ctx n argv keyv Hwf Hself Hscope.
    pose proof (seq_at_bounds _ _ _ Hwf Hself) as Hb.
    destruct (while__built h self ctx n argv keyv cond Hwf Hself Hscope)
      as (h1 & Hrun1 & Hwf1 & Hlen1 & Hself1 & Hscope1 & Hl & Hext1).
    destruct (IHb h1 (length h) ctx n argv keyv Hwf1 (seq_at_new _ _ _ Hl) Hscope1)
      as (h2 & nodes & Hrun2 & Hwf2 & Hl2 & Hscope2 & Hext2 & Hcmds).
    pose proof Hext2 as (Hlen2 & Hframe2 & Hself2 & Hctx2 & Hch2).
    pose proof Hext1 as (_ & Hframe1 & Hselfs1 & Hctx1 & Hch1).
    cbn [build denote depth].
    destruct (denote_block b n) as [cb n1] eqn:Hden. cbn [fst snd] in *.
    eexists h2, _. split; [by rewrite (bind_Ok _ _ _ _ _ Hrun1)|].
    split; [done|]. split; [|split; [done|split]].
    + destruct (decide (self = ctx)) as [->|Hne]; [by eapply scope_at_seq_at|].
      apply (seq_at_frame h1); [done|]. rewrite Hframe2; [done|lia..].
    + split; [lia|]. split; [|split; [|split]].
      * intros a Ha Hne Hne'. rewrite Hframe2, Hframe1; [done|lia..].
      * intros o Ho. destruct (Hselfs1 o Ho) as (o1 & Ho1 & Hseq1).
        destruct (decide (self = ctx)) as [->|Hne].
        -- destruct (Hctx2 ltac:(lia) o1 Ho1) as (o2 & Ho2 & Hseq2).
           exists o2. split; [done|]. by rewrite Hseq2, Hseq1.
        -- exists o1. split; [|done]. rewrite Hframe2; [done|lia..].
      * intros Hne c Hc. destruct (Hctx1 Hne c Hc) as (c1 & Hc1 & Hseq1).
        destruct (Hctx2 ltac:(lia) c1 Hc1) as (c2 & Hc2 & Hseq2).
        exists c2. split; [done|]. congruence.
      * intros node r ->%list_elem_of_singleton Hr. simpl in Hr.
        apply list_elem_of_singleton in Hr. lia.
    + intros [|d] Hd; [lia|]. rewrite compile_WhileLoop. cbn [while_loop].
      destruct (child_compiles d h1 h2 (length h) ctx nodes cb)
        as (ob & _ & _ & _ & Hb2); [done|lia|done|done| |].
      { apply Hcmds. lia. }
      by rewrite Hb2.
  - (* a for loop *)
    intros array b IHb h self ctx n argv keyv Hwf Hself Hscope.
    pose proof (seq_at_bounds _ _ _ Hwf Hself) as Hb.
    destruct (for__built h self ctx n argv keyv array Hwf Hself Hscope)
      as (h1 & Hrun1 & Hwf1 & Hlen1 & Hself1 & Hscope1 & Hl & Hext1).
    destruct (IHb h1 (length h) ctx (S n) argv keyv Hwf1 (seq_at_new _ _ _ Hl) Hscope1)
      as (h2 & nodes & Hrun2 & Hwf2 & Hl2 & Hscope2 & Hext2 & Hcmds).
    pose proof Hext2 as (Hlen2 & Hframe2 & Hself2 & Hctx2 & Hch2).
    pose proof Hext1 as (_ & Hframe1 & Hselfs1 & Hctx1 & Hch1).
    cbn [build denote depth].
    destruct (denote_block b (S n)) as [cb n1] eqn:Hden. cbn [fst snd] in *.
    eexists h2, _. split; [by rewrite (bind_Ok _ _ _ _ _ Hrun1)|].
    split; [done|]. split; [|split; [done|split]].
    + destruct (decide (self = ctx)) as [->|Hne]; [by eapply scope_at_seq_at|].
      apply (seq_at_frame h1); [done|]. rewrite Hframe2; [done|lia..].
    + split; [lia|]. split; [|split; [|split]].
      * intros a Ha Hne Hne'. rewrite Hframe2, Hframe1; [done|lia..].
      * intros o Ho. destruct (Hselfs1 o Ho) as (o1 & Ho1 & Hseq1).
        destruct (decide (self = ctx)) as [->|Hne].
        -- destruct (Hctx2 ltac:(lia) o1 Ho1) as (o2 & Ho2 & Hseq2).
           exists o2. split; [done|]. by rewrite Hseq2, Hseq1.
        -- exists o1. split; [|done]. rewrite Hframe2; [done|lia..].
      * intros Hne c Hc. destruct (Hctx1 Hne c Hc) as (c1 & Hc1 & Hseq1).
        destruct (Hctx2 ltac:(lia) c1 Hc1) as (c2 & Hc2 & Hseq2).
        exists c2. split; [done|]. congruence.
      * intros node r ->%list_elem_of_singleton Hr. simpl in Hr.
        apply list_elem_of_singleton in Hr. lia.
    + intros [|d] Hd; [lia|]. rewrite compile_ForLoop. cbn [for_loop _array _ix _val].
      destruct (child_compiles d h1 h2 (length h) ctx nodes cb)
        as (ob & _ & _ & _ & Hb2); [done|lia|done|done| |].
      { apply Hcmds. lia. }
      by rewrite Hb2.
  - (* the empty block *)
    intros h self ctx n argv keyv Hwf Hself Hscope.
    exists h, []. split; [done|]. split; [done|]. split; [done|]. split; [done|].
    split; [|intros d _; constructor].
    split; [done|]. split; [done|]. split; [|split].
    + intros o Ho. exists o. by rewrite app_nil_r.
    + intros _ c Hc. by exists c.
    + by intros node r Hin%elem_of_nil.
  - (* a statement and the rest *)
    intros s IHs b IHb h self ctx n argv keyv Hwf Hself Hscope.
    pose proof (seq_at_bounds _ _ _ Hwf Hself) as Hb.
    destruct (IHs h self ctx n argv keyv Hwf Hself Hscope)
      as (h1 & node & Hrun1 & Hwf1 & Hself1 & Hscope1 & Hext1 & Hcmd).
    destruct (IHb h1 self ctx (denote s n).2 argv keyv Hwf1 Hself1 Hscope1)
      as (h2 & nodes & Hrun2 & Hwf2 & Hself2 & Hscope2 & Hext2 & Hcmds).
    pose proof Hext1 as (Hlen1 & Hframe1 & Hselfs1 & Hctx1 & Hch1).
    pose proof Hext2 as (Hlen2 & Hframe2 & Hselfs2 & Hctx2 & Hch2).
    cbn [build_block denote_block depth_block].
    destruct (denote s n) as [cmd n1] eqn:Hs. cbn [fst snd] in *.
    destruct (denote_block b n1) as [cmds n2] eqn:Hden. cbn [fst snd] in *.
    exists h2, (node :: nodes). split; [by rewrite (bind_Ok _ _ _ _ _ Hrun1)|].
    split; [done|]. split; [done|]. split; [done|]. split.
    + split; [lia|]. split; [|split; [|split]].
      * intros a Ha Hne Hne'. rewrite Hframe2, Hframe1; [done|lia..].
      * intros o Ho. destruct (Hselfs1 o Ho) as (o1 & Ho1 & Hseq1).
        destruct (Hselfs2 o1 Ho1) as (o2 & Ho2 & Hseq2).
        exists o2. split; [done|]. by rewrite Hseq2, Hseq1, <- app_assoc.
      * intros Hne c Hc. destruct (Hctx1 Hne c Hc) as (c1 & Hc1 & Hseq1).
        destruct (Hctx2 Hne c1 Hc1) as (c2 & Hc2 & Hseq2).
        exists c2. split; [done|]. congruence.
      * intros node' r [->|Hin]%elem_of_cons Hr.
        -- specialize (Hch1 node r ltac:(by left) Hr). lia.
        -- specialize (Hch2 node' r Hin Hr). lia.
    + intros d Hd. constructor; [|apply Hcmds; lia].
      rewrite (compile_frame d h1 h2 Hwf1 (length h - 1)).
      * apply Hcmd. lia.
      * intros a Ha. apply Hframe2; lia.
      * intros r Hr. specialize (Hch1 node r ltac:(by left) Hr). lia.
Qed.


(** X1. On a script scope, building a structured program and setting
    the return value puts after the commands the scope had the
    commands the program stands for, nested as the program is, and the
    return command: [compile] returns the script of them with the
    scope's argument and key names, at every depth that covers the
    nesting.  The for loops carry the loop ids from the scope's counter
    on in the order in which the program meets them, and the counter
    ends after the last. *)
Theorem structured_script_compiles (body : Block) (value : MixedType)
    (h : heap) (ctx : addr) (o : Object) (f : FnFields)
    (d : nat) (pre : list CommandObj) :
  well_formed h → h !! ctx = Some o → _ctx o = ctx → cls o = FnContext_cls f →
  get_cmds d h ctx = Ok pre →
  ∃ h',
    (do _ <~ build_block body ctx; FnContext_set_return_value ctx value) h
      = (Ok tt, h') ∧
    loop_counter h' ctx = (denote_block body (_loops f)).2 ∧
    ∀ d', d ≤ d' → depth_block body ≤ d' → 1 ≤ d' →
      Sequence_compile d' h' ctx =
        Ok (ScriptObj
              (pre ++ (denote_block body (_loops f)).1 ++
               [ReturnObj match value with
                          | None => None
                          | Some _ => Some (Expr_compile (lit_helper value))
                          end])
              (map fst (_args f)) (map fst (_keys f))).
Proof.
  intros Hwf Ho Hctx Hf Hpre.
  pose proof (lookup_lt_Some _ _ _ Ho) as Hlt.
  assert (Hself : seq_at h ctx ctx) by by exists o.
  assert (Hscope : scope_at h ctx (_loops f) (map fst (_args f)) (map fst (_keys f)))
    by by exists o, f.
  destruct (proj2 build_denote body h ctx ctx _ _ _ Hwf Hself Hscope)
    as (h2 & nodes & Hrun & Hwf2 & _ & Hscope2 & Hext & Hcmds).
  destruct Hext as (Hlen & Hframe & Hselfs & _ & Hch).
  destruct (Hselfs o Ho) as (o2 & Ho2 & Hseq2).
  destruct Hscope2 as (c2 & f2 & Hc2 & _ & Hf2 & Hn2 & Hargs2 & Hkeys2).
  assert (c2 = o2) as -> by congruence.
  set (ret_cmd := ReturnObj match value with
                            | None => None
                            | Some _ => Some (Expr_compile (lit_helper value))
                            end).
  assert (Hret : ∃ node,
            FnContext_set_return_value ctx value h2 =
              (Ok tt, <[ctx := set_seq o2 (_seq o2 ++ [node])]> h2) ∧
            ∀ d' (h' : heap), Compilable_compile (S d') h' node = Ok ret_cmd).
  { destruct value as [v|]; eexists; cbn [FnContext_set_return_value];
      (split; [by apply (Sequence_add_Some _ _ _ (inl _) Ho2)|done]). }
  destruct Hret as (node & Hret & Hnode).
  eexists. split; [by rewrite (bind_Ok _ _ _ _ _ Hrun)|]. split.
  { unfold loop_counter. rewrite (lookup_insert_self _ _ _ _ Ho2). simpl.
    by rewrite Hf2. }
  intros d' Hd Hdepth Hpos.
  pose proof (lookup_insert_self h2 ctx o2 (set_seq o2 (_seq o2 ++ [node])) Ho2) as Ho'.
  assert (Hsame : ∀ a, ctx < a < length h2 →
            <[ctx := set_seq o2 (_seq o2 ++ [node])]> h2 !! a = h2 !! a).
  { intros a Ha. apply list_lookup_insert_ne. lia. }
  revert Ho' Hsame. generalize (<[ctx := set_seq o2 (_seq o2 ++ [node])]> h2).
  intros h' Ho' Hsame.
  unfold Sequence_compile, Sequence_compile_with, get_cmds_with.
  rewrite (deref_Some _ _ _ Ho'). cbn [rbind].
  simpl. rewrite Hf2, Hargs2, Hkeys2, Hseq2, <- app_assoc.
  rewrite (get_cmds_Some _ _ _ _ Ho) in Hpre.
  assert (Hall : comprehension (Compilable_compile d' h') (_seq o ++ nodes ++ [node]) =
                 Ok (pre ++ (denote_block body (_loops f)).1 ++ [ret_cmd])).
  { apply comprehension_app; [|apply comprehension_app].
    - apply (comprehension_mono (Compilable_compile d h)); [|done].
      intros c y Hc Hy.
      rewrite (compile_frame d' h h' Hwf ctx).
      + by apply (compile_depth_le d).
      + intros a Ha. rewrite Hsame by lia. apply Hframe; lia.
      + intros r Hr. by eapply (proj2 (Hwf ctx o Ho)).
    - apply comprehension_Forall2.
      apply (Forall2_compile_frame d' h2 h' ctx); [done|done|..].
      + intros nd r Hnd Hr. specialize (Hch nd r Hnd Hr). lia.
      + by apply Hcmds.
    - destruct d' as [|d']; [lia|]. cbn [comprehension]. by rewrite Hnode. }
  by rewrite Hall.
Qed.

End StructuredFacts.

(** ** What a call can change *)

Section CallFacts.
Context {E : Extern}.
Abbreviation addr := nat.
Abbreviation heap := (list Object).

(** What each call does to the heap: nothing when the method raises,
    and otherwise only at the objects it touches and after the end. *)
Lemma exec_cases call (h : heap) :
  (raises call h ∧ (exec call h).2 = h) ∨
  (¬ raises call h ∧ length h ≤ length (exec call h).2 ∧
   ∀ a, a < length h → a ∉ touches call h → (exec call h).2 !! a = h !! a).
Proof.
  destruct call as [|a t|a arr|a cond|a cond|a name|a name|a init|a v|a|a arr].
  - right. split; [by intros [e [=]]|]. cbn [exec snd]. unfold FnContext_init, alloc.
    cbn [snd]. rewrite length_app. split; [lia|].
    intros b Hb _. by apply lookup_app_l.
  - cbn [exec snd raises touches]. destruct (h !! a) as [o|] eqn:Ha.
    + right. rewrite (Sequence_add_Some _ _ _ t Ha). cbn [fst snd].
      split; [by intros [e [=]]|]. rewrite length_insert. split; [done|].
      intros b _ Hb. apply list_lookup_insert_ne. set_solver.
    + left. destruct t; simpl; unfold seq_append, bind, load, deref; rewrite Ha;
        (split; [by eexists|done]).
  - rewrite exec_For_heap. cbn [raises touches].
    destruct (h !! a) as [o|] eqn:Ha; last first.
    { left. unfold Sequence_for_, bind, load, deref. rewrite Ha.
      split; [by eexists|done]. }
    destruct (fields_cases h (_ctx o)) as [(c & f & Hc & Hf & _)|[e He]]; last first.
    { left. unfold Sequence_for_, ForLoop_init, FnContext_add_loop, bind.
      rewrite (load_Some _ _ _ Ha), He. split; [by eexists|done]. }
    right. rewrite (Sequence_for__Some _ _ _ _ _ arr Ha Hc Hf). cbn [fst snd].
    split; [by intros [e [=]]|]. rewrite length_insert, length_app, length_insert.
    split; [lia|]. intros b Hb Hnot. unfold scope_of in Hnot. rewrite Ha in Hnot.
    rewrite list_lookup_insert_ne by set_solver.
    rewrite lookup_app_l by (by rewrite length_insert).
    apply list_lookup_insert_ne. set_solver.
  - cbn [exec snd raises touches]. destruct (h !! a) as [o|] eqn:Ha; last first.
    { left. unfold Sequence_if_, bind, load, deref. rewrite Ha.
      split; [by eexists|done]. }
    right. rewrite (Sequence_if__Some _ _ _ cond Ha). cbn [fst snd].
    split; [by intros [e [=]]|]. rewrite length_insert, !length_app.
    split; [lia|]. intros b Hb Hnot.
    rewrite list_lookup_insert_ne by set_solver.
    rewrite lookup_app_l by (rewrite length_app; lia). by apply lookup_app_l.
  - cbn [exec snd raises touches]. destruct (h !! a) as [o|] eqn:Ha; last first.
    { left. unfold Sequence_while_, bind, load, deref. rewrite Ha.
      split; [by eexists|done]. }
    right. rewrite (Sequence_while__Some _ _ _ cond Ha). cbn [fst snd].
    split; [by intros [e [=]]|]. rewrite length_insert, !length_app.
    split; [lia|]. intros b Hb Hnot.
    rewrite list_lookup_insert_ne by set_solver. by apply lookup_app_l.
  - cbn [exec snd raises touches].
    destruct (fields_cases h a) as [(o & f & Ha & Hc & Hf)|[e He]]; last first.
    { left. unfold FnContext_add_arg. rewrite (bind_Raise _ _ _ _ _ He).
      split; [by eexists|done]. }
    destruct (decide (name ∈ _anames f)) as [Hin|Hnew].
    { left. rewrite (add_arg_taken _ _ _ _ _ Ha Hc Hin). split; [by eexists|done]. }
    right. rewrite (add_arg_fresh _ _ _ _ _ Ha Hc Hnew). cbn [fst snd].
    split; [by intros [e [=]]|]. rewrite length_insert. split; [done|].
    intros b _ Hb. apply list_lookup_insert_ne. set_solver.
  - cbn [exec snd raises touches].
    destruct (fields_cases h a) as [(o & f & Ha & Hc & Hf)|[e He]]; last first.
    { left. unfold FnContext_add_key. rewrite (bind_Raise _ _ _ _ _ He).
      split; [by eexists|done]. }
    destruct (decide (name ∈ _knames f)) as [Hin|Hnew].
    { left. rewrite (add_key_taken _ _ _ _ _ Ha Hc Hin). split; [by eexists|done]. }
    right. rewrite (add_key_fresh _ _ _ _ _ Ha Hc Hnew). cbn [fst snd].
    split; [by intros [e [=]]|]. rewrite length_insert. split; [done|].
    intros b _ Hb. apply list_lookup_insert_ne. set_solver.
  - cbn [exec snd raises touches].
    destruct (fields_cases h a) as [(o & f & Ha & Hc & Hf)|[e He]]; last first.
    { left. unfold FnContext_add_local. rewrite (bind_Raise _ _ _ _ _ He).
      split; [by eexists|done]. }
    right. rewrite (add_local_Some _ _ _ _ init Ha Hc). cbn [fst snd].
    split; [by intros [e [=]]|]. rewrite length_insert. split; [done|].
    intros b _ Hb. apply list_lookup_insert_ne. set_solver.
  - cbn [exec snd raises touches]. destruct (h !! a) as [o|] eqn:Ha.
    + right. destruct v; cbn [FnContext_set_return_value];
        rewrite (Sequence_add_Some _ _ _ _ Ha); cbn [fst snd];
        (split; [by intros [e [=]]|]); rewrite length_insert; (split; [done|]);
        intros b _ Hb; apply list_lookup_insert_ne; set_solver.
    + left. destruct v; simpl; unfold seq_append, bind, load, deref; rewrite Ha;
        (split; [by eexists|done]).
  - rewrite exec_AddLoop_heap. cbn [raises touches].
    destruct (fields_cases h a) as [(o & f & Ha & Hc & Hf)|[e He]]; last first.
    { left. unfold FnContext_add_loop. rewrite (bind_Raise _ _ _ _ _ He).
      split; [by eexists|done]. }
    right. rewrite (FnContext_add_loop_Some _ _ _ _ Ha Hc). cbn [fst snd].
    split; [by intros [e [=]]|]. rewrite length_insert. split; [done|].
    intros b _ Hb. apply list_lookup_insert_ne. set_solver.
  - rewrite exec_NewForLoop_heap. cbn [raises touches].
    destruct (fields_cases h a) as [(o & f & Ha & Hc & Hf)|[e He]]; last first.
    { left. unfold ForLoop_init, FnContext_add_loop, bind. rewrite He.
      split; [by eexists|done]. }
    right. rewrite (ForLoop_init_Some _ _ _ _ arr Ha Hc). cbn [fst snd].
    split; [by intros [e [=]]|]. rewrite length_app, length_insert. split; [lia|].
    intros b Hb Hnot. rewrite lookup_app_l by (by rewrite length_insert).
    apply list_lookup_insert_ne. set_solver.
Qed.





(** X5. A call changes no object but the one it is made on and, for
    [for_], the script scope of that one: every other object of the
    heap is the same afterwards, at the same address. *)
Theorem call_leaves_the_rest (call : Call) (h : heap) (a : addr) (o : Object) :
  h !! a = Some o → a ∉ touches call h →
  (exec call h).2 !! a = Some o.
Proof.
  intros Ha Hnot. destruct (exec_cases call h) as [[_ ->]|(_ & _ & Hframe)]; [done|].
  rewrite Hframe; [done| |done]. by eapply lookup_lt_Some.
Qed.


(** *** Scripts do not share sequences *)

Lemma edit_scoped U (h h' : heap) :
  (∀ c, U c → leaf c) → edit U h h' → scoped_heap h → scoped_heap h'.
Proof.
  intros HU Hedit [Hfam Hself].
  destruct Hedit as [h0|h0 ctx c f Hc Hf|h0 a o c Ha Hnode|h0 a o f f' Ha Hc Hstep].
  - split.
    + intros a o c r Ha Hin Hr. apply lookup_snoc_inv in Ha as [Ha|[-> ->]];
        [|by apply elem_of_nil in Hin].
      destruct (Hfam a o c r Ha Hin Hr) as (child & Hchild & Hctx).
      exists child. split; [by apply lookup_app_l_Some|done].
    + intros a o f Ha Hf. apply lookup_snoc_inv in Ha as [Ha|[-> ->]]; [|done].
      by eapply Hself.
  - split.
    + intros a o c' r Ha Hin Hr. apply lookup_snoc_inv in Ha as [Ha|[-> ->]];
        [|by apply elem_of_nil in Hin].
      destruct (Hfam a o c' r Ha Hin Hr) as (child & Hchild & Hctx).
      exists child. split; [by apply lookup_app_l_Some|done].
    + intros a o f' Ha Hf'. apply lookup_snoc_inv in Ha as [Ha|[-> ->]]; [|done].
      by eapply Hself.
  - assert (Hkeep : ∀ r child, h0 !! r = Some child →
              ∃ child', <[a := set_seq o (_seq o ++ [c])]> h0 !! r = Some child' ∧
                        _ctx child' = _ctx child).
    { intros r child Hr. destruct (decide (r = a)) as [->|Hne].
      - eexists. split; [by eapply lookup_insert_self|]. simpl. congruence.
      - exists child. by rewrite list_lookup_insert_ne. }
    split.
    + intros b ob c' r Hb Hin Hr. destruct (decide (b = a)) as [->|Hne].
      * rewrite (lookup_insert_self _ _ _ _ Ha) in Hb. injection Hb as <-.
        cbn [_seq set_seq _ctx] in *.
        apply elem_of_app in Hin as [Hin|Hin%list_elem_of_singleton].
        -- destruct (Hfam a o c' r Ha Hin Hr) as (child & Hchild & Hctx).
           destruct (Hkeep r child Hchild) as (child' & Hchild' & Hctx').
           exists child'. split; [done|congruence].
        -- subst c'. destruct Hnode as [Hleaf%HU|Hbuilt].
           { unfold leaf in Hleaf. rewrite Hleaf in Hr. by apply elem_of_nil in Hr. }
           destruct c as [fun_|br|l|w]; [by apply elem_of_nil in Hr|..];
             destruct (Hbuilt r Hr) as (Hlt & o' & Ho' & Hnew);
             assert (o' = o) as -> by congruence;
             (exists (new_seq (_ctx o)); split; [|done]);
             rewrite list_lookup_insert_ne by lia; done.
      * rewrite list_lookup_insert_ne in Hb by done.
        destruct (Hfam b ob c' r Hb Hin Hr) as (child & Hchild & Hctx).
        destruct (Hkeep r child Hchild) as (child' & Hchild' & Hctx').
        exists child'. split; [done|congruence].
    + intros b ob f Hb Hf. destruct (decide (b = a)) as [->|Hne].
      * rewrite (lookup_insert_self _ _ _ _ Ha) in Hb. injection Hb as <-.
        by eapply (Hself a o).
      * rewrite list_lookup_insert_ne in Hb by done. by eapply Hself.
  - assert (Hkeep : ∀ r child, h0 !! r = Some child →
              ∃ child', <[a := set_cls o (FnContext_cls f')]> h0 !! r = Some child' ∧
                        _ctx child' = _ctx child).
    { intros r child Hr. destruct (decide (r = a)) as [->|Hne].
      - eexists. split; [by eapply lookup_insert_self|]. simpl. congruence.
      - exists child. by rewrite list_lookup_insert_ne. }
    split.
    + intros b ob c' r Hb Hin Hr.
      assert (∃ ob0, h0 !! b = Some ob0 ∧ _seq ob0 = _seq ob ∧ _ctx ob0 = _ctx ob)
        as (ob0 & Hb0 & Hseq0 & Hctx0).
      { destruct (decide (b = a)) as [->|Hne].
        - rewrite (lookup_insert_self _ _ _ _ Ha) in Hb. injection Hb as <-.
          by exists o.
        - rewrite list_lookup_insert_ne in Hb by done. by exists ob. }
      rewrite <- Hseq0 in Hin.
      destruct (Hfam b ob0 c' r Hb0 Hin Hr) as (child & Hchild & Hctx).
      destruct (Hkeep r child Hchild) as (child' & Hchild' & Hctx').
      exists child'. split; [done|congruence].
    + intros b ob fb Hb Hfb. destruct (decide (b = a)) as [->|Hne].
      * rewrite (lookup_insert_self _ _ _ _ Ha) in Hb. injection Hb as <-.
        by eapply (Hself a o).
      * rewrite list_lookup_insert_ne in Hb by done. by eapply Hself.
Qed.

Lemma api_call_leaf call : api_call call → user_nodes leaf call.
Proof. by destruct call as [|a [[]|]| | | | | | | | |]. Qed.

Lemma run_scoped calls :
  Forall api_call calls → scoped_heap (E := E) (run calls []).2.
Proof.
  intros Hcalls. apply (run_invariant leaf).
  - intros h1 h2 Hedit _. by apply (edit_scoped leaf).
  - apply scopes_ok_nil.
  - split; by intros a o ? ? Ha.
  - eapply Forall_impl; [exact Hcalls|]. apply api_call_leaf.
Qed.

(** What a sequence compiles to depends on the objects of its scope
    alone. *)
Lemma compile_scope_frame (h h' : heap) (A : addr) :
  scoped_heap h →
  (∀ a o, h !! a = Some o → _ctx o = A → h' !! a = Some o) →
  ∀ d a o, h !! a = Some o → _ctx o = A →
    Sequence_compile d h' a = Sequence_compile d h a ∧
    get_cmds d h' a = get_cmds d h a.
Proof.
  intros [Hfam _] Hsame.
  assert (Hnode : ∀ d c,
            (∀ r, r ∈ children c → ∃ child, h !! r = Some child ∧ _ctx child = A) →
            Compilable_compile d h' c = Compilable_compile d h c).
  { induction d as [|d IH]; intros c Hch; [done|].
    assert (Hseq : ∀ r, r ∈ children c →
      Sequence_compile_with (Compilable_compile d h') h' r =
      Sequence_compile_with (Compilable_compile d h) h r).
    { intros r Hr. destruct (Hch r Hr) as (child & Hchild & Hctx).
      rewrite (Sequence_compile_with_heap _ h h')
        by (by rewrite Hchild; apply Hsame).
      apply Sequence_compile_with_ext. intros o c' Ho Hc'. apply IH.
      intros r' Hr'. assert (o = child) as -> by congruence.
      destruct (Hfam r child c' r' Hchild Hc' Hr') as (child' & Hchild' & Hctx').
      exists child'. split; [done|congruence]. }
    destruct c as [fn|b|l|w]; [done| | |];
      rewrite ?compile_Branch, ?compile_ForLoop, ?compile_WhileLoop;
      unfold Sequence_compile.
    - rewrite !Hseq; [done|simpl; set_solver..].
    - rewrite !Hseq; [done|simpl; set_solver..].
    - rewrite !Hseq; [done|simpl; set_solver..]. }
  intros d a o Ha Hctx.
  assert (Hin : ∀ c, c ∈ _seq o →
            Compilable_compile d h' c = Compilable_compile d h c).
  { intros c Hc. apply Hnode. intros r Hr.
    destruct (Hfam a o c r Ha Hc Hr) as (child & Hchild & Hctx').
    exists child. split; [done|congruence]. }
  split.
  - unfold Sequence_compile.
    rewrite (Sequence_compile_with_heap _ h h') by (by rewrite Ha; apply Hsame).
    apply Sequence_compile_with_ext. intros o' c Ho' Hc.
    assert (o' = o) as -> by congruence. by apply Hin.
  - unfold get_cmds, get_cmds_with.
    rewrite (deref_Some _ _ _ Ha), (deref_Some _ _ _ (Hsame a o Ha Hctx)).
    cbn [rbind]. by apply comprehension_ext.
Qed.

(** X21. Scripts do not get in each other's way.  In the heap a
    program leaves that made its control-flow nodes with [if_], [while_]
    and [for_], every child sequence is in the script scope of the
    sequence that holds its node, and a script scope is its own; so a
    call on a sequence of one script scope, whatever it adds, changes
    no object of another scope, and every sequence of another scope
    compiles to what it compiled to before, at every depth. *)
Theorem other_scripts_are_untouched (calls : list Call) (call : Call)
    (b a : addr) (ob oa : Object) :
  Forall api_call calls →
  receiver call = Some b →
  (run calls []).2 !! b = Some ob → (run calls []).2 !! a = Some oa →
  _ctx oa ≠ _ctx ob →
  scoped_heap (run calls []).2 ∧
  (exec call (run calls []).2).2 !! a = Some oa ∧
  (∀ d, Sequence_compile d (exec call (run calls []).2).2 a =
        Sequence_compile d (run calls []).2 a) ∧
  (∀ d, get_cmds d (exec call (run calls []).2).2 a = get_cmds d (run calls []).2 a).
Proof.
  intros Hcalls Hrec Hb Ha Hne.
  set (h := (run calls []).2) in *.
  assert (Hok : scopes_ok h) by exact (run_scopes_ok calls [] scopes_ok_nil).
  pose proof (run_scoped calls Hcalls) as Hscoped. fold h in Hscoped.
  assert (Hsame : ∀ x ox, h !! x = Some ox → _ctx ox = _ctx oa →
            (exec call h).2 !! x = Some ox).
  { intros x ox Hx Hctx.
    destruct (exec_cases call h) as [[_ ->]|(_ & _ & Hframe)]; [done|].
    rewrite Hframe; [done|by eapply lookup_lt_Some|].
    assert (Hxb : x ≠ b) by (intros ->; congruence).
    assert (Hxs : x ≠ scope_of h b).
    { unfold scope_of. rewrite Hb. intros ->.
      destruct (Hok b ob Hb) as [_ (c & f & Hc & Hf)].
      destruct Hscoped as [_ Hself]. pose proof (Hself _ _ _ Hc Hf). congruence. }
    destruct call; simplify_eq/=; set_solver. }
  split; [done|]. split; [by apply Hsame|].
  split; intros d;
    by destruct (compile_scope_frame h _ (_ctx oa) Hscoped Hsame d a oa Ha eq_refl).
Qed.

End CallFacts.


(** ** The theorems at work on a new script scope *)

#[local] Existing Instance text_extern.

Lemma well_formed_heap0 : well_formed heap0.
Proof.
  intros [|a] o Ha; [|done]. injection Ha as <-. split; [done|].
  intros c r Hc. by apply elem_of_nil in Hc.
Defined.

Lemma get_cmds_insertion_order_witness :
  heap0 !! 0 = Some scope0 ∧ _seq scope0 = [] ∧
  get_cmds 0 heap0 0 = Ok [] ∧
  ∃ h', add_all 0 [inr "a"; inr "b"] heap0 = (Ok tt, h') ∧
        get_cmds 1 h' 0 = Ok [StmtObj "a"; StmtObj "b"] ∧
        Sequence_compile 1 h' 0 = Ok (ScriptObj [StmtObj "a"; StmtObj "b"] [] []).
Proof.
  split; [reflexivity|]. split; [reflexivity|].
  destruct (get_cmds_insertion_order heap0 0 scope0 [inr "a"; inr "b"] 0
              eq_refl eq_refl)
    as (Hempty & _ & _ & h' & Hadd & Hiff & _ & _ & _ & Hbare).
  split; [exact Hempty|]. exists h'. split; [exact Hadd|].
  split; [apply Hiff; repeat constructor|].
  destruct (Hbare ["a"; "b"] eq_refl) as (_ & _ & Hscript).
  exact (Hscript FnContext_fields0 eq_refl).
Defined.

Lemma add_arg_add_key_indices_witness :
  heap0 !! 0 = Some scope0 ∧ cls scope0 = FnContext_cls FnContext_fields0 ∧
  scope_inv (E := text_extern) FnContext_fields0 ∧
  (∃ h', add_args 0 ["a"; "b"; "c"] heap0 =
           (Ok [ {| arg_name := "a"; arg_index := 0 |};
                 {| arg_name := "b"; arg_index := 1 |};
                 {| arg_name := "c"; arg_index := 2 |} ], h')) ∧
  (∃ h', (do a <~ FnContext_add_arg 0 "x";
          do k <~ FnContext_add_key 0 "x";
          ret (a, k)) heap0 =
           (Ok ({| arg_name := "x"; arg_index := 0 |},
                {| key_name := "x"; key_index := 0 |}), h')).
Proof.
  assert (Hinv : scope_inv (E := text_extern) FnContext_fields0).
  { repeat split; intros; simpl in *; done. }
  split; [reflexivity|]. split; [reflexivity|]. split; [exact Hinv|].
  destruct (add_arg_add_key_indices heap0 0 scope0 FnContext_fields0 "x"
              eq_refl eq_refl Hinv)
    as (_ & _ & _ & _ & Hargs & _ & Hboth).
  split.
  - apply (Hargs ["a"; "b"; "c"]).
    + apply (bool_decide_unpack (NoDup ["a"; "b"; "c"])). reflexivity.
    + intros n _ Hn. by apply elem_of_nil in Hn.
  - apply Hboth; intros Hn; by apply elem_of_nil in Hn.
Defined.

Lemma failed_declaration_changes_nothing_witness :
  heap1 !! 0 = Some scope1 ∧ cls scope1 = FnContext_cls fields1 ∧
  scope_inv fields1 ∧ "x" ∈ map fst (_args fields1) ∧
  FnContext_add_arg 0 "x" heap1 =
    (Raise (ValueError "ambiguous arg name: x"), heap1) ∧
  (do _ <~ attempt (FnContext_add_arg 0 "x"); FnContext_add_arg 0 "y") heap1 =
    FnContext_add_arg 0 "y" heap1.
Proof.
  assert (Hinv : scope_inv fields1).
  { split; [|split; [done|split]].
    - simpl. set_solver.
    - intros [|i] n a Hi; simpl in Hi; by simplify_eq.
    - intros i n a Hi. done. }
  assert (Hin : "x" ∈ map fst (_args fields1)) by (simpl; set_solver).
  split; [reflexivity|]. split; [reflexivity|]. split; [exact Hinv|].
  split; [exact Hin|].
  destruct (failed_declaration_changes_nothing heap1 0 "x") as (_ & _ & Hdup).
  destruct (Hdup scope1 fields1 eq_refl eq_refl Hinv) as [Harg _].
  destruct (Harg Hin) as [Hfail Hlater]. split; [exact Hfail|]. apply Hlater.
Defined.


Example example_program_compiles :
  Sequence_compile 3 (run example_program []).2 0 =
    Ok (ScriptObj
          [ DeclareObj ("a", 0); DeclareObj ("k", 0);
            BranchObj "c"
              (SeqObj [ StmtObj "x";
                        ForObj "xs" {| index_name := "ix_0" |}
                          {| var_name := "val_0" |} (SeqObj [StmtObj "y"]) ])
              (SeqObj []);
            ForObj "zs" {| index_name := "ix_1" |} {| var_name := "val_1" |}
              (SeqObj []);
            ReturnObj None ]
          ["a"] ["k"]).
Proof. by vm_compute. Qed.

Example example_program_loops :
  (run example_program []).1 =
    [ Loop 0 {| ix_index := 0 |} {| val_index := 0 |};
      Loop 0 {| ix_index := 1 |} {| val_index := 1 |} ].
Proof. by vm_compute. Qed.

Lemma loop_ids_distinct_per_scope_witness :
  Forall (λ call, ¬ direct_add_loop call) example_program ∧
  map (λ l, ix_index l.1) (loops_of (events_in 0 (run example_program []).1)) =
    [0; 1].
Proof.
  assert (Hcalls : Forall (λ call, ¬ direct_add_loop call) example_program)
    by (repeat constructor; intros []).
  split; [exact Hcalls|].
  destruct (loop_ids_distinct_per_scope example_program 0)
    as (_ & _ & _ & Hseq & _).
  exact (Hseq Hcalls).
Defined.

(** An id the program takes with [add_loop] is skipped by the loops. *)
Example direct_add_loop_skips_an_id :
  (run [NewFnContext; For_ 0 "xs"; AddLoop 0; NewForLoop 0 "ys"; For_ 1 "zs"] []).1 =
    [ Loop 0 {| ix_index := 0 |} {| val_index := 0 |};
      Allocated 0 1;
      Loop 0 {| ix_index := 2 |} {| val_index := 2 |};
      Loop 0 {| ix_index := 3 |} {| val_index := 3 |} ].
Proof. by vm_compute. Qed.

Example example_program_well_formed :
  Forall api_call example_program ∧ well_formed (run example_program []).2.
Proof.
  assert (Hapi : Forall api_call example_program) by (repeat constructor).
  split; [done|]. by apply built_heap_invariants.
Qed.

(** * Proofs about the builtins *)

(** ** The further theorems at work *)


Lemma structured_script_compiles_witness :
  well_formed heap0 ∧ heap0 !! 0 = Some scope0 ∧ _ctx scope0 = 0 ∧
  cls scope0 = FnContext_cls FnContext_fields0 ∧ get_cmds 0 heap0 0 = Ok [] ∧
  ∃ h',
    (do _ <~ build_block example_body 0; FnContext_set_return_value 0 None) heap0
      = (Ok tt, h') ∧
    Sequence_compile 3 h' 0 =
      Ok (ScriptObj
            [ BranchObj "c"
                (SeqObj [ StmtObj "x";
                          ForObj "xs" {| index_name := "ix_0" |}
                            {| var_name := "val_0" |} (SeqObj [StmtObj "y"]) ])
                (SeqObj []);
              ForObj "zs" {| index_name := "ix_1" |} {| var_name := "val_1" |}
                (SeqObj []);
              ReturnObj None ]
            [] []).
Proof.
  split; [exact well_formed_heap0|]. do 4 (split; [reflexivity|]).
  destruct (structured_script_compiles example_body None heap0 0 scope0
              FnContext_fields0 0 [] well_formed_heap0 eq_refl eq_refl eq_refl eq_refl)
    as (h' & Hrun & _ & Hcompile).
  exists h'. split; [exact Hrun|]. apply (Hcompile 3); vm_compute; lia.
Defined.

Lemma built_sequences_compile_witness :
  Forall (user_nodes returning_helper) example_program ∧
  length (run example_program []).2 ≤ 5 ∧
  ∃ o cmds,
    (run example_program []).2 !! 0 = Some o ∧ length cmds = 5 ∧
    Sequence_compile 5 (run example_program []).2 0 = Ok (ScriptObj cmds ["a"] ["k"]).
Proof.
  assert (Hcalls : Forall (user_nodes returning_helper) example_program)
    by (repeat constructor).
  assert (Hlen : length (run example_program []).2 ≤ 5) by (vm_compute; lia).
  split; [exact Hcalls|]. split; [exact Hlen|].
  eexists.
  destruct (built_sequences_compile example_program 0 _ 5 Hcalls eq_refl Hlen)
    as (cmds & Hcmds & _ & Hcompile).
  exists cmds. split; [reflexivity|]. split; [exact Hcmds|exact Hcompile].
Defined.

Lemma registered_variables_keep_their_place_witness :
  ∃ o f,
    (run example_program []).2 !! 0 = Some o ∧ cls o = FnContext_cls f ∧
    map fst (_args f) = ["a"] ∧ NoDup (map fst (_args f)) ∧
    ∃ cmds, length cmds = 5 ∧
      Sequence_compile 5 (run example_program []).2 0 = Ok (ScriptObj cmds ["a"] ["k"]).
Proof.
  eexists _, _. split; [reflexivity|]. split; [reflexivity|]. split; [reflexivity|].
  destruct (registered_variables_keep_their_place example_program 0 _ _
              eq_refl eq_refl) as (Hnodup & _ & _ & _ & _ & _ & _ & _ & Hreturns).
  split; [exact Hnodup|].
  assert (Hcalls : Forall (user_nodes returning_helper) example_program)
    by (repeat constructor).
  assert (Hlen : length (run example_program []).2 ≤ 5) by (vm_compute; lia).
  exact (Hreturns Hcalls 5 Hlen).
Defined.

Lemma node_in_its_own_sequence_witness :
  head (children (IsBranch own_branch)) = Some 1 ∧
  ∃ o rest,
    (run own_branch_program []).2 !! 1 = Some o ∧
    _seq o = IsBranch own_branch :: rest ∧ cls o ≠ Sequence_cls ∧
    Compilable_compile 1000 (run own_branch_program []).2 (IsBranch own_branch)
      = Raise RecursionError ∧
    Sequence_compile 1000 (run own_branch_program []).2 0 = Raise RecursionError.
Proof.
  split; [reflexivity|]. eexists _, _. split; [reflexivity|]. split; [reflexivity|].
  assert (Hcls : Seq_cls (E := text_extern) ≠ Sequence_cls) by discriminate.
  split; [exact Hcls|].
  destruct (node_in_its_own_sequence (run own_branch_program []).2
              (IsBranch own_branch) 1 _ _ eq_refl eq_refl eq_refl Hcls)
    as (Hnode & _ & Hseq).
  split; [apply Hnode|].
  eapply Hseq; [reflexivity|reflexivity|discriminate].
Defined.

Lemma add_local_indices_witness :
  heap0 !! 0 = Some scope0 ∧ cls scope0 = FnContext_cls FnContext_fields0 ∧
  ∃ h', add_locals 0 [Some "x"; None] heap0 =
          (Ok [ {| local_init := Some "x"; local_index := 0 |};
                {| local_init := None; local_index := 1 |} ], h').
Proof.
  split; [reflexivity|]. split; [reflexivity|].
  destruct (add_local_indices heap0 0 scope0 FnContext_fields0 eq_refl eq_refl)
    as (_ & Hall & _).
  destruct (Hall [Some "x"; None]) as (h' & _ & _ & Hrun & _).
  exists h'. exact Hrun.
Defined.

Lemma is_empty_iff_no_commands_witness :
  heap0 !! 0 = Some scope0 ∧ Sequence_is_empty 0 heap0 = (Ok true, heap0).
Proof.
  split; [reflexivity|].
  exact (proj1 (is_empty_iff_no_commands heap0 0 scope0 eq_refl)).
Defined.


Lemma call_leaves_the_rest_witness :
  ∃ o, (run own_branch_program []).2 !! 2 = Some o ∧
       (2 ∉ touches (Add (E := text_extern) 1 (inr "x")) (run own_branch_program []).2) ∧
       (exec (Add (E := text_extern) 1 (inr "x")) (run own_branch_program []).2).2 !! 2
         = Some o.
Proof.
  eexists.
  assert (Hnot : 2 ∉ touches (Add (E := text_extern) 1 (inr "x"))
                      (run own_branch_program []).2).
  { intros Hin%list_elem_of_singleton. discriminate Hin. }
  split; [reflexivity|]. split; [exact Hnot|].
  exact (call_leaves_the_rest (Add (E := text_extern) 1 (inr "x"))
           (run own_branch_program []).2 2 _ eq_refl Hnot).
Defined.

Lemma other_scripts_are_untouched_witness :
  Forall api_call two_scripts ∧
  ∃ ob oa,
    (run two_scripts []).2 !! 1 = Some ob ∧ (run two_scripts []).2 !! 3 = Some oa ∧
    _ctx oa ≠ _ctx ob ∧
    (exec (For_ (E := text_extern) 1 "xs") (run two_scripts []).2).2 !! 3 = Some oa ∧
    ∀ d, Sequence_compile d (exec (For_ (E := text_extern) 1 "xs")
                               (run two_scripts []).2).2 3 =
         Sequence_compile d (run two_scripts []).2 3.
Proof.
  assert (Hcalls : Forall api_call two_scripts) by (repeat constructor).
  split; [exact Hcalls|]. eexists _, _.
  assert (Hne : 3 ≠ 0) by lia.
  split; [reflexivity|]. split; [reflexivity|]. split; [exact Hne|].
  destruct (other_scripts_are_untouched two_scripts (For_ (E := text_extern) 1 "xs")
              1 3 _ _ Hcalls eq_refl eq_refl eq_refl Hne) as (_ & Hsame & Hcompile & _).
  split; [exact Hsame|exact Hcompile].
Defined.

Section BuiltinFacts.
Context {R : PyRuntime}.

(** ** [str.find] finds the first occurrence *)

Lemma occurs_at_0 sub s : occurs_at sub s 0 ↔ String.prefix sub s = true.
Proof.
  unfold occurs_at. revert s. induction sub as [|a sub IH]; intros s.
  - destruct s; simpl; (split; [done|]); intros _; (split; [lia|done]).
  - destruct s as [|b s]; simpl.
    + split; [intros [? _]; lia | done].
    + destruct (ascii_dec a b) as [->|Hne].
      * rewrite <- IH. simpl. split.
        -- intros [Hlen [= Hs]]. split; [lia|done].
        -- intros [Hlen Hs]. split; [lia|by rewrite Hs].
      * split; [|done]. intros [_ [= Hab _]]. congruence.
Qed.

Lemma occurs_at_S sub c s i :
  occurs_at sub (String c s) (S i) ↔ occurs_at sub s i.
Proof. unfold occurs_at. simpl. split; intros [? ?]; (split; [lia|done]). Qed.

Lemma occurs_at_nil sub i : occurs_at sub EmptyString i ↔ i = 0 ∧ sub = EmptyString.
Proof.
  unfold occurs_at. simpl. split.
  - intros [Hlen _]. destruct sub; simpl in *; [split; [lia|done] | lia].
  - intros [-> ->]. done.
Qed.

(** What [index] returns: the first occurrence at or after [n], or
    [None] when there is none. *)
Lemma index_first n sub s :
  match String.index n sub s with
  | Some m => n ≤ m ∧ occurs_at sub s m ∧ ∀ j, n ≤ j < m → ¬ occurs_at sub s j
  | None => ∀ j, n ≤ j → ¬ occurs_at sub s j
  end.
Proof.
  revert n. induction s as [|b s IH]; intros n.
  - destruct n as [|n]; simpl.
    + destruct sub as [|a sub].
      * split; [done|]. split; [by apply occurs_at_nil|]. intros j. lia.
      * intros j _ [_ [=]]%occurs_at_nil.
    + intros j Hj [-> _]%occurs_at_nil. lia.
  - destruct n as [|n]; cbn [String.index].
    + destruct (String.prefix sub (String b s)) eqn:Hp.
      * split; [done|]. split; [by apply occurs_at_0|]. intros j. lia.
      * specialize (IH 0). destruct (String.index 0 sub s) as [m|].
        -- destruct IH as (_ & Hocc & Hfirst). split; [lia|].
           split; [by apply occurs_at_S|]. intros [|j] Hj.
           ++ rewrite occurs_at_0. congruence.
           ++ rewrite occurs_at_S. apply Hfirst. lia.
        -- intros [|j] _.
           ++ rewrite occurs_at_0. congruence.
           ++ rewrite occurs_at_S. apply IH. lia.
    + specialize (IH n). destruct (String.index n sub s) as [m|].
      * destruct IH as (Hle & Hocc & Hfirst). split; [lia|].
        split; [by apply occurs_at_S|]. intros [|j] Hj; [lia|].
        rewrite occurs_at_S. apply Hfirst. lia.
      * intros [|j] Hj; [lia|]. rewrite occurs_at_S. apply IH. lia.
Qed.

Lemma index_Some_iff n sub s m :
  String.index n sub s = Some m ↔
  n ≤ m ∧ occurs_at sub s m ∧ ∀ j, n ≤ j < m → ¬ occurs_at sub s j.
Proof.
  pose proof (index_first n sub s) as Hspec. split.
  - intros Hm. by rewrite Hm in Hspec.
  - intros (Hle & Hocc & Hfirst). destruct (String.index n sub s) as [m'|].
    + destruct Hspec as (Hle' & Hocc' & Hfirst'). f_equal.
      destruct (Nat.lt_trichotomy m m') as [Hlt|[Heq|Hgt]]; [|done|].
      * by destruct (Hfirst' m); [lia|].
      * by destruct (Hfirst m'); [lia|].
    + by destruct (Hspec m).
Qed.

Lemma index_None_iff n sub s :
  String.index n sub s = None ↔ ∀ j, n ≤ j → ¬ occurs_at sub s j.
Proof.
  pose proof (index_first n sub s) as Hspec. split.
  - intros Hm. by rewrite Hm in Hspec.
  - intros Hnone. destruct (String.index n sub s) as [m|]; [|done].
    destruct Hspec as (Hle & Hocc & _). by destruct (Hnone m).
Qed.

Lemma find_result_Some i :
  (if (Z.of_nat i <? 0)%Z then JNone else JInt (Z.of_nat i)) = JInt (Z.of_nat i).
Proof. by rewrite (proj2 (Z.ltb_ge _ _)) by lia. Qed.

Lemma GStringFindFn_call_2 hay ndl :
  GStringFindFn_call [hay; ndl] =
    Ok (match String.index 0 (py_str ndl) (py_str hay) with
        | Some i => JInt (Z.of_nat i)
        | None => JNone
        end).
Proof.
  unfold GStringFindFn_call, str_find. simpl.
  destruct (String.index 0 (py_str ndl) (py_str hay)) as [i|]; [|done].
  by rewrite find_result_Some.
Qed.

Lemma GStringFindFn_call_3 hay ndl off k :
  py_int off = Ok k →
  GStringFindFn_call [hay; ndl; off] =
    Ok (match String.index (slice_start (String.length (py_str hay)) (Some k))
                (py_str ndl) (py_str hay) with
        | Some i => JInt (Z.of_nat i)
        | None => JNone
        end).
Proof.
  intros Hk. unfold GStringFindFn_call, str_find.
  cbn [getitem lookup list_lookup length Nat.ltb Nat.leb rbind].
  rewrite Hk. cbn [rbind].
  destruct (String.index _ (py_str ndl) (py_str hay)) as [i|]; [|done].
  by rewrite find_result_Some.
Qed.

(** C7. [string.find] takes two arguments and at most three.  With the
    haystack and the needle it returns the index, counted from 0, of the
    first place where the needle occurs in the haystack, and nil exactly
    when the needle occurs nowhere.  With a third argument that [int]
    turns into an offset, as it does an integer, it returns the first such index at or after the start the
    offset denotes (the offset itself when it is not negative), and nil
    exactly when there is no occurrence from there on.  Arguments that
    are strings are searched as they are.  The two examples of the
    specification evaluate to 6 and to nil. *)
Theorem string_find_first_occurrence (hay ndl : JSONType) :
  GStringFindFn_name = "string.find" ∧
  GStringFindFn_argc = {| count := 2; at_most := Some 3 |} ∧
  (∀ s, py_str (JStr s) = s) ∧
  (∀ i : nat,
     GStringFindFn_call [hay; ndl] = Ok (JInt (Z.of_nat i)) ↔
     occurs_at (py_str ndl) (py_str hay) i ∧
     ∀ j, j < i → ¬ occurs_at (py_str ndl) (py_str hay) j) ∧
  (GStringFindFn_call [hay; ndl] = Ok JNone ↔
     ∀ j, ¬ occurs_at (py_str ndl) (py_str hay) j) ∧
  (GStringFindFn_call [hay; ndl] = Ok JNone ∨
     ∃ i : nat, GStringFindFn_call [hay; ndl] = Ok (JInt (Z.of_nat i))) ∧
  (∀ (off : JSONType) (k : Z) (i : nat),
     py_int off = Ok k →
     let start := slice_start (String.length (py_str hay)) (Some k) in
     GStringFindFn_call [hay; ndl; off] = Ok (JInt (Z.of_nat i)) ↔
     start ≤ i ∧ occurs_at (py_str ndl) (py_str hay) i ∧
     ∀ j, start ≤ j < i → ¬ occurs_at (py_str ndl) (py_str hay) j) ∧
  (∀ (off : JSONType) (k : Z),
     py_int off = Ok k →
     let start := slice_start (String.length (py_str hay)) (Some k) in
     GStringFindFn_call [hay; ndl; off] = Ok JNone ↔
     ∀ j, start ≤ j → ¬ occurs_at (py_str ndl) (py_str hay) j) ∧
  (∀ k : Z, py_int (JInt k) = Ok k) ∧
  (∀ (len : nat) (k : Z), (0 ≤ k)%Z → slice_start len (Some k) = Z.to_nat k) ∧
  GStringFindFn_call [JStr "hello world"; JStr "world"] = Ok (JInt 6) ∧
  GStringFindFn_call [JStr "abc"; JStr "z"] = Ok JNone.
Proof.
  split; [done|]. split; [done|]. split; [done|].
  split; [|split; [|split; [|split; [|split; [|split; [|split; [|split]]]]]]].
  - intros i. rewrite GStringFindFn_call_2.
    destruct (String.index 0 (py_str ndl) (py_str hay)) as [m|] eqn:Hidx.
    + split.
      * intros [= Hm%Nat2Z.inj]. subst m.
        apply index_Some_iff in Hidx as (_ & Hocc & Hfirst).
        split; [done|]. intros j Hj. apply Hfirst. lia.
      * intros [Hocc Hfirst].
        assert (String.index 0 (py_str ndl) (py_str hay) = Some i) as Hi.
        { apply index_Some_iff. split; [lia|]. split; [done|].
          intros j Hj. apply Hfirst. lia. }
        congruence.
    + split; [done|]. intros [Hocc _].
      rewrite index_None_iff in Hidx. by destruct (Hidx i); [lia|].
  - rewrite GStringFindFn_call_2.
    destruct (String.index 0 (py_str ndl) (py_str hay)) as [m|] eqn:Hidx.
    + split; [done|]. intros Hnone.
      apply index_Some_iff in Hidx as (_ & Hocc & _). by destruct (Hnone m).
    + split; [|done]. intros _ j.
      rewrite index_None_iff in Hidx. apply Hidx. lia.
  - rewrite GStringFindFn_call_2.
    destruct (String.index 0 (py_str ndl) (py_str hay)) as [m|];
      [right; by exists m | by left].
  - intros off k i Hk start. rewrite (GStringFindFn_call_3 _ _ _ _ Hk). fold start.
    destruct (String.index start (py_str ndl) (py_str hay)) as [m|] eqn:Hidx.
    + split.
      * intros [= Hm%Nat2Z.inj]. subst m. by apply index_Some_iff.
      * intros Hi%index_Some_iff. congruence.
    + split; [done|]. intros (Hle & Hocc & _).
      rewrite index_None_iff in Hidx. by destruct (Hidx i).
  - intros off k Hk start. rewrite (GStringFindFn_call_3 _ _ _ _ Hk). fold start.
    destruct (String.index start (py_str ndl) (py_str hay)) as [m|] eqn:Hidx.
    + split; [done|]. intros Hnone.
      apply index_Some_iff in Hidx as (Hle & Hocc & _). by destruct (Hnone m).
    + split; [|done]. intros _. by apply index_None_iff.
  - done.
  - intros len k Hk. unfold slice_start.
    by rewrite (proj2 (Z.ltb_ge _ _)) by lia.
  - by vm_compute.
  - by vm_compute.
Qed.

(** ** [tonumber] *)

(** [int] rejects an argument with a [TypeError] or a [ValueError],
    except an infinite float, which is an [OverflowError]. *)
Lemma py_int_error_kinds v e :
  py_int v = Raise e →
  e = TypeError ∨ (∃ msg, e = ValueError msg) ∨ (e = OverflowError ∧ infinite_float v).
Proof.
  destruct v as [|b|n|x|s|l|d]; simpl.
  - intros [= <-]. by left.
  - done.
  - done.
  - unfold int_of_float, infinite_float.
    destruct (FloatOps.Prim2SF x) as [sg|sg| |sg m ex] eqn:Hx; [done| | |done].
    + intros [= <-]. right. right. split; [done|]. by exists x, sg.
    + intros [= <-]. right. left. by eexists.
  - unfold int_of_str. destruct (parse_int s); [done|].
    intros [= <-]. right. left. by eexists.
  - intros [= <-]. by left.
  - intros [= <-]. by left.
Qed.

(** X22. [tonumber] takes one argument.  For every
    argument that is not an infinite float: when [int] accepts it the
    result is that integer; otherwise the result is what [float] makes
    of it, and the call fails with the error of [float] when [float]
    rejects it too.  So ["42"] gives the integer 42, ["3.14"] the float
    nearest to 3.14, and ["x"] fails. *)
Theorem tonumber_int_then_float (v : JSONType) :
  ¬ infinite_float v →
  GToNumberFn_argc = {| count := 1; at_most := None |} ∧
  GToNumberFn_call [v] =
    match py_int v with
    | Ok n => Ok (JInt n)
    | Raise _ => let* x := py_float v in Ok (JFloat x)
    end ∧
  (∀ e e', py_int v = Raise e → py_float v = Raise e' →
     GToNumberFn_call [v] = Raise e') ∧
  GToNumberFn_call [JStr "42"] = Ok (JInt 42) ∧
  GToNumberFn_call [JStr "3.14"] =
    Ok (JFloat (FloatOps.SF2Prim
                  (SpecFloat.S754_finite false 7070651414971679 (-51)))) ∧
  GToNumberFn_call [JStr "x"] =
    Raise (ValueError "could not convert string to float: 'x'").
Proof.
  intros Hfinite.
  assert (Hcall : GToNumberFn_call [v] =
            match py_int v with
            | Ok n => Ok (JInt n)
            | Raise _ => let* x := py_float v in Ok (JFloat x)
            end).
  { unfold GToNumberFn_call. cbn [getitem lookup list_lookup rbind].
    destruct (py_int v) as [n|e] eqn:He; [done|].
    destruct (py_int_error_kinds v e He) as [->|[[msg ->]|[_ Hinf]]]; done. }
  split; [done|]. split; [done|]. split; [|split; [|split]].
  - intros e e' He He'. by rewrite Hcall, He, He'.
  - by vm_compute.
  - by vm_compute.
  - by vm_compute.
Qed.

Lemma tonumber_int_then_float_witness :
  ¬ infinite_float (JStr "42") ∧ GToNumberFn_call [JStr "42"] = Ok (JInt 42).
Proof.
  assert (Hfinite : ¬ infinite_float (JStr "42")).
  { intros (x & s & Hx & _). discriminate Hx. }
  split; [exact Hfinite|].
  destruct (tonumber_int_then_float (JStr "42") Hfinite) as (_ & Hcall & _).
  rewrite Hcall. reflexivity.
Defined.

(** C8. The code at the float infinity.  [int] rejects it with an
    [OverflowError], which the handler of [tonumber] does not name: the
    call raises it and never asks [float], which would have returned the
    infinity.  The paths beside it do fall back to [float]: the string
    ["inf"] gives the float infinity, and a float that is not a number,
    which [int] rejects with a [ValueError], comes back from [float]. *)
Lemma tonumber_infinity_overflow :
  py_int (JFloat PrimFloat.infinity) = Raise OverflowError ∧
  py_float (JFloat PrimFloat.infinity) = Ok PrimFloat.infinity ∧
  GToNumberFn_call [JFloat PrimFloat.infinity] = Raise OverflowError ∧
  GToNumberFn_call [JFloat PrimFloat.infinity] ≠
    (let* x := py_float (JFloat PrimFloat.infinity) in Ok (JFloat x)) ∧
  GToNumberFn_call [JStr "inf"] = Ok (JFloat PrimFloat.infinity) ∧
  (∃ msg, py_int (JFloat PrimFloat.nan) = Raise (ValueError msg)) ∧
  GToNumberFn_call [JFloat PrimFloat.nan] = Ok (JFloat PrimFloat.nan).
Proof.
  repeat split; try by vm_compute.
  eexists. by vm_compute.
Qed.

(** ** [cjson.encode] *)

Lemma all_chars_app p s1 s2 :
  all_chars p (s1 +:+ s2) = all_chars p s1 && all_chars p s2.
Proof.
  induction s1 as [|c s1 IH]; simpl; [done|]. by rewrite IH, andb_assoc.
Qed.

Lemma count_char_app c s1 s2 :
  count_char c (s1 +:+ s2) = count_char c s1 + count_char c s2.
Proof. induction s1 as [|c' s1 IH]; simpl; [done|]. rewrite IH. lia. Qed.

Lemma escape_char_printable c : all_chars printable (escape_char c) = true.
Proof. by destruct c as [[] [] [] [] [] [] [] []]. Qed.

Lemma escape_char_spaces c :
  count_char " " (escape_char c) = if Ascii.eqb " " c then 1 else 0.
Proof. by destruct c as [[] [] [] [] [] [] [] []]. Qed.

Lemma escape_printable s : all_chars printable (escape s) = true.
Proof.
  induction s as [|c s IH]; simpl; [done|].
  by rewrite all_chars_app, escape_char_printable, IH.
Qed.

Lemma escape_spaces s : count_char " " (escape s) = count_char " " s.
Proof.
  induction s as [|c s IH]; [done|]. cbn [escape count_char].
  by rewrite count_char_app, escape_char_spaces, IH.
Qed.

Lemma printable_no_newline s :
  all_chars printable s = true → count_char (ascii_of_nat 10) s = 0.
Proof.
  induction s as [|c s IH]; [done|]. cbn [all_chars count_char].
  intros [Hc Hs]%andb_true_iff. rewrite (IH Hs).
  destruct (Ascii.eqb_spec (ascii_of_nat 10) c) as [<-|]; [|done].
  by vm_compute in Hc.
Qed.

(** C6. [cjson.encode] takes one argument and returns what [json.dumps]
    with sorted keys and the separators ["," ] and [":"] writes for the
    text [f"{v}"] of its argument.  The value given to [json.dumps] is a
    string, so neither option has anything to act on and the result is
    that text between two quotes, escaped: it consists of visible ASCII
    characters and spaces only, hence holds no newline, and it has as
    many spaces as the text itself.  A list or a dictionary is therefore
    not written as a JSON array or object: the result differs from the
    structural serialization, as for the list of 1 and 2. *)
Theorem cjson_encode_stringifies (v : JSONType) :
  GCJSONEncodeFn_argc = {| count := 1; at_most := None |} ∧
  GCJSONEncodeFn_call [v] = Ok (JStr (json_dumps (JStr (py_str v)) true (",", ":"))) ∧
  (∀ sort_keys separators,
     json_dumps (JStr (py_str v)) sort_keys separators =
       String quote (escape (py_str v) +:+ String quote EmptyString)) ∧
  (∃ out, GCJSONEncodeFn_call [v] = Ok (JStr out) ∧
     all_chars printable out = true ∧
     count_char (ascii_of_nat 10) out = 0 ∧
     count_char " " out = count_char " " (py_str v)) ∧
  (∀ l, v = JList l →
     GCJSONEncodeFn_call [v] ≠ Ok (JStr (json_dumps v true (",", ":")))) ∧
  (∀ d, v = JDict d →
     GCJSONEncodeFn_call [v] ≠ Ok (JStr (json_dumps v true (",", ":")))) ∧
  GCJSONEncodeFn_call [JList [JInt 1; JInt 2]] =
    Ok (JStr (String quote ("[1, 2]" +:+ String quote EmptyString))) ∧
  json_dumps (JList [JInt 1; JInt 2]) true (",", ":") = "[1,2]".
Proof.
  split; [done|]. split; [done|]. split; [done|].
  split; [|split; [|split; [|split]]].
  - eexists. split; [reflexivity|]. cbn [json_dumps]. unfold encode_basestring_ascii.
    assert (Hp : all_chars printable
              (String quote (escape (py_str v) +:+ String quote EmptyString)) = true).
    { cbn [all_chars]. by rewrite all_chars_app, escape_printable. }
    split; [done|]. split.
    + by apply printable_no_newline.
    + unfold encode_basestring_ascii. cbn [count_char].
      rewrite count_char_app, escape_spaces. simpl. lia.
  - intros l ->. unfold GCJSONEncodeFn_call.
    cbn [getitem lookup list_lookup rbind json_dumps encode_basestring_ascii].
    by intros [=].
  - intros d ->. unfold GCJSONEncodeFn_call.
    cbn [getitem lookup list_lookup rbind json_dumps encode_basestring_ascii].
    by intros [=].
  - by vm_compute.
  - by vm_compute.
Qed.

End BuiltinFacts.

(** * More proofs about the builtins *)

Section MoreBuiltinFacts.
Context {R : PyRuntime}.

(** ** [tostring] *)

(** X16. [tostring] takes one argument and always returns a string:
    ["true"] or ["false"] for a boolean, ["nil"] for [None], a string
    itself, an integer in decimal digits; applied to its own result it
    returns it unchanged.  A list or a dictionary is written in Python's
    notation, and a boolean or [None] inside it as Python writes them.
    Without an argument the call raises [IndexError]. *)
Theorem tostring_returns_text (v : JSONType) :
  GToStringFn_argc = {| count := 1; at_most := None |} ∧
  GToStringFn_call [] = Raise IndexError ∧
  (∃ s, GToStringFn_call [v] = Ok (JStr s) ∧
        GToStringFn_call [JStr s] = Ok (JStr s)) ∧
  GToStringFn_call [JBool true] = Ok (JStr "true") ∧
  GToStringFn_call [JBool false] = Ok (JStr "false") ∧
  GToStringFn_call [JNone] = Ok (JStr "nil") ∧
  (∀ s, GToStringFn_call [JStr s] = Ok (JStr s)) ∧
  (∀ n, GToStringFn_call [JInt n] = Ok (JStr (pretty n))) ∧
  (∀ l, GToStringFn_call [JList l] = Ok (JStr (py_repr (JList l)))) ∧
  (∀ d, GToStringFn_call [JDict d] = Ok (JStr (py_repr (JDict d)))) ∧
  GToStringFn_call [JList [JBool true; JNone; JStr "a"]] =
    Ok (JStr "[True, None, 'a']").
Proof.
  split; [done|]. split; [done|]. split.
  { destruct v as [|[]|n|x|s|l|d]; eexists; (split; [reflexivity|done]). }
  repeat split; done.
Qed.

(** ** Reading back the decimal text of an integer *)

Lemma digit_of_pretty_N_char (d : N) :
  (d < 10)%N → digit_of (pretty_N_char d) = Some (Z.of_N d).
Proof.
  intros Hd.
  destruct d as [|p]; [done|].
  do 4 (try destruct p as [p|p|]); first [reflexivity | lia].
Qed.

Lemma pretty_N_char_plain (d : N) :
  is_space (pretty_N_char d) = false ∧
  pretty_N_char d ≠ "-"%char ∧ pretty_N_char d ≠ "+"%char ∧
  digit_of (pretty_N_char d) ≠ None.
Proof. unfold pretty_N_char. repeat case_match; done. Qed.

Lemma digitpart_rest_digit acc n c s v :
  digit_of c = Some v →
  digitpart_rest acc n (String c s) = digitpart_rest (10 * acc + v) (S n) s.
Proof. intros Hc. cbn [digitpart_rest]. by rewrite Hc. Qed.

(** The digits [pretty_N_go] writes before [s] are read back as the
    number they stand for, and the first of them is a digit. *)
Lemma digitpart_rest_pretty_N_go (x : N) : ∀ s,
  (0 < x)%N →
  ∃ k d s',
    pretty_N_go x s = String (pretty_N_char d) s' ∧
    ∀ acc n,
      digitpart_rest acc n (pretty_N_go x s) =
        digitpart_rest (acc * 10 ^ Z.of_nat k + Z.of_N x) (n + k) s.
Proof.
  induction (N.lt_wf_0 x) as [x _ IH]. intros s Hx.
  rewrite pretty_N_go_step by done.
  assert (Hmod : (x `mod` 10 < 10)%N) by (apply N.mod_lt; lia).
  pose proof (digit_of_pretty_N_char _ Hmod) as Hdigit.
  destruct (decide (x `div` 10 = 0)%N) as [Hz|Hnz].
  - rewrite Hz, pretty_N_go_0. exists 1, (x `mod` 10)%N, s. split; [done|].
    intros acc n. rewrite (digitpart_rest_digit _ _ _ _ _ Hdigit).
    assert (x `mod` 10 = x)%N as ->.
    { pose proof (N.div_mod x 10 ltac:(lia)) as Hdm. clear -Hz Hdm. lia. }
    change (10 ^ Z.of_nat 1)%Z with 10%Z.
    replace (acc * 10 + Z.of_N x)%Z with (10 * acc + Z.of_N x)%Z by lia.
    by replace (n + 1) with (S n) by lia.
  - destruct (IH (x `div` 10)%N) with (s := String (pretty_N_char (x `mod` 10)) s)
      as (k & d & s' & Hhead & Hread).
    + apply N.div_lt; lia.
    + by apply N.neq_0_lt_0.
    + exists (S k), d, s'. split; [done|]. intros acc n.
      rewrite Hread, (digitpart_rest_digit _ _ _ _ _ Hdigit).
      pose proof (N.div_mod x 10 ltac:(lia)) as Hdm.
      assert (Z.of_N x = 10 * Z.of_N (x `div` 10) + Z.of_N (x `mod` 10))%Z
        as Hx10 by lia.
      rewrite Nat2Z.inj_succ, Z.pow_succ_r by lia.
      replace (10 * (acc * 10 ^ Z.of_nat k + Z.of_N (x `div` 10))
               + Z.of_N (x `mod` 10))%Z
        with (acc * (10 * 10 ^ Z.of_nat k) + Z.of_N x)%Z by lia.
      by replace (S (n + k)) with (n + S k) by lia.
Qed.

Lemma unsigned_int_pretty_N (x : N) : unsigned_int (pretty x) = Some (Z.of_N x).
Proof.
  unfold pretty, pretty_N. destruct (decide (x = 0)%N) as [->|Hx]; [done|].
  destruct (digitpart_rest_pretty_N_go x "") as (k & d & s' & Hhead & Hread); [lia|].
  pose proof (pretty_N_char_plain d) as (_ & _ & _ & Hd).
  unfold unsigned_int, digitpart.
  specialize (Hread 0%Z 0). rewrite Hhead in *.
  destruct (digit_of (pretty_N_char d)) as [v|] eqn:Hv; [|done].
  rewrite (digitpart_rest_digit _ _ _ _ _ Hv) in Hread.
  replace (10 * 0 + v)%Z with v in Hread by lia. rewrite Hread.
  destruct k; simpl; f_equal; lia.
Qed.

Lemma parse_int_pretty_N (x : N) : parse_int (pretty x) = Some (Z.of_N x).
Proof.
  pose proof (unsigned_int_pretty_N x) as Hx. unfold parse_int.
  unfold pretty, pretty_N in *. destruct (decide (x = 0)%N) as [->|Hnz]; [done|].
  destruct (digitpart_rest_pretty_N_go x "") as (k & d & s' & Hhead & _).
  { by apply N.neq_0_lt_0. }
  pose proof (pretty_N_char_plain d) as (Hsp & Hminus & Hplus & _).
  rewrite Hhead in *. cbn [lstrip]. rewrite Hsp.
  destruct (pretty_N_char d) as [[] [] [] [] [] [] [] []]; try done.
Qed.

Lemma parse_int_pretty (n : Z) : parse_int (pretty n) = Some n.
Proof.
  destruct n as [|p|p].
  - done.
  - apply (parse_int_pretty_N (N.pos p)).
  - pose proof (unsigned_int_pretty_N (N.pos p)) as Hp.
    change (pretty (Z.neg p)) with (String "-" (pretty (N.pos p))).
    unfold parse_int. cbn [lstrip]. change (is_space "-") with false. cbn iota.
    by rewrite Hp.
Qed.

(** X13. For every integer, [tonumber] reads back what [tostring]
    wrote: the text is the decimal notation of the integer, [tonumber]
    of that text is the integer, and [tostring] of the result is the
    same text again.  (As for [int_of_str], the interpreter's limit on
    the number of digits of a conversion is not part of the model.) *)
Theorem tonumber_reads_tostring_of_int (n : Z) :
  GToStringFn_call [JInt n] = Ok (JStr (pretty n)) ∧
  GToNumberFn_call [JStr (pretty n)] = Ok (JInt n) ∧
  (let* s := GToStringFn_call [JInt n] in GToNumberFn_call [s]) = Ok (JInt n) ∧
  (let* s := GToStringFn_call [JInt n] in
   let* m := GToNumberFn_call [s] in GToStringFn_call [m]) = Ok (JStr (pretty n)).
Proof.
  assert (Hread : GToNumberFn_call [JStr (pretty n)] = Ok (JInt n)).
  { unfold GToNumberFn_call. cbn [getitem lookup list_lookup rbind py_int].
    unfold int_of_str. by rewrite parse_int_pretty. }
  split; [done|]. split; [done|]. split.
  - cbn [GToStringFn_call getitem lookup list_lookup rbind py_str py_repr]. done.
  - cbn [GToStringFn_call getitem lookup list_lookup rbind py_str py_repr].
    by rewrite Hread.
Qed.

(** ** [type] *)

(** X15. [type] takes one argument and names every value: ["nil"],
    ["boolean"], ["number"] for an integer and for a float, ["string"],
    and ["table"] for a list and for a dictionary; the lookup in its
    table never raises [KeyError], and without an argument the call
    raises [IndexError].  What [tostring] and [cjson.encode] return is a
    ["string"], what [tonumber] returns a ["number"], and what
    [string.find] returns a ["number"] or ["nil"]. *)
Theorem type_names_every_value (v : JSONType) :
  GTypeFn_argc = {| count := 1; at_most := None |} ∧
  GTypeFn_call [] = Raises IndexError ∧
  GTypeFn_call [v] =
    Returns (JStr match v with
                  | JNone => "nil"
                  | JBool _ => "boolean"
                  | JInt _ | JFloat _ => "number"
                  | JStr _ => "string"
                  | JList _ | JDict _ => "table"
                  end) ∧
  (∀ args, GTypeFn_call args ≠ RaisesKeyError) ∧
  (∀ r, GToStringFn_call [v] = Ok r → GTypeFn_call [r] = Returns (JStr "string")) ∧
  (∀ r, GToNumberFn_call [v] = Ok r → GTypeFn_call [r] = Returns (JStr "number")) ∧
  (∀ r, GCJSONEncodeFn_call [v] = Ok r → GTypeFn_call [r] = Returns (JStr "string")) ∧
  (∀ rest r, GStringFindFn_call (v :: rest) = Ok r →
     GTypeFn_call [r] = Returns (JStr "number") ∨
     GTypeFn_call [r] = Returns (JStr "nil")).
Proof.
  split; [done|]. split; [done|]. split; [by destruct v|].
  split; [|split; [|split; [|split]]].
  - intros [|w args]; [done|]. by destruct w.
  - intros r. destruct v as [|[]|n|x|s|l|d]; by intros [= <-].
  - intros r. unfold GToNumberFn_call. cbn [getitem lookup list_lookup rbind].
    destruct (py_int v) as [n|[]]; try done; try by intros [= <-].
    + destruct (py_float v) as [x|]; [|done]. by intros [= <-].
    + destruct (py_float v) as [x|]; [|done]. by intros [= <-].
  - intros r [= <-]. done.
  - intros rest r. unfold GStringFindFn_call.
    destruct (getitem (v :: rest) 0) as [a0|]; [|done]. cbn [rbind].
    destruct (getitem (v :: rest) 1) as [a1|]; [|done]. cbn [rbind].
    destruct (if 2 <? length (v :: rest) then _ else _) as [start|]; [|done].
    cbn [rbind]. destruct (str_find _ _ _ <? 0)%Z; intros [= <-]; [by right|by left].
Qed.

(** ** [tonumber] of a float *)

(** X17. [tonumber] of a float does not return the float: a finite
    float gives an integer, its integer part towards zero; an infinity
    raises [OverflowError]; only not-a-number comes back as the float it
    is. *)
Theorem tonumber_of_float_truncates (x : PrimFloat.float) :
  match FloatOps.Prim2SF x with
  | SpecFloat.S754_zero _ => GToNumberFn_call [JFloat x] = Ok (JInt 0)
  | SpecFloat.S754_finite s m e =>
      ∃ n : Z,
        GToNumberFn_call [JFloat x] = Ok (JInt (if s then - n else n)) ∧
        (0 ≤ n)%Z ∧
        (0 ≤ e → n = Z.pos m * 2 ^ e)%Z ∧
        (e < 0 → n * 2 ^ (- e) ≤ Z.pos m < (n + 1) * 2 ^ (- e))%Z
  | SpecFloat.S754_nan => GToNumberFn_call [JFloat x] = Ok (JFloat x)
  | SpecFloat.S754_infinity _ => GToNumberFn_call [JFloat x] = Raise OverflowError
  end ∧
  (∀ y, GToNumberFn_call [JFloat x] = Ok (JFloat y) →
     y = x ∧ FloatOps.Prim2SF x = SpecFloat.S754_nan).
Proof.
  unfold GToNumberFn_call. cbn [getitem lookup list_lookup rbind py_int py_float].
  unfold int_of_float.
  destruct (FloatOps.Prim2SF x) as [s|s| |s m e] eqn:Hx; cbn [rbind].
  - split; [done|]. intros y [=].
  - split; [done|]. intros y [=].
  - split; [done|]. intros y [= <-]. done.
  - split; [|intros y [=]].
    exists (Z.shiftl (Z.pos m) e). split; [done|].
    split; [apply Z.shiftl_nonneg; lia|]. split.
    + intros He. by rewrite Z.shiftl_mul_pow2.
    + intros He. rewrite Z.shiftl_div_pow2 by lia.
      assert (0 < 2 ^ (- e))%Z as Hpow by (apply Z.pow_pos_nonneg; lia).
      pose proof (Z.div_mod (Z.pos m) (2 ^ (- e)) ltac:(lia)) as Hdm.
      pose proof (Z.mod_pos_bound (Z.pos m) (2 ^ (- e)) Hpow) as Hmod.
      nia.
Qed.

(** ** [string.find]: the edges *)

Lemma substring_0_empty s i : substring i 0 s = EmptyString.
Proof. revert i. induction s as [|c s IH]; intros [|i]; simpl; done. Qed.

Lemma occurs_at_empty s i : occurs_at EmptyString s i ↔ i ≤ String.length s.
Proof.
  unfold occurs_at. simpl. rewrite substring_0_empty. split; [intros [? _]|]; [lia|].
  intros Hi. split; [lia|done].
Qed.

Lemma index_empty n s :
  String.index n EmptyString s = if decide (n ≤ String.length s) then Some n else None.
Proof.
  destruct (decide (n ≤ String.length s)) as [Hn|Hn].
  - apply index_Some_iff. split; [done|]. split; [by apply occurs_at_empty|].
    intros j Hj. lia.
  - apply index_None_iff. intros j Hj. rewrite occurs_at_empty. lia.
Qed.

(** X18. The edges of [string.find].  With fewer than two arguments
    the call raises [IndexError]; arguments after the third are not
    read.  The empty needle is found at the start of the search when
    that is within the haystack, and nowhere otherwise.  An index that
    is returned leaves room for the needle in the haystack, and a needle
    longer than the haystack is not found.  An offset at or before
    minus the length of the haystack searches from the beginning.  A
    third argument that [int] rejects makes the call fail with the
    error of [int]: [None] is not taken for no offset. *)
Theorem string_find_edge_cases (hay ndl : JSONType) :
  (∀ args, length args < 2 → GStringFindFn_call args = Raise IndexError) ∧
  (∀ off rest,
     GStringFindFn_call (hay :: ndl :: off :: rest) = GStringFindFn_call [hay; ndl; off]) ∧
  GStringFindFn_call [hay; JStr ""] = Ok (JInt 0) ∧
  (∀ off k, py_int off = Ok k →
     let start := slice_start (String.length (py_str hay)) (Some k) in
     GStringFindFn_call [hay; JStr ""; off] =
       Ok (if decide (start ≤ String.length (py_str hay))
           then JInt (Z.of_nat start) else JNone)) ∧
  (∀ i : Z, GStringFindFn_call [hay; ndl] = Ok (JInt i) →
     (0 ≤ i ∧ i + Z.of_nat (String.length (py_str ndl))
              ≤ Z.of_nat (String.length (py_str hay)))%Z) ∧
  (String.length (py_str hay) < String.length (py_str ndl) →
     GStringFindFn_call [hay; ndl] = Ok JNone) ∧
  (∀ k : Z, (k ≤ - Z.of_nat (String.length (py_str hay)))%Z →
     GStringFindFn_call [hay; ndl; JInt k] = GStringFindFn_call [hay; ndl]) ∧
  GStringFindFn_call [hay; ndl; JNone] = Raise TypeError ∧
  (∀ e off, py_int off = Raise e → GStringFindFn_call [hay; ndl; off] = Raise e).
Proof.
  split; [|split; [|split; [|split; [|split; [|split; [|split; [|split]]]]]]].
  - intros [|a [|b args]] Hlen; [done|done|]. simpl in Hlen. lia.
  - intros off rest. done.
  - rewrite GStringFindFn_call_2. cbn [py_str]. by rewrite index_empty, decide_True by lia.
  - intros off k Hk start. rewrite (GStringFindFn_call_3 _ _ _ _ Hk). cbn [py_str].
    fold start. rewrite index_empty. by destruct (decide _).
  - intros i. rewrite GStringFindFn_call_2.
    destruct (String.index 0 (py_str ndl) (py_str hay)) as [m|] eqn:Hidx; [|done].
    intros [= <-]. apply index_Some_iff in Hidx as (_ & [Hlen _] & _). lia.
  - intros Hlen. rewrite GStringFindFn_call_2.
    destruct (String.index 0 (py_str ndl) (py_str hay)) as [m|] eqn:Hidx; [|done].
    apply index_Some_iff in Hidx as (_ & [Hm _] & _). lia.
  - intros k Hk. rewrite (GStringFindFn_call_3 _ _ _ k) by done.
    rewrite GStringFindFn_call_2. unfold slice_start.
    destruct (k <? 0)%Z eqn:Hneg.
    + by replace (Z.to_nat (Z.max 0 (Z.of_nat (String.length (py_str hay)) + k)))
        with 0 by lia.
    + apply Z.ltb_ge in Hneg. by replace (Z.to_nat k) with 0 by lia.
  - done.
  - intros e off He. unfold GStringFindFn_call.
    cbn [getitem lookup list_lookup length Nat.ltb Nat.leb rbind]. by rewrite He.
Qed.

(** ** [cjson.encode] loses nothing *)








(** ** The number of arguments a call reads *)

(** X20. For each builtin, [argc] agrees with what [call] reads: with
    fewer arguments than [count] the call raises [IndexError] (and
    [redis.log] prints nothing), and arguments beyond [at_most], or
    beyond [count] where there is no [at_most], change nothing.
    [redis.log] with two arguments returns nil and puts at the end of
    the output the text of the first, a colon and a space, the text of
    the second, and a newline: one line, when neither text has a newline
    of its own. *)
Theorem argc_is_what_call_reads (args extra : list JSONType) (stdout : string) :
  (length args < count GStringFindFn_argc →
     GStringFindFn_call args = Raise IndexError) ∧
  (length args < count GCJSONEncodeFn_argc →
     GCJSONEncodeFn_call args = Raise IndexError) ∧
  (length args < count GToNumberFn_argc →
     GToNumberFn_call args = Raise IndexError) ∧
  (length args < count GToStringFn_argc →
     GToStringFn_call args = Raise IndexError) ∧
  (length args < count GTypeFn_argc → GTypeFn_call args = Raises IndexError) ∧
  (length args < count GRedisLogFn_argc →
     GRedisLogFn_call args stdout = (Raise IndexError, stdout)) ∧
  (at_most GStringFindFn_argc = Some (length args) →
     GStringFindFn_call (args ++ extra) = GStringFindFn_call args) ∧
  (count GCJSONEncodeFn_argc = length args →
     GCJSONEncodeFn_call (args ++ extra) = GCJSONEncodeFn_call args) ∧
  (count GToNumberFn_argc = length args →
     GToNumberFn_call (args ++ extra) = GToNumberFn_call args) ∧
  (count GToStringFn_argc = length args →
     GToStringFn_call (args ++ extra) = GToStringFn_call args) ∧
  (count GTypeFn_argc = length args →
     GTypeFn_call (args ++ extra) = GTypeFn_call args) ∧
  (count GRedisLogFn_argc = length args →
     GRedisLogFn_call (args ++ extra) stdout = GRedisLogFn_call args stdout ∧
     ∃ level message, args = [level; message] ∧
       GRedisLogFn_call args stdout =
         (Ok JNone,
          stdout +:+ (py_str level +:+ ": " +:+ py_str message) +:+ newline) ∧
       count_char (ascii_of_nat 10) (py_str level +:+ ": " +:+ py_str message) =
         count_char (ascii_of_nat 10) (py_str level)
         + count_char (ascii_of_nat 10) (py_str message)).
Proof.
  repeat split.
  - destruct args as [|a [|b args]]; simpl; intros; try done; lia.
  - destruct args as [|a args]; simpl; intros; try done; lia.
  - destruct args as [|a args]; simpl; intros; try done; lia.
  - destruct args as [|a args]; simpl; intros; try done; lia.
  - destruct args as [|a args]; simpl; intros; try done; lia.
  - destruct args as [|a [|b args]]; simpl; intros; try done; lia.
  - destruct args as [|a [|b [|c [|d args]]]]; simpl; intros [=]. done.
  - destruct args as [|a [|b args]]; simpl; intros [=]. done.
  - destruct args as [|a [|b args]]; simpl; intros [=]. done.
  - destruct args as [|a [|b args]]; simpl; intros [=]. done.
  - destruct args as [|a [|b args]]; simpl; intros [=]. done.
  - destruct args as [|a [|b [|c args]]]; simpl in *; try done.
  - destruct args as [|a [|b [|c args]]]; simpl in *; try done.
    exists a, b. split; [done|]. split; [reflexivity|].
    rewrite !count_char_app. simpl. lia.
Qed.

(** ** The text of a value *)

(** X19. For a value that is neither a boolean nor [None], [tostring]
    returns the text the other builtins work on, so that [string.find]
    and [cjson.encode] give the same on the value and on its [tostring].
    For a boolean and for [None] they do not: [tostring] writes ["true"],
    ["false"] and ["nil"], the others work on ["True"], ["False"] and
    ["None"]. *)
Theorem builtins_share_the_text (v w : JSONType) :
  (v ≠ JNone → (∀ b, v ≠ JBool b) → w ≠ JNone → (∀ b, w ≠ JBool b) →
   GToStringFn_call [v] = Ok (JStr (py_str v)) ∧
   (let* a := GToStringFn_call [v] in
    let* b := GToStringFn_call [w] in GStringFindFn_call [a; b])
     = GStringFindFn_call [v; w] ∧
   (let* a := GToStringFn_call [v] in GCJSONEncodeFn_call [a])
     = GCJSONEncodeFn_call [v]) ∧
  (∀ b, ∃ s, GToStringFn_call [JBool b] = Ok (JStr s) ∧ s ≠ py_str (JBool b) ∧
     GCJSONEncodeFn_call [JStr s] ≠ GCJSONEncodeFn_call [JBool b]) ∧
  (∃ s, GToStringFn_call [JNone] = Ok (JStr s) ∧ s ≠ py_str JNone ∧
     GCJSONEncodeFn_call [JStr s] ≠ GCJSONEncodeFn_call [JNone]) ∧
  GCJSONEncodeFn_call [JBool true] =
    Ok (JStr (String quote ("True" +:+ String quote EmptyString))) ∧
  GCJSONEncodeFn_call [JNone] =
    Ok (JStr (String quote ("None" +:+ String quote EmptyString))) ∧
  GStringFindFn_call [JBool true; JStr "T"] = Ok (JInt 0) ∧
  GStringFindFn_call [JNone; JStr "nil"] = Ok JNone ∧
  (let* a := GToStringFn_call [JStr "15"] in
   let* b := GToStringFn_call [JInt 5] in GStringFindFn_call [a; b]) = Ok (JInt 1).
Proof.
  assert (Htext : ∀ x, x ≠ JNone → (∀ b, x ≠ JBool b) →
            GToStringFn_call [x] = Ok (JStr (py_str x))).
  { intros [|b|n|x|s|l|d] Hx Hxb; try done. by destruct (Hxb b). }
  split; [|split; [|split]].
  - intros Hv Hvb Hw Hwb. split; [by apply Htext|]. split.
    + rewrite (Htext v), (Htext w) by done. cbn [rbind].
      by rewrite !GStringFindFn_call_2.
    + rewrite (Htext v) by done. done.
  - intros [|]; eexists; (split; [reflexivity|]); split; by vm_compute.
  - eexists; (split; [reflexivity|]); split; by vm_compute.
  - repeat split; by vm_compute.
Qed.

End MoreBuiltinFacts.
